(** * crunchio: a cursor buffer over a growable byte store

    Shallow embedding of [crunchio.go] (the [package main] iteration, the one
    with [parent], [length], [offset] and [closed] fields) and the properties
    of its stream interface: [Read], [Write], [Seek], [Close], the
    [Reference]/[Copy] constructors and the [WriteAbstract] encoder.

    Go pointers are addresses into a heap, so that a reference and its root
    mutate one shared object.  Calls run to completion one at a time: the
    [sync.Mutex] of every buffer is free whenever a call starts, and it is not
    part of the model.  [int] and [int64] are 64-bit two's complement. *)

From Stdlib Require Import ZArith Lia.
From Stdlib Require Import Init.Byte.
From stdpp Require Import base list strings.

Local Open Scope Z_scope.

(** ** Go values *)

(** [int64] arithmetic wraps around. *)
Definition max_int64 : Z := 2 ^ 63 - 1.
Definition wrap64 (z : Z) : Z := (z + 2 ^ 63) mod 2 ^ 64 - 2 ^ 63.

(** [len(s)] as an [int64]. *)
Definition len {A} (s : list A) : Z := Z.of_nat (length s).

(** [byte(v)]: the conversion of an integer to [uint8] keeps the low 8 bits. *)
Definition byte_of_Z (v : Z) : byte :=
  default x00 (Byte.of_N (Z.to_N (Z.land v 255))).

(** The builtin [copy(dst, src)]: the copied prefix lands in [dst], the
    number of bytes copied is returned. *)
Definition copy (dst src : list byte) : list byte * Z :=
  let n := Nat.min (length dst) (length src) in
  (take n src ++ drop n dst, Z.of_nat n).

(** Go's [error] interface; [nil] is [None]. *)
Inductive error : Type :=
  | EOF
  | Errorf (msg : string).

(** The ways a call can end without returning. *)
Inductive panic : Type :=
  | NilReceiver (method : string)
  | NilDereference
  | InterfaceConversion
  | OutOfRange.

(** How a call ends: it returns, or it panics, or the model ran out of the
    depth it allows to a chain of [parent] pointers, which no heap built by
    the constructors reaches. *)
Inductive res (A : Type) : Type :=
  | Ok (a : A)
  | Panic (p : panic)
  | Exhausted.
Arguments Ok {A} a.
Arguments Panic {A} p.
Arguments Exhausted {A}.

Definition res_bind {A B} (r : res A) (k : A → res B) : res B :=
  match r with
  | Ok a => k a
  | Panic p => Panic p
  | Exhausted => Exhausted
  end.

(** [whence] values of package [io]. *)
Definition SeekStart : Z := 0.
Definition SeekCurrent : Z := 1.
Definition SeekEnd : Z := 2.

(** ** The backing store *)

Module crunch.

(** Modelled from the spec: the growable byte store of package
    [github.com/superwhiskers/crunch/v3], which is not part of this
    repository.  The spec consumes it as a primitive, "an expandable byte
    array" with grow-by(n), read-range(offset,len),
    write-range(offset,bytes), current-capacity() and raw-bytes(), and an
    internal cursor that [Seek] repositions.  An access outside the capacity
    panics, as every indexing of a Go slice outside its bounds does.

    The spec does not say what the bytes of a grown store hold.  A Go slice
    that was cut short keeps its old bytes behind its end, and a growth
    within the capacity uncovers them: [behind] stands for these bytes.  They
    are seen through no accessor, and every property below is stated for
    every value of [behind]. *)
Record Buffer : Type := make { buf : list byte; off : Z; behind : list byte }.

(** A store with nothing behind its end. *)
Definition mk (buf : list byte) (off : Z) : Buffer := make buf off [].

(** Modelled from the spec: a store seeded with byte slices, "concatenated
    in order to form initial contents".  Whether the store shares memory
    with a slice it was seeded with is not modelled, and no property below
    speaks of it. *)
Definition NewBuffer (slices : list (list byte)) : Buffer :=
  mk (concat slices) 0.

(** Modelled from the spec: raw-bytes(). *)
Definition Bytes (b : Buffer) : list byte := buf b.

(** Modelled from the spec: current-capacity(). *)
Definition ByteCapacity (b : Buffer) : Z := len (buf b).

(** The [n] bytes that a growth by [n] adds: the ones behind the end when
    there are enough of them, the zero bytes of a new array otherwise. *)
Definition uncovered (n : nat) (b : Buffer) : list byte :=
  if (n <=? List.length (behind b))%nat then take n (behind b)
  else repeat x00 n.

(** What a growth by [n] leaves behind the new end. *)
Definition left_behind (n : nat) (b : Buffer) : list byte :=
  if (n <=? List.length (behind b))%nat then drop n (behind b) else [].

(** Modelled from the spec: grow-by(n).  The capacity grows by [n]; the
    bytes it had stay. *)
Definition Grow (n : Z) (b : Buffer) : res Buffer :=
  if n <? 0 then Panic OutOfRange
  else Ok (make (buf b ++ uncovered (Z.to_nat n) b) (off b)
                (left_behind (Z.to_nat n) b)).

(** Modelled from the spec: the ranges that lie inside the capacity. *)
Definition in_range (o n : Z) (b : Buffer) : bool :=
  (0 <=? o) && (0 <=? n) && (o + n <=? ByteCapacity b).

(** Modelled from the spec: read-range(offset,len). *)
Definition ReadBytes (o n : Z) (b : Buffer) : res (list byte) :=
  if in_range o n b
  then Ok (take (Z.to_nat n) (drop (Z.to_nat o) (buf b)))
  else Panic OutOfRange.

(** Overwrite [length data] cells of [l] from index [o] on. *)
Definition splice (o : nat) (data l : list byte) : list byte :=
  take o l ++ data ++ drop (o + length data) l.

(** Modelled from the spec: write-range(offset,bytes). *)
Definition WriteBytes (o : Z) (data : list byte) (b : Buffer) : res Buffer :=
  if in_range o (len data) b
  then Ok (make (splice (Z.to_nat o) data (buf b)) (off b) (behind b))
  else Panic OutOfRange.

(** Modelled from the spec: write-range for a single byte. *)
Definition WriteByte (o : Z) (data : byte) (b : Buffer) : res Buffer :=
  WriteBytes o [data] b.

(** Modelled from the spec: write-range at the store's own cursor, which
    moves past the bytes written. *)
Definition WriteBytesNext (data : list byte) (b : Buffer) : res Buffer :=
  res_bind (WriteBytes (off b) data b)
    (λ b', Ok (make (buf b') (wrap64 (off b' + len data)) (behind b'))).

(** Modelled from the spec: the store's "own internal cursor is also
    repositioned to [offset]", with no check. *)
Definition SeekByte (o : Z) (relative : bool) (b : Buffer) : Buffer :=
  make (buf b) (if relative then wrap64 (off b + o) else o) (behind b).

(** Modelled from the spec: reset, "capacity → 0".  The bytes that were
    stored end up behind the end. *)
Definition Reset (b : Buffer) : Buffer := make [] 0 (buf b ++ behind b).

(** Little-endian encoding of the low [8 * width] bits of [v]. *)
Fixpoint le_bytes (width : nat) (v : Z) : list byte :=
  match width with
  | O => []
  | S w => byte_of_Z v :: le_bytes w (Z.shiftr v 8)
  end.

(** Modelled from the spec: [WriteI16LE], [WriteU16LE], ..., [WriteF64LE],
    the "little-endian fixed-width encoding of each element, concatenated
    in order".  A float is given by its IEEE 754 bit pattern. *)
Definition WriteLE (width : nat) (o : Z) (data : list Z) (b : Buffer)
  : res Buffer :=
  WriteBytes o (concat (map (le_bytes width) data)) b.

End crunch.

(** ** The cursor buffer *)

Abbreviation addr := nat (only parsing).

Record Buffer : Type := mkBuffer {
  buffer : option addr;   (* *crunch.Buffer, an address among the stores *)
  parent : option addr;   (* *Buffer *)
  length : Z;
  offset : Z;
  closed : bool;
  name : string
}.

(** [new(Buffer)] *)
Definition zero_Buffer : Buffer := mkBuffer None None 0 0 false "".

Definition with_buffer (s : option addr) (B : Buffer) : Buffer :=
  mkBuffer s (parent B) (length B) (offset B) (closed B) (name B).
Definition with_parent (p : option addr) (B : Buffer) : Buffer :=
  mkBuffer (buffer B) p (length B) (offset B) (closed B) (name B).
Definition with_length (l : Z) (B : Buffer) : Buffer :=
  mkBuffer (buffer B) (parent B) l (offset B) (closed B) (name B).
Definition with_offset (o : Z) (B : Buffer) : Buffer :=
  mkBuffer (buffer B) (parent B) (length B) o (closed B) (name B).
Definition with_closed (c : bool) (B : Buffer) : Buffer :=
  mkBuffer (buffer B) (parent B) (length B) (offset B) c (name B).
Definition with_name (n : string) (B : Buffer) : Buffer :=
  mkBuffer (buffer B) (parent B) (length B) (offset B) (closed B) n.

(** The heap: every [*Buffer] and every [*crunch.Buffer] that was allocated,
    by address.  An address that was never allocated plays the nil pointer. *)
Record state : Type := mkState {
  bufs : list Buffer;
  stores : list crunch.Buffer
}.

Definition empty_state : state := mkState [] [].

(** Calls read and update the heap, and return or panic. *)
Definition M (A : Type) : Type := state → res (A * state).

Definition ret {A} (a : A) : M A := λ st, Ok (a, st).

Definition bind {A B} (m : M A) (k : A → M B) : M B :=
  λ st, match m st with
        | Ok (a, st') => k a st'
        | Panic p => Panic p
        | Exhausted => Exhausted
        end.

Notation "'do' x <- m ; k" := (bind m (λ x, k))
  (at level 10, x name, m at level 100, k at level 200,
   format "'[v' 'do'  x  <-  m ; '/' k ']'").
Notation "'do' ' p <- m ; k" := (bind m (λ x, match x with p => k end))
  (at level 10, p pattern, m at level 100, k at level 200,
   format "'[v' 'do'  ' p  <-  m ; '/' k ']'").
Notation "'exec' m ; k" := (bind m (λ _, k))
  (at level 10, m at level 100, k at level 200,
   format "'[v' 'exec'  m ; '/' k ']'").

Definition lift {A} (r : res A) : M A :=
  λ st, match r with
        | Ok a => Ok (a, st)
        | Panic p => Panic p
        | Exhausted => Exhausted
        end.

(** [*b] for a receiver [b]; every method starts with
    [if b == nil { panic("...: buffer is nil") }]. *)
Definition deref (method : string) (b : addr) : M Buffer :=
  λ st, match bufs st !! b with
        | Some B => Ok (B, st)
        | None => Panic (NilReceiver method)
        end.

(** An assignment to a field of [*b]. *)
Definition modify (b : addr) (f : Buffer → Buffer) : M () :=
  λ st, match bufs st !! b with
        | Some B => Ok ((), mkState (<[b := f B]> (bufs st)) (stores st))
        | None => Panic NilDereference
        end.

(** A method call on a [*crunch.Buffer], which may be nil. *)
Definition store (s : option addr) : M crunch.Buffer :=
  λ st, match s with
        | Some a => match stores st !! a with
                    | Some sb => Ok (sb, st)
                    | None => Panic NilDereference
                    end
        | None => Panic NilDereference
        end.

Definition set_store (s : option addr) (sb : crunch.Buffer) : M () :=
  λ st, match s with
        | Some a => Ok ((), mkState (bufs st) (<[a := sb]> (stores st)))
        | None => Panic NilDereference
        end.

Definition alloc_store (sb : crunch.Buffer) : M (option addr) :=
  λ st, Ok (Some (List.length (stores st)), mkState (bufs st) (stores st ++ [sb])).

Definition alloc (B : Buffer) : M addr :=
  λ st, Ok (List.length (bufs st), mkState (bufs st ++ [B]) (stores st)).

(** How many calls deep a method may follow [parent] pointers before the
    model gives up: one per allocated buffer, and one more to meet a nil
    pointer. *)
Definition depth : M nat := λ st, Ok (S (List.length (bufs st)), st).

(** [Closed]: a reference answers with its parent's flag. *)
Fixpoint Closed_rec (fuel : nat) (b : addr) (st : state) : res bool :=
  match fuel with
  | O => Exhausted
  | S fuel' =>
      match bufs st !! b with
      | None => Panic (NilReceiver "CLOSED")
      | Some B =>
          match parent B with
          | Some p => Closed_rec fuel' p st
          | None => Ok (closed B)
          end
      end
  end.

Definition Closed (b : addr) : M bool :=
  λ st, res_bind (Closed_rec (S (List.length (bufs st))) b st) (λ c, Ok (c, st)).

(** [Buffer]: the store of the root, found through the parents; every buffer
    on the way has its [length] refreshed from the store's capacity. *)
Fixpoint Buffer_rec (fuel : nat) (b : addr) : M (option addr) :=
  match fuel with
  | O => λ _, Exhausted
  | S fuel' =>
      do B <- deref "BUFFER" b;
      do buffer <- match parent B with
                   | Some p => Buffer_rec fuel' p
                   | None => ret (buffer B)
                   end;
      do sb <- store buffer;
      exec modify b (with_length (crunch.ByteCapacity sb));
      ret buffer
  end.

Definition Buffer_ (b : addr) : M (option addr) :=
  do fuel <- depth; Buffer_rec fuel b.

Definition SetName (b : addr) (name : string) : M () :=
  do _B <- deref "SETNAME" b;
  modify b (with_name name).

Definition GetName (b : addr) : M string :=
  do B <- deref "GETNAME" b;
  ret (name B).

Definition NewBuffer (name : string) (slices : list (list byte)) : M addr :=
  do b <- alloc zero_Buffer;
  do buffer <- alloc_store (crunch.NewBuffer slices);
  exec modify b (with_buffer buffer);
  do sb <- store buffer;
  exec modify b (with_length (crunch.ByteCapacity sb));
  exec SetName b name;
  ret b.

Definition ReadOffset (b : addr) (dst : list byte) (offset : Z)
    : M (list byte * Z * option error) :=
  do _B <- deref "READOFFSET" b;
  do c <- Closed b;
  if c then ret (dst, 0, Some EOF)
  else
    do buffer <- Buffer_ b;
    match buffer with
    | None => ret (dst, 0, Some (Errorf "buffer: readoffset: crunch buffer vanished"))
    | Some _ =>
        do B <- deref "READOFFSET" b;
        let toRead := wrap64 (length B - offset) in
        let toRead := if len dst <? toRead then len dst else toRead in
        if toRead =? 0 then ret (dst, 0, None)
        else
          do sb <- store buffer;
          do bytes <- lift (crunch.ReadBytes offset toRead sb);
          let '(dst', read) := copy dst bytes in
          ret (dst', read, None)
    end.

Definition Read (b : addr) (dst : list byte)
    : M (list byte * Z * option error) :=
  do B <- deref "READ" b;
  do c <- Closed b;
  if c then ret (dst, 0, Some EOF)
  else
    match parent B with
    | Some p =>
        do '(dst', read, err) <- ReadOffset p dst (offset B);
        exec modify b (λ B, with_offset (wrap64 (offset B + read)) B);
        ret (dst', read, err)
    | None =>
        do buffer <- Buffer_ b;
        match buffer with
        | None => ret (dst, 0, Some (Errorf "buffer: read: crunch buffer vanished"))
        | Some _ =>
            exec modify b (λ B, if length B <=? offset B
                                then with_offset (length B) B else B);
            do B <- deref "READ" b;
            let toRead := wrap64 (length B - offset B) in
            let toRead := if len dst <? toRead then len dst else toRead in
            if toRead =? 0 then ret (dst, 0, None)
            else
              do sb <- store buffer;
              do bytes <- lift (crunch.ReadBytes (offset B) toRead sb);
              let '(dst', read) := copy dst bytes in
              exec modify b (λ B, with_offset (wrap64 (offset B + read)) B);
              ret (dst', read, None)
        end
    end.

(** The part of [Write] and [WriteOffset] on the store of a root: grow by
    what is missing, if anything, then write [src] at [offset]. *)
Definition write_range (b : addr) (buffer : option addr) (src : list byte)
    (offset : Z) : M () :=
  do B <- deref "WRITE" b;
  let toGrow := wrap64 (wrap64 (offset + len src) - length B) in
  exec (if 0 <? toGrow
        then
          exec modify b (λ B, with_length (wrap64 (length B + toGrow)) B);
          do sb <- store buffer;
          do sb' <- lift (crunch.Grow toGrow sb);
          set_store buffer sb'
        else ret ());
  do sb <- store buffer;
  do sb' <- lift (crunch.WriteBytes offset src sb);
  set_store buffer sb'.

Definition WriteOffset (b : addr) (src : list byte) (offset : Z)
    : M (Z * option error) :=
  do _B <- deref "WRITEOFFSET" b;
  do c <- Closed b;
  if c then ret (0, Some EOF)
  else
    do buffer <- Buffer_ b;
    match buffer with
    | None => ret (0, Some (Errorf "buffer: writeoffset: crunch buffer vanished"))
    | Some _ =>
        exec write_range b buffer src offset;
        ret (len src, None)
    end.

Definition Write (b : addr) (src : list byte) : M (Z * option error) :=
  do B <- deref "WRITE" b;
  do c <- Closed b;
  if c then ret (0, Some EOF)
  else
    match parent B with
    | Some p =>
        do '(wrote, err) <- WriteOffset p src (offset B);
        exec modify b (λ B, with_offset (wrap64 (offset B + wrote)) B);
        ret (wrote, err)
    | None =>
        do buffer <- Buffer_ b;
        match buffer with
        | None => ret (0, Some (Errorf "buffer: write: crunch buffer vanished"))
        | Some _ =>
            do B <- deref "WRITE" b;
            exec write_range b buffer src (offset B);
            let wrote := len src in
            exec modify b (λ B, with_offset (wrap64 (offset B + wrote)) B);
            ret (wrote, None)
        end
    end.

(** The [switch whence] of [Seek]; it has no [default] case. *)
Definition seek_target (B : Buffer) (to whence : Z) : Z :=
  if whence =? SeekStart then to
  else if whence =? SeekCurrent then wrap64 (offset B + to)
  else if whence =? SeekEnd then wrap64 (length B - to)
  else offset B.

Definition Seek (b : addr) (to whence : Z) : M (Z * option error) :=
  do _B <- deref "SEEK" b;
  do c <- Closed b;
  if c then ret (0, Some EOF)
  else
    do buffer <- Buffer_ b;
    match buffer with
    | None => ret (0, Some (Errorf "buffer: seek: crunch buffer vanished"))
    | Some _ =>
        exec modify b (λ B, with_offset (seek_target B to whence) B);
        do B <- deref "SEEK" b;
        let offset := offset B in
        exec match parent B with
             | None =>
                 do sb <- store buffer;
                 set_store buffer (crunch.SeekByte offset false sb)
             | Some _ => ret ()
             end;
        ret (offset, None)
    end.

Fixpoint Close_rec (fuel : nat) (b : addr) : M (option error) :=
  match fuel with
  | O => λ _, Exhausted
  | S fuel' =>
      do B <- deref "CLOSE" b;
      exec modify b (with_closed true);
      match parent B with
      | Some p => Close_rec fuel' p
      | None => ret None
      end
  end.

Definition Close (b : addr) : M (option error) :=
  do fuel <- depth; Close_rec fuel b.

Definition Reference (b : addr) : M addr :=
  do _B <- deref "REFERENCE" b;
  do nb <- alloc zero_Buffer;
  exec modify nb (with_parent (Some b));
  ret nb.

Definition Copy (b : addr) : M addr :=
  do B <- deref "COPY" b;
  do nb <- alloc zero_Buffer;
  do sb <- store (buffer B);
  do buffer <- alloc_store (crunch.NewBuffer [crunch.Bytes sb]);
  exec modify nb (with_buffer buffer);
  exec modify nb (with_length (length B));
  ret nb.

Fixpoint Reset_rec (fuel : nat) (b : addr) : M () :=
  match fuel with
  | O => λ _, Exhausted
  | S fuel' =>
      do B <- deref "RESET" b;
      exec modify b (with_length 0);
      exec modify b (with_offset 0);
      match parent B with
      | Some p => Reset_rec fuel' p
      | None =>
          do sb <- store (buffer B);
          set_store (buffer B) (crunch.Reset sb)
      end
  end.

Definition Reset (b : addr) : M () :=
  do fuel <- depth; Reset_rec fuel b.

Definition ByteCapacity (b : addr) : M Z :=
  do _B <- deref "BYTECAPACITY" b;
  do buffer <- Buffer_ b;
  match buffer with
  | Some _ => do B <- deref "BYTECAPACITY" b; ret (length B)
  | None => ret 0
  end.

Definition Size (b : addr) : M Z :=
  do _B <- deref "SIZE" b;
  ByteCapacity b.

Definition Bytes (b : addr) : M (list byte) :=
  do _B <- deref "BYTES" b;
  do buffer <- Buffer_ b;
  do sb <- store buffer;
  ret (crunch.Bytes sb).

Definition String (b : addr) : M string :=
  do _B <- deref "STRING" b;
  do bytes <- Bytes b;
  ret (String.string_of_list_byte bytes).

(** ** The typed value encoder *)

(** The fixed-width numeric types of the [switch], with their byte widths.
    A float stands for its IEEE 754 bit pattern. *)
Inductive numeric : Type :=
  | int16 | int32 | int64 | uint16 | uint32 | uint64 | float32 | float64.

Definition width (t : numeric) : nat :=
  match t with
  | int16 | uint16 => 2
  | int32 | uint32 | float32 => 4
  | int64 | uint64 | float64 => 8
  end.

(** A value of type [any] by its dynamic type.  A value whose type has a
    [Read] method is given by what [io.ReadAll] gets out of it, and one that
    only has [Bytes() []byte] by that result: both stand for values that
    live outside the heap of buffers.  A [*Buffer] of the heap passed as
    [data], or a reader that reads from one, is not among them. *)
Inductive any : Type :=
  | any_Reader (all : list byte) (readErr : option error)
  | any_Bytes (bytes : list byte)
  | any_byte (v : byte)
  | any_bool (v : bool)
  | any_int (v : Z)
  | any_uint (v : Z)
  | any_byte_slice (v : list byte)
  | any_string (v : string)
  | any_string_slice (v : list string)
  | any_num (t : numeric) (v : Z)
  | any_num_slice (t : numeric) (v : list Z)
  | any_other.

(** The type assertions [data.(byte)] and [data.([]byte)]: they panic unless
    the dynamic type of [data] is the asserted one. *)
Definition assert_byte (data : any) : res byte :=
  match data with
  | any_byte v => Ok v
  | _ => Panic InterfaceConversion
  end.

Definition assert_byte_slice (data : any) : res (list byte) :=
  match data with
  | any_byte_slice v => Ok v
  | _ => Panic InterfaceConversion
  end.

Notation "'try' x <- r ; k" := (res_bind r (λ x, k))
  (at level 10, x name, r at level 100, k at level 200,
   format "'[v' 'try'  x  <-  r ; '/' k ']'").

(** [buffer.Grow(int64(len(bytes))); buffer.WriteBytes(0, bytes)] *)
Definition scratch_bytes (bytes : list byte) (buffer : crunch.Buffer)
    : res crunch.Buffer :=
  try buffer <- crunch.Grow (len bytes) buffer;
  crunch.WriteBytes 0 bytes buffer.

(** The loop of the [[]string] case. *)
Fixpoint scratch_strings (strings : list string) (buffer : crunch.Buffer)
    : res crunch.Buffer :=
  match strings with
  | [] => Ok buffer
  | s :: strings' =>
      try buffer <- crunch.Grow (len (String.list_byte_of_string s)) buffer;
      try buffer <- crunch.WriteBytesNext (String.list_byte_of_string s) buffer;
      scratch_strings strings' buffer
  end.

(** The [switch data.(type)] of [WriteAbstract] on the scratch store: the
    encoded store, or the error of the case that returns early. *)
Definition encode (data : any) (buffer : crunch.Buffer)
    : res (crunch.Buffer + error) :=
  match data with
  | any_Reader bytes readErr =>
      match readErr with
      | Some err => Ok (inr err)
      | None => try buffer <- scratch_bytes bytes buffer; Ok (inl buffer)
      end
  | any_Bytes bytes =>
      try buffer <- scratch_bytes bytes buffer; Ok (inl buffer)
  | any_byte _ | any_bool _ | any_int _ | any_uint _ =>
      try buffer <- crunch.Grow 1 buffer;
      try v <- assert_byte data;
      try buffer <- crunch.WriteByte 0 v buffer;
      Ok (inl buffer)
  | any_byte_slice _ | any_string _ =>
      try bytes <- assert_byte_slice data;
      try buffer <- scratch_bytes bytes buffer;
      Ok (inl buffer)
  | any_string_slice strings =>
      try buffer <- scratch_strings strings buffer; Ok (inl buffer)
  | any_num t v =>
      try buffer <- crunch.Grow (Z.of_nat (width t)) buffer;
      try buffer <- crunch.WriteLE (width t) 0 [v] buffer;
      Ok (inl buffer)
  | any_num_slice t numbers =>
      try buffer <- crunch.Grow (wrap64 (Z.of_nat (width t) * len numbers)) buffer;
      try buffer <- crunch.WriteLE (width t) 0 numbers buffer;
      Ok (inl buffer)
  | any_other =>
      Ok (inr (Errorf "buffer: Unsupported type for abstract write: %v"))
  end.

Definition WriteAbstract (b : addr) (data : any) : M (Z * option error) :=
  let buffer := crunch.NewBuffer [] in
  do r <- lift (encode data buffer);
  match r with
  | inr err => ret (0, Some err)
  | inl buffer => Write b (crunch.Bytes buffer)
  end.

(** The bytes of the text "AB". *)
Definition AB : list byte := [x41; x42].

(** ** Heaps and parent chains *)

(** [resolves st b r]: following [parent] from [b] ends at the root [r].
    A reference is allocated after the buffer it refers to and [parent] is
    never reassigned, so addresses decrease along the chain. *)
Inductive resolves (st : state) : addr → addr → Prop :=
  | resolves_root b B :
      bufs st !! b = Some B → parent B = None → resolves st b b
  | resolves_ref b B p r :
      bufs st !! b = Some B → parent B = Some p → (p < b)%nat →
      resolves st p r → resolves st b r.

(** The heaps that the constructors build: parents are older than their
    references, and every root owns a store. *)
Record wf (st : state) : Prop := {
  wf_parent b B p :
    bufs st !! b = Some B → parent B = Some p → (p < b)%nat;
  wf_root b B :
    bufs st !! b = Some B → parent B = None →
    ∃ s sb, buffer B = Some s ∧ stores st !! s = Some sb
}.

(** [b] is attached to the store [sb] at [s], owned by its root [r]. *)
Definition attached (st : state) (b r : addr) (R : Buffer)
    (s : addr) (sb : crunch.Buffer) : Prop :=
  resolves st b r ∧ bufs st !! r = Some R ∧ parent R = None ∧
  buffer R = Some s ∧ stores st !! s = Some sb.

(** Two heaps whose buffers are related pairwise. *)
Definition evolves (rel : Buffer → Buffer → Prop) (st st' : state) : Prop :=
  Forall2 rel (bufs st) (bufs st').

Definition same_links (A A' : Buffer) : Prop :=
  parent A' = parent A ∧ buffer A' = buffer A.

(** Only [length] may differ: what the [Buffer] accessor does. *)
Definition refreshed (A A' : Buffer) : Prop := A' = with_length (length A') A.

(** Only [length] and [offset] may differ: what the stream calls do. *)
Definition moved (A A' : Buffer) : Prop :=
  A' = with_offset (offset A') (with_length (length A') A).

(** Only [closed] may differ, and only by being set: what [Close] does. *)
Definition closing (A A' : Buffer) : Prop :=
  A' = A ∨ A' = with_closed true A.

(** Unchanged, or with [length] and [offset] set to 0: what [Reset] does. *)
Definition zeroed (A A' : Buffer) : Prop :=
  A' = A ∨ A' = with_offset 0 (with_length 0 A).

(** What every method keeps of a heap: the buffers that exist, their
    [parent] and [buffer] fields, and the number of stores. *)
Definition frame (st st' : state) : Prop :=
  evolves same_links st st' ∧
  List.length (stores st') = List.length (stores st).

(** Whenever the call [m] returns, it has kept the frame of the heap and
    its result satisfies [P]. *)
Definition ensures {A} (m : M A) (P : A → Prop) : Prop :=
  ∀ st a st', m st = Ok (a, st') → frame st st' ∧ P a.

(** The errors that the stream calls return: nil or [io.EOF]. *)
Definition nil_or_EOF (err : option error) : Prop :=
  err = None ∨ err = Some EOF.

(** [r] is a root that owns the store [sb] at [s]. *)
Definition is_root (st : state) (r : addr) (R : Buffer)
    (s : addr) (sb : crunch.Buffer) : Prop :=
  bufs st !! r = Some R ∧ parent R = None ∧
  buffer R = Some s ∧ stores st !! s = Some sb.

(** The store after [src] was written at [o]: grown up to [o + len src]
    when it was shorter. *)
Definition written (o : Z) (src : list byte) (sb : crunch.Buffer)
    : crunch.Buffer :=
  let n := Z.to_nat (o + len src - crunch.ByteCapacity sb) in
  crunch.make
    (crunch.splice (Z.to_nat o) src (crunch.buf sb ++ crunch.uncovered n sb))
    (crunch.off sb)
    (crunch.left_behind n sb).

(** How many bytes a read at [o] gets out of a store of [L] bytes. *)
Definition available (L o : Z) (dst : list byte) : Z :=
  Z.min (len dst) (L - o).

(** [dst] after the [n] bytes at [o] of [stored] were copied to its head. *)
Definition filled (dst stored : list byte) (o n : Z) : list byte :=
  take (Z.to_nat n) (drop (Z.to_nat o) stored) ++ drop (Z.to_nat n) dst.

(** The byte sequence that the encoding table gives for a value: the bytes
    of a reader or of a bytes-producing value, a byte, a byte slice, the
    strings of a slice one after the other, the little-endian bytes of a
    number or of the numbers of a slice.  The other shapes have none. *)
Definition payload (data : any) : option (list byte) :=
  match data with
  | any_Reader all None => Some all
  | any_Bytes bytes => Some bytes
  | any_byte v => Some [v]
  | any_byte_slice v => Some v
  | any_string_slice strings =>
      Some (concat (map String.list_byte_of_string strings))
  | any_num t v => Some (crunch.le_bytes (width t) v)
  | any_num_slice t numbers =>
      Some (concat (map (crunch.le_bytes (width t)) numbers))
  | _ => None
  end.

(** The number that a byte sequence spells, least significant byte first. *)
Fixpoint le_value (bytes : list byte) : Z :=
  match bytes with
  | [] => 0
  | b :: bytes' => Z.of_N (Byte.to_N b) + 256 * le_value bytes'
  end.

(** ** Arithmetic of [int64] and of byte ranges *)

Lemma wrap64_small (z : Z) : - 2 ^ 63 ≤ z ≤ max_int64 → wrap64 z = z.
Proof.
  unfold wrap64, max_int64. intros Hz.
  rewrite Z.mod_small; lia.
Qed.

Lemma len_nonneg {A} (l : list A) : 0 ≤ len l.
Proof. unfold len. lia. Qed.

Lemma copy_exact (dst src : list byte) :
  List.length dst = List.length src → copy dst src = (src, len src).
Proof.
  intros Hlen. unfold copy, len. rewrite Hlen, Nat.min_id.
  rewrite firstn_all, drop_ge by lia. by rewrite app_nil_r.
Qed.

Lemma splice_length (o : nat) (data l : list byte) :
  (o + List.length data ≤ List.length l)%nat →
  List.length (crunch.splice o data l) = List.length l.
Proof.
  intros Hfit. unfold crunch.splice.
  rewrite !length_app, length_take, length_drop. lia.
Qed.

(** Reading back the range that [splice] wrote. *)
Lemma splice_read (o : nat) (data l : list byte) :
  (o + List.length data ≤ List.length l)%nat →
  take (List.length data) (drop o (crunch.splice o data l)) = data.
Proof.
  intros Hfit. unfold crunch.splice.
  rewrite drop_app_length' by (rewrite length_take; lia).
  by rewrite take_app_length.
Qed.

(** A write that ends at the end of the store leaves nothing behind it. *)
Lemma splice_at_end (o : nat) (data l : list byte) :
  (o + List.length data = List.length l)%nat →
  crunch.splice o data l = take o l ++ data.
Proof.
  intros Hend. unfold crunch.splice.
  rewrite drop_ge by lia. by rewrite app_nil_r.
Qed.

(** ** One step of a call *)

Lemma bind_Ok {A B} (m : M A) (k : A → M B) st a st' :
  m st = Ok (a, st') → bind m k st = k a st'.
Proof. intros Hm. unfold bind. by rewrite Hm. Qed.

Lemma deref_Ok method b B st :
  bufs st !! b = Some B → deref method b st = Ok (B, st).
Proof. intros Hb. unfold deref. by rewrite Hb. Qed.

Lemma modify_Ok b f B st :
  bufs st !! b = Some B →
  modify b f st = Ok ((), mkState (<[b := f B]> (bufs st)) (stores st)).
Proof. intros Hb. unfold modify. by rewrite Hb. Qed.

Lemma store_Ok s sb st :
  stores st !! s = Some sb → store (Some s) st = Ok (sb, st).
Proof. intros Hs. unfold store. by rewrite Hs. Qed.

Lemma lookup_updated {A} (l : list A) (i : nat) (x y : A) :
  l !! i = Some x → <[i := y]> l !! i = Some y.
Proof. intros Hi. apply list_lookup_insert_eq. by eapply lookup_lt_Some. Qed.

(** What the proofs below rewrite with to run a call. *)
Ltac run_with H :=
  first
    [ rewrite (bind_Ok _ _ _ _ _ (deref_Ok _ _ _ _ H))
    | rewrite (bind_Ok _ _ _ _ _ (modify_Ok _ _ _ _ H))
    | rewrite (bind_Ok _ _ _ _ _ (store_Ok _ _ _ H))
    | rewrite (bind_Ok _ _ _ _ _ H)
    | rewrite (modify_Ok _ _ _ _ H)
    | rewrite (deref_Ok _ _ _ _ H)
    | rewrite (store_Ok _ _ _ H) ].

(** ** Parent chains *)

Lemma closing_links A A' : closing A A' → same_links A A'.
Proof. intros [-> | ->]; by split. Qed.

Lemma moved_links A A' : moved A A' → same_links A A'.
Proof. intros ->. by split. Qed.

Lemma refreshed_moved A A' : refreshed A A' → moved A A'.
Proof. intros ->. by destruct A. Qed.

Lemma evolves_refl rel st : (∀ A, rel A A) → evolves rel st st.
Proof.
  intros Hrefl. apply Forall2_same_length_lookup_2; [done|].
  intros i x y ? ?. assert (x = y) as -> by congruence. apply Hrefl.
Qed.

Lemma evolves_weaken (rel rel' : Buffer → Buffer → Prop) st st' :
  (∀ A A', rel A A' → rel' A A') → evolves rel st st' → evolves rel' st st'.
Proof. intros Himpl Hev. eapply Forall2_impl; [exact Hev | exact Himpl]. Qed.

Lemma evolves_lookup rel st st' b B :
  evolves rel st st' → bufs st !! b = Some B →
  ∃ B', bufs st' !! b = Some B' ∧ rel B B'.
Proof. intros Hev HB. by eapply Forall2_lookup_l. Qed.

Lemma evolves_update rel st st' b B' X :
  evolves rel st st' → bufs st' !! b = Some B' →
  (∀ A, bufs st !! b = Some A → rel A X) →
  evolves rel st (mkState (<[b := X]> (bufs st')) (stores st')).
Proof.
  intros Hall Hb HX. unfold evolves. cbn.
  destruct (Forall2_lookup_r _ _ _ _ _ Hall Hb) as (A & HA & _).
  rewrite <- (list_insert_id (bufs st) b A) by done.
  apply Forall2_insert; [done|]. by apply HX.
Qed.

Lemma resolves_valid st b r : resolves st b r → is_Some (bufs st !! b).
Proof. destruct 1; eauto. Qed.

Lemma resolves_is_root st b r :
  resolves st b r → ∃ R, bufs st !! r = Some R ∧ parent R = None.
Proof. induction 1; eauto. Qed.

Lemma resolves_evolves rel st st' b r :
  (∀ A A', rel A A' → same_links A A') →
  evolves rel st st' → resolves st b r → resolves st' b r.
Proof.
  intros Hrel Hall. induction 1 as [b B HB HP | b B p r HB HP Hlt _ IH].
  - destruct (Forall2_lookup_l _ _ _ _ _ Hall HB) as (B' & HB' & HR).
    apply Hrel in HR as [HP' _]. eapply resolves_root; [done|]. congruence.
  - destruct (Forall2_lookup_l _ _ _ _ _ Hall HB) as (B' & HB' & HR).
    apply Hrel in HR as [HP' _]. eapply resolves_ref; [done| |done..]. congruence.
Qed.

(** On a well-formed heap every buffer resolves to a root. *)
Lemma wf_resolves st b :
  wf st → is_Some (bufs st !! b) → ∃ r, resolves st b r.
Proof.
  intros Hwf. induction (lt_wf b) as [b _ IH]. intros [B HB].
  destruct (parent B) as [p|] eqn:HP.
  - pose proof (wf_parent st Hwf b B p HB HP) as Hlt.
    destruct (IH p Hlt) as [r Hr].
    + apply lookup_lt_is_Some. apply lookup_lt_Some in HB. lia.
    + exists r. by eapply resolves_ref.
  - exists b. by eapply resolves_root.
Qed.

Lemma wf_attached st b :
  wf st → is_Some (bufs st !! b) → ∃ r R s sb, attached st b r R s sb.
Proof.
  intros Hwf Hb. destruct (wf_resolves st b Hwf Hb) as [r Hr].
  destruct (resolves_is_root st b r Hr) as (R & HR & HP).
  destruct (wf_root st Hwf r R HR HP) as (s & sb & Hs & Hsb).
  exists r, R, s, sb. by repeat split.
Qed.

(** *** [Closed] *)

Lemma Closed_rec_S fuel b st :
  Closed_rec (S fuel) b st =
  match bufs st !! b with
  | None => Panic (NilReceiver "CLOSED")
  | Some B =>
      match parent B with
      | Some p => Closed_rec fuel p st
      | None => Ok (closed B)
      end
  end.
Proof. reflexivity. Qed.

Lemma Closed_rec_resolves st b r R fuel :
  resolves st b r → bufs st !! r = Some R → (b < fuel)%nat →
  Closed_rec fuel b st = Ok (closed R).
Proof.
  intros Hres HR. revert fuel.
  induction Hres as [b B HB HP | b B p r HB HP Hlt _ IH]; intros fuel Hfuel.
  - destruct fuel as [|fuel]; [lia|]. rewrite Closed_rec_S, HB, HP. congruence.
  - destruct fuel as [|fuel]; [lia|]. rewrite Closed_rec_S, HB, HP.
    apply IH; [done | lia].
Qed.

Lemma Closed_resolves st b r R :
  resolves st b r → bufs st !! r = Some R →
  Closed b st = Ok (closed R, st).
Proof.
  intros Hres HR. unfold Closed.
  destruct (resolves_valid st b r Hres) as [B HB].
  rewrite (Closed_rec_resolves st b r R); [done..|].
  apply lookup_lt_Some in HB. lia.
Qed.

(** *** The [Buffer] accessor *)

Lemma Buffer_rec_S fuel b :
  Buffer_rec (S fuel) b =
  (do B <- deref "BUFFER" b;
   do buffer <- match parent B with
                | Some p => Buffer_rec fuel p
                | None => ret (buffer B)
                end;
   do sb <- store buffer;
   exec modify b (with_length (crunch.ByteCapacity sb));
   ret buffer).
Proof. reflexivity. Qed.

Lemma Buffer_rec_attached st b r R s sb fuel :
  attached st b r R s sb → (b < fuel)%nat →
  ∃ st' B',
    Buffer_rec fuel b st = Ok (Some s, st') ∧
    stores st' = stores st ∧ evolves refreshed st st' ∧
    bufs st' !! b = Some B' ∧ length B' = crunch.ByteCapacity sb.
Proof.
  intros (Hres & HR & HPR & Hs & Hsb). revert fuel.
  induction Hres as [b B HB HP | b B p r HB HP Hlt Hres IH]; intros fuel Hfuel.
  - destruct fuel as [|fuel]; [lia|]. rewrite Buffer_rec_S.
    assert (B = R) as -> by congruence.
    run_with HB. rewrite HP. unfold ret at 1. unfold bind at 1.
    rewrite Hs. run_with Hsb. run_with HB.
    eexists _, _. split; [reflexivity|]. split; [done|]. split; [|split].
    + eapply (evolves_update _ st st); [|done|].
      * apply evolves_refl. intros A. by destruct A.
      * intros A HA. assert (A = R) as -> by congruence. by destruct R.
    + cbn. by eapply lookup_updated.
    + done.
  - destruct fuel as [|fuel]; [lia|]. rewrite Buffer_rec_S.
    destruct (IH HR fuel) as (st1 & P1 & Hrun & Hst & Hall & HP1 & _); [lia|].
    run_with HB. rewrite HP. run_with Hrun.
    destruct (evolves_lookup _ _ _ _ _ Hall HB) as (B1 & HB1 & HR1).
    rewrite <- Hst in Hsb. run_with Hsb. run_with HB1.
    eexists _, _. split; [reflexivity|]. split; [done|]. split; [|split].
    + eapply (evolves_update _ st st1); [done | done |].
      intros A HA. assert (A = B) as -> by congruence.
      rewrite HR1. by destruct B.
    + cbn. by eapply lookup_updated.
    + done.
Qed.

Lemma Buffer_attached st b r R s sb :
  attached st b r R s sb →
  ∃ st' B',
    Buffer_ b st = Ok (Some s, st') ∧
    stores st' = stores st ∧ evolves refreshed st st' ∧
    bufs st' !! b = Some B' ∧ length B' = crunch.ByteCapacity sb.
Proof.
  intros Hatt. unfold Buffer_, depth, bind.
  apply Buffer_rec_attached with (r := r) (R := R); [done|].
  destruct Hatt as (Hres & _).
  destruct (resolves_valid st b r Hres) as [B HB].
  apply lookup_lt_Some in HB. lia.
Qed.

Lemma resolves_root_inv st b r B :
  resolves st b r → bufs st !! b = Some B → parent B = None → r = b.
Proof. destruct 1; [done | congruence]. Qed.

Lemma resolves_parent st b r B p :
  resolves st b r → bufs st !! b = Some B → parent B = Some p →
  resolves st p r.
Proof. destruct 1 as [b B' ? ? | b B' p' r ? ? ? ?]; intros; congruence. Qed.

Lemma attached_evolves rel st st' b r R s sb sb' :
  (∀ A A', rel A A' → same_links A A') →
  evolves rel st st' → stores st' !! s = Some sb' →
  attached st b r R s sb →
  ∃ R', attached st' b r R' s sb' ∧ rel R R'.
Proof.
  intros Hrel Hev Hsb' (Hres & HR & HPR & Hs & _).
  destruct (evolves_lookup _ _ _ _ _ Hev HR) as (R' & HR' & Hrr).
  destruct (Hrel _ _ Hrr) as [HP' Hs'].
  exists R'. split; [|done].
  repeat split; [by eapply resolves_evolves | done | congruence.. | done].
Qed.

(** ** Roots *)

Lemma is_root_attached st r R s sb :
  is_root st r R s sb → attached st r r R s sb.
Proof.
  intros (HR & HP & Hs & Hsb). repeat split; try done.
  by eapply resolves_root.
Qed.

Lemma Closed_root st r R s sb :
  is_root st r R s sb → Closed r st = Ok (closed R, st).
Proof.
  intros Hroot. destruct (is_root_attached _ _ _ _ _ Hroot) as (Hres & HR & _).
  by eapply Closed_resolves.
Qed.

Lemma Buffer_root st r R s sb :
  is_root st r R s sb →
  Buffer_ r st =
  Ok (Some s,
      mkState (<[r := with_length (crunch.ByteCapacity sb) R]> (bufs st))
              (stores st)).
Proof.
  intros (HR & HP & Hs & Hsb). unfold Buffer_, depth, bind.
  rewrite Buffer_rec_S. run_with HR. rewrite HP.
  unfold ret at 1. unfold bind at 1. rewrite Hs.
  run_with Hsb. by run_with HR.
Qed.

Lemma lookup_snoc {A} (l : list A) (x : A) :
  (l ++ [x]) !! List.length l = Some x.
Proof. by apply list_lookup_middle. Qed.

Lemma insert_snoc {A} (l : list A) (x y : A) :
  <[List.length l := y]> (l ++ [x]) = l ++ [y].
Proof. rewrite insert_app_r_alt by done. by rewrite Nat.sub_diag. Qed.

Lemma NewBuffer_spec name slices st :
  NewBuffer name slices st =
  Ok (List.length (bufs st),
      mkState
        (bufs st ++ [mkBuffer (Some (List.length (stores st))) None
                       (len (concat slices)) 0 false name])
        (stores st ++ [crunch.NewBuffer slices])).
Proof.
  unfold NewBuffer, alloc, alloc_store, SetName, bind, modify, store, deref, ret.
  cbn [bufs stores].
  repeat (rewrite ?lookup_snoc, ?insert_snoc; cbn [bufs stores]).
  reflexivity.
Qed.

Lemma NewBuffer_is_root name slices st r st' :
  NewBuffer name slices st = Ok (r, st') →
  is_root st' r
    (mkBuffer (Some (List.length (stores st))) None
       (len (concat slices)) 0 false name)
    (List.length (stores st)) (crunch.NewBuffer slices).
Proof.
  rewrite NewBuffer_spec. intros [= <- <-].
  repeat split; cbn; by rewrite ?lookup_snoc.
Qed.

Lemma Reference_spec st b B :
  bufs st !! b = Some B →
  Reference b st =
  Ok (List.length (bufs st),
      mkState (bufs st ++ [with_parent (Some b) zero_Buffer]) (stores st)).
Proof.
  intros HB. unfold Reference. run_with HB.
  unfold alloc, bind, modify, ret. cbn [bufs stores].
  by rewrite lookup_snoc, insert_snoc.
Qed.

(** *** Heaps built by the constructors *)

Lemma wf_empty : wf empty_state.
Proof. split; intros b B; cbn; by rewrite lookup_nil. Qed.

Lemma wf_NewBuffer name slices st r st' :
  wf st → NewBuffer name slices st = Ok (r, st') → wf st'.
Proof.
  intros [Hparent Hroot]. rewrite NewBuffer_spec. intros [= <- <-].
  split; cbn [bufs stores].
  - intros b B p HB HP. apply lookup_app_Some in HB as [HB | [_ HB]].
    + by eapply Hparent.
    + apply list_lookup_singleton_Some in HB as [_ <-]. done.
  - intros b B HB HP. apply lookup_app_Some in HB as [HB | [_ HB]].
    + destruct (Hroot b B HB HP) as (s & sb & Hs & Hsb).
      exists s, sb. split; [done|]. by apply lookup_app_l_Some.
    + apply list_lookup_singleton_Some in HB as [_ <-].
      eexists _, _. split; [reflexivity | apply lookup_snoc].
Qed.

Lemma wf_Reference st b c st' :
  wf st → Reference b st = Ok (c, st') → wf st'.
Proof.
  intros [Hparent Hroot] Href.
  destruct (bufs st !! b) as [B|] eqn:HB.
  2:{ unfold Reference, bind, deref in Href. by rewrite HB in Href. }
  rewrite (Reference_spec _ _ _ HB) in Href. injection Href as <- <-.
  split; cbn [bufs stores].
  - intros a A p HA HP. apply lookup_app_Some in HA as [HA | [Hge HA]].
    + by eapply Hparent.
    + apply list_lookup_singleton_Some in HA as [_ <-].
      injection HP as <-. apply lookup_lt_Some in HB. lia.
  - intros a A HA HP. apply lookup_app_Some in HA as [HA | [_ HA]].
    + by eapply Hroot.
    + apply list_lookup_singleton_Some in HA as [_ <-]. done.
Qed.

(** *** Writing on the store of a root *)

Lemma uncovered_length n sb : List.length (crunch.uncovered n sb) = n.
Proof.
  unfold crunch.uncovered.
  destruct (n <=? List.length (crunch.behind sb))%nat eqn:Hn.
  - apply Nat.leb_le in Hn. rewrite length_take. lia.
  - apply repeat_length.
Qed.

Lemma uncovered_0 sb : crunch.uncovered 0 sb = [].
Proof. apply nil_length_inv, uncovered_length. Qed.

Lemma uncovered_fresh n buf off :
  crunch.uncovered n (crunch.mk buf off) = repeat x00 n.
Proof. by destruct n. Qed.

Lemma left_behind_fresh n buf off :
  crunch.left_behind n (crunch.mk buf off) = [].
Proof. by destruct n. Qed.

Lemma written_capacity o src sb :
  0 ≤ o →
  crunch.ByteCapacity (written o src sb)
  = Z.max (crunch.ByteCapacity sb) (o + len src).
Proof.
  intros Ho. unfold written, crunch.ByteCapacity, len. cbn [crunch.buf].
  rewrite splice_length; rewrite length_app, uncovered_length; lia.
Qed.

Lemma written_buf o src sb :
  0 ≤ o →
  crunch.buf (written o src sb)
  = take (Z.to_nat o)
      (crunch.buf sb
         ++ crunch.uncovered
              (Z.to_nat (o + len src - crunch.ByteCapacity sb)) sb)
    ++ src ++ drop (Z.to_nat (o + len src)) (crunch.buf sb).
Proof.
  intros Ho. unfold written, crunch.splice, crunch.ByteCapacity, len.
  cbn [crunch.buf]. f_equal. f_equal.
  rewrite drop_app.
  rewrite (drop_ge (crunch.uncovered _ _)) by (rewrite uncovered_length; lia).
  rewrite app_nil_r. f_equal. lia.
Qed.

(** The bytes that a write puts down are read back where it put them. *)
Lemma written_read o src sb :
  0 ≤ o →
  take (List.length src) (drop (Z.to_nat o) (crunch.buf (written o src sb)))
  = src.
Proof.
  intros Ho. unfold written. cbn [crunch.buf]. apply splice_read.
  rewrite length_app, uncovered_length.
  unfold crunch.ByteCapacity, len. lia.
Qed.

(** A write leaves the bytes that were stored outside its range. *)
Lemma written_kept o src sb (i : nat) :
  0 ≤ o → (i < List.length (crunch.buf sb))%nat →
  (i < Z.to_nat o ∨ Z.to_nat (o + len src) ≤ i)%nat →
  crunch.buf (written o src sb) !! i = crunch.buf sb !! i.
Proof.
  intros Ho Hi Hout. rewrite written_buf by done.
  pose proof (len_nonneg src) as Hn. unfold len in *.
  destruct Hout as [Hbefore | Hafter].
  - rewrite lookup_app_l by (rewrite length_take, length_app; lia).
    rewrite lookup_take_lt by done. by rewrite lookup_app_l.
  - assert (List.length
              (take (Z.to_nat o)
                 (crunch.buf sb
                    ++ crunch.uncovered
                         (Z.to_nat (o + Z.of_nat (List.length src)
                                    - crunch.ByteCapacity sb)) sb))
            = Z.to_nat o) as Hlen
      by (rewrite length_take, length_app; lia).
    rewrite lookup_app_r by (rewrite Hlen; lia).
    rewrite lookup_app_r by (rewrite Hlen; lia).
    rewrite lookup_drop, Hlen. f_equal. lia.
Qed.

Lemma set_store_Ok s sb st :
  set_store (Some s) sb st
  = Ok ((), mkState (bufs st) (<[s := sb]> (stores st))).
Proof. reflexivity. Qed.

Lemma Grow_Ok n sb :
  0 ≤ n →
  crunch.Grow n sb
  = Ok (crunch.make (crunch.buf sb ++ crunch.uncovered (Z.to_nat n) sb)
          (crunch.off sb) (crunch.left_behind (Z.to_nat n) sb)).
Proof.
  intros Hn. unfold crunch.Grow.
  destruct (n <? 0) eqn:Hneg; [apply Z.ltb_lt in Hneg; lia | done].
Qed.

Lemma in_range_true o n sb :
  0 ≤ o → 0 ≤ n → o + n ≤ crunch.ByteCapacity sb →
  crunch.in_range o n sb = true.
Proof.
  intros. unfold crunch.in_range. rewrite !andb_true_iff, !Z.leb_le. lia.
Qed.

Lemma WriteBytes_Ok o data sb :
  0 ≤ o → o + len data ≤ crunch.ByteCapacity sb →
  crunch.WriteBytes o data sb
  = Ok (crunch.make (crunch.splice (Z.to_nat o) data (crunch.buf sb))
          (crunch.off sb) (crunch.behind sb)).
Proof.
  intros Ho Hfit. unfold crunch.WriteBytes.
  rewrite in_range_true; [done.. | apply len_nonneg | done].
Qed.

Lemma ReadBytes_Ok o n sb :
  0 ≤ o → 0 ≤ n → o + n ≤ crunch.ByteCapacity sb →
  crunch.ReadBytes o n sb
  = Ok (take (Z.to_nat n) (drop (Z.to_nat o) (crunch.buf sb))).
Proof. intros. unfold crunch.ReadBytes. by rewrite in_range_true. Qed.

Lemma write_range_spec st b B s sb src o :
  bufs st !! b = Some B → stores st !! s = Some sb →
  length B = crunch.ByteCapacity sb →
  0 ≤ o → o + len src ≤ max_int64 → crunch.ByteCapacity sb ≤ max_int64 →
  write_range b (Some s) src o st =
  Ok ((),
      mkState
        (<[b := with_length (Z.max (crunch.ByteCapacity sb) (o + len src)) B]>
           (bufs st))
        (<[s := written o src sb]> (stores st))).
Proof.
  intros HB Hsb HL Ho Hfit Hcap. unfold write_range.
  pose proof (len_nonneg src) as Hn.
  assert (0 ≤ crunch.ByteCapacity sb) as HL0 by apply len_nonneg.
  run_with HB. rewrite HL.
  rewrite (wrap64_small (o + len src)) by (unfold max_int64 in *; lia).
  rewrite (wrap64_small (o + len src - _)) by (unfold max_int64 in *; lia).
  pose proof (lookup_lt_Some _ _ _ Hsb) as Hslt.
  destruct (0 <? o + len src - crunch.ByteCapacity sb) eqn:Hgrow.
  - apply Z.ltb_lt in Hgrow.
    unfold bind at 1. unfold bind at 1. rewrite (modify_Ok _ _ _ _ HB).
    rewrite HL, (wrap64_small (_ + _)) by (unfold max_int64 in *; lia).
    unfold bind at 1, store at 1. cbn [bufs stores]. rewrite Hsb.
    rewrite Grow_Ok by lia.
    unfold lift at 1. unfold bind at 1. rewrite set_store_Ok. cbn [bufs stores].
    unfold bind at 1, store. cbn [bufs stores].
    rewrite list_lookup_insert_eq by done.
    rewrite WriteBytes_Ok; [|done|].
    2:{ unfold crunch.ByteCapacity, len in *. cbn [crunch.buf].
        rewrite length_app, uncovered_length. lia. }
    unfold lift, bind. rewrite set_store_Ok.
    cbn [bufs stores crunch.buf crunch.off crunch.behind].
    rewrite list_insert_insert_eq.
    replace (crunch.ByteCapacity sb + (o + len src - crunch.ByteCapacity sb))
      with (Z.max (crunch.ByteCapacity sb) (o + len src)) by lia.
    reflexivity.
  - apply Z.ltb_ge in Hgrow.
    unfold ret at 1. unfold bind at 1.
    run_with Hsb. rewrite WriteBytes_Ok by lia.
    unfold lift, bind. rewrite set_store_Ok.
    do 2 f_equal. f_equal.
    + rewrite list_insert_id; [done|]. rewrite HB. f_equal.
      rewrite Z.max_l by lia. rewrite <- HL. by destruct B.
    + unfold written.
      rewrite (Z2Nat.nonpos (o + len src - _)) by lia.
      by rewrite uncovered_0, app_nil_r.
Qed.

Lemma Write_root st r R s sb src :
  is_root st r R s sb → closed R = false →
  0 ≤ offset R → offset R + len src ≤ max_int64 →
  crunch.ByteCapacity sb ≤ max_int64 →
  Write r src st =
  Ok ((len src, None),
      mkState
        (<[r := with_offset (offset R + len src)
                  (with_length
                     (Z.max (crunch.ByteCapacity sb) (offset R + len src)) R)]>
           (bufs st))
        (<[s := written (offset R) src sb]> (stores st))).
Proof.
  intros Hroot Hopen Ho Hfit Hcap.
  pose proof Hroot as (HR & HP & Hs & Hsb).
  pose proof (len_nonneg src) as Hn.
  unfold Write. run_with HR.
  run_with (Closed_root _ _ _ _ _ Hroot). rewrite Hopen, HP.
  run_with (Buffer_root _ _ _ _ _ Hroot).
  remember (mkState _ _) as st1 eqn:Est1.
  set (R1 := with_length (crunch.ByteCapacity sb) R).
  assert (bufs st1 !! r = Some R1) as HR1
    by (subst st1; by eapply lookup_updated).
  assert (stores st1 !! s = Some sb) as Hsb1 by by subst st1.
  run_with HR1.
  run_with (write_range_spec _ r R1 s sb src (offset R) HR1 Hsb1 eq_refl Ho Hfit Hcap).
  remember (mkState (<[r := _]> (bufs st1)) _) as st2 eqn:Est2.
  assert (bufs st2 !! r
          = Some (with_length
                    (Z.max (crunch.ByteCapacity sb) (offset R + len src)) R1))
    as HR2 by (subst st2; by eapply lookup_updated).
  run_with HR2. unfold ret. subst st2 st1 R1. cbn [bufs stores].
  rewrite !list_insert_insert_eq.
  cbn [offset with_length with_offset].
  rewrite wrap64_small by (unfold max_int64 in *; lia).
  reflexivity.
Qed.

Lemma WriteOffset_root st r R s sb src o :
  is_root st r R s sb → closed R = false →
  0 ≤ o → o + len src ≤ max_int64 →
  crunch.ByteCapacity sb ≤ max_int64 →
  WriteOffset r src o st =
  Ok ((len src, None),
      mkState
        (<[r := with_length (Z.max (crunch.ByteCapacity sb) (o + len src)) R]>
           (bufs st))
        (<[s := written o src sb]> (stores st))).
Proof.
  intros Hroot Hopen Ho Hfit Hcap.
  pose proof Hroot as (HR & HP & Hs & Hsb).
  unfold WriteOffset. run_with HR.
  run_with (Closed_root _ _ _ _ _ Hroot). rewrite Hopen.
  run_with (Buffer_root _ _ _ _ _ Hroot).
  remember (mkState _ _) as st1 eqn:Est1.
  set (R1 := with_length (crunch.ByteCapacity sb) R).
  assert (bufs st1 !! r = Some R1) as HR1
    by (subst st1; by eapply lookup_updated).
  assert (stores st1 !! s = Some sb) as Hsb1 by by subst st1.
  run_with (write_range_spec _ r R1 s sb src o HR1 Hsb1 eq_refl Ho Hfit Hcap).
  unfold ret. subst st1 R1. cbn [bufs stores].
  rewrite !list_insert_insert_eq. reflexivity.
Qed.

(** *** [Seek] *)

Lemma moved_closed A A' : moved A A' → closed A' = closed A.
Proof. by intros ->. Qed.

Lemma Seek_attached st b r R s sb B to whence :
  attached st b r R s sb → closed R = false → bufs st !! b = Some B →
  ∃ st' B' R' sb',
    Seek b to whence st
    = Ok ((seek_target (with_length (crunch.ByteCapacity sb) B) to whence, None),
          st') ∧
    bufs st' !! b = Some B' ∧
    B' = with_offset
           (seek_target (with_length (crunch.ByteCapacity sb) B) to whence)
           (with_length (crunch.ByteCapacity sb) B) ∧
    attached st' b r R' s sb' ∧ closed R' = false ∧
    crunch.buf sb' = crunch.buf sb ∧ evolves moved st st'.
Proof.
  intros Hatt Hopen HB.
  pose proof Hatt as (Hres & HR & HPR & Hs & Hsb).
  destruct (Buffer_attached _ _ _ _ _ _ Hatt)
    as (st1 & B1 & Hrun & Hst1 & Hev1 & HB1 & HL1).
  destruct (evolves_lookup _ _ _ _ _ Hev1 HB) as (B1' & HB1' & Href).
  assert (B1' = B1) as -> by congruence.
  assert (B1 = with_length (crunch.ByteCapacity sb) B) as HB1eq
    by (rewrite Href; by rewrite HL1).
  unfold Seek. run_with HB.
  run_with (Closed_resolves _ _ _ _ Hres HR). rewrite Hopen.
  run_with Hrun. run_with HB1.
  remember (mkState _ _) as st2 eqn:Est2.
  set (B2 := with_offset (seek_target B1 to whence) B1) in *.
  assert (bufs st2 !! b = Some B2) as HB2
    by (subst st2; by eapply lookup_updated).
  assert (evolves moved st st2) as Hev2.
  { subst st2. eapply (evolves_update _ st st1).
    - eapply evolves_weaken; [apply refreshed_moved | done].
    - done.
    - intros A HA. assert (A = B) as -> by congruence.
      subst B2. rewrite HB1eq. by destruct B. }
  assert (stores st2 = stores st) as Hst2 by (by subst st2).
  run_with HB2.
  destruct (parent B2) as [p|] eqn:HP2.
  - (* a reference: only its own offset moves *)
    unfold ret at 1. unfold bind at 1. unfold ret.
    assert (stores st2 !! s = Some sb) as Hsb2 by by rewrite Hst2.
    destruct (attached_evolves _ _ _ _ _ _ _ _ _ moved_links Hev2 Hsb2 Hatt)
      as (R' & Hatt' & HRR').
    exists st2, B2, R', sb. subst B2. rewrite <- HB1eq.
    do 3 (split; [done|]). split; [exact Hatt'|].
    split; [by rewrite (moved_closed _ _ HRR')|]. by split.
  - (* a root: the cursor of the store follows *)
    assert (parent B = None) as HP.
    { subst B2. rewrite HB1eq in HP2. exact HP2. }
    assert (r = b) as -> by by eapply resolves_root_inv.
    assert (B = R) as -> by congruence.
    assert (stores st2 !! s = Some sb) as Hsb2 by by rewrite Hst2.
    unfold bind at 1. run_with Hsb2. rewrite set_store_Ok. unfold ret.
    remember (mkState (bufs st2) _) as st3 eqn:Est3.
    assert (evolves moved st st3) as Hev3 by (by subst st3).
    assert (stores st3 !! s
            = Some (crunch.SeekByte (offset B2) false sb)) as Hsb3.
    { subst st3. cbn. by eapply lookup_updated. }
    destruct (attached_evolves _ _ _ _ _ _ _ _ _ moved_links Hev3 Hsb3 Hatt)
      as (R' & Hatt' & HRR').
    exists st3, B2, R', (crunch.SeekByte (offset B2) false sb).
    assert (bufs st3 !! b = Some B2) as HB3 by (by subst st3).
    subst B2. rewrite <- HB1eq.
    do 3 (split; [done|]). split; [exact Hatt'|].
    split; [by rewrite (moved_closed _ _ HRR')|]. by split.
Qed.

(** *** [Read] on a root *)

(** The range asked for lies inside the store: it is read in full. *)
Lemma Read_root st r R s sb dst :
  is_root st r R s sb → closed R = false →
  0 ≤ offset R → offset R + len dst ≤ crunch.ByteCapacity sb →
  crunch.ByteCapacity sb ≤ max_int64 →
  Read r dst st =
  Ok ((take (List.length dst) (drop (Z.to_nat (offset R)) (crunch.buf sb)),
       len dst, None),
      mkState
        (<[r := with_offset (offset R + len dst)
                  (with_length (crunch.ByteCapacity sb) R)]> (bufs st))
        (stores st)).
Proof.
  intros Hroot Hopen Ho Hfit Hcap.
  pose proof Hroot as (HR & HP & Hs & Hsb).
  pose proof (len_nonneg dst) as Hn.
  unfold Read. run_with HR.
  run_with (Closed_root _ _ _ _ _ Hroot). rewrite Hopen, HP.
  run_with (Buffer_root _ _ _ _ _ Hroot).
  remember (mkState _ _) as st1 eqn:Est1.
  set (L := crunch.ByteCapacity sb) in *.
  assert (bufs st1 !! r = Some (with_length L R)) as HR1
    by (subst st1; by eapply lookup_updated).
  run_with HR1. cbn [length offset with_length].
  remember (mkState (<[r := _]> (bufs st1)) _) as st2 eqn:Est2.
  assert (stores st2 !! s = Some sb) as Hsb2 by (by subst st2 st1).
  destruct (decide (len dst = 0)) as [Hempty | Hsome].
  - (* nothing is asked for *)
    assert (dst = []) as ->
      by (destruct dst; [done | unfold len in Hempty; cbn [List.length] in Hempty; lia]).
    change (len (@nil byte)) with 0 in *. rewrite Z.add_0_r in *.
    assert ((if L <=? offset R
             then with_offset L (with_length L R) else with_length L R)
            = with_offset (offset R) (with_length L R)) as Hclamp.
    { destruct (L <=? offset R) eqn:Hle; [|by destruct R].
      apply Z.leb_le in Hle. by replace (offset R) with L by lia. }
    rewrite Hclamp in Est2.
    assert (bufs st2 !! r = Some (with_offset (offset R) (with_length L R)))
      as HR2 by (subst st2; by eapply lookup_updated).
    run_with HR2. cbn [length offset with_length with_offset].
    rewrite wrap64_small by (unfold max_int64 in *; lia).
    assert ((if 0 <? L - offset R then 0 else L - offset R) = 0) as ->.
    { destruct (0 <? L - offset R) eqn:Hlt; [done|].
      apply Z.ltb_ge in Hlt. lia. }
    change (0 =? 0) with true. cbv iota.
    unfold ret. rewrite take_0.
    subst st2 st1. cbn [bufs stores]. by rewrite list_insert_insert_eq.
  - (* the whole of [dst] is filled *)
    replace (L <=? offset R) with false in Est2
      by (symmetry; apply Z.leb_gt; lia).
    assert (bufs st2 !! r = Some (with_length L R)) as HR2
      by (subst st2; by eapply lookup_updated).
    run_with HR2. cbn [length offset with_length].
    rewrite wrap64_small by (unfold max_int64 in *; lia).
    assert ((if len dst <? L - offset R then len dst else L - offset R)
            = len dst) as ->.
    { destruct (len dst <? L - offset R) eqn:Hlt; [done|].
      apply Z.ltb_ge in Hlt. lia. }
    replace (len dst =? 0) with false by (symmetry; by apply Z.eqb_neq).
    run_with Hsb2. rewrite ReadBytes_Ok by (fold L; lia).
    unfold lift at 1. unfold bind at 1.
    unfold len at 1. rewrite Nat2Z.id.
    rewrite copy_exact.
    2:{ rewrite length_take, length_drop.
        unfold L, crunch.ByteCapacity, len in *. lia. }
    run_with HR2. unfold ret. cbn [length offset with_length with_offset].
    rewrite wrap64_small.
    2:{ unfold len at 1 2. rewrite length_take, length_drop.
        unfold L, crunch.ByteCapacity, len, max_int64 in *. lia. }
    replace (len (take _ _)) with (len dst).
    2:{ unfold len. rewrite length_take, length_drop.
        unfold L, crunch.ByteCapacity, len in *. lia. }
    subst st2 st1. cbn [bufs stores]. by rewrite !list_insert_insert_eq.
Qed.

Lemma attached_is_root st b r R s sb :
  attached st b r R s sb → is_root st r R s sb.
Proof. by intros (_ & HR & HP & Hs & Hsb). Qed.

Lemma Write_root_is_root st r R s sb src st' res :
  is_root st r R s sb → closed R = false →
  0 ≤ offset R → offset R + len src ≤ max_int64 →
  crunch.ByteCapacity sb ≤ max_int64 →
  Write r src st = Ok (res, st') →
  is_root st' r
    (with_offset (offset R + len src)
       (with_length (Z.max (crunch.ByteCapacity sb) (offset R + len src)) R))
    s (written (offset R) src sb).
Proof.
  intros Hroot Hopen Ho Hfit Hcap.
  rewrite (Write_root _ _ _ _ _ _ Hroot Hopen Ho Hfit Hcap).
  destruct Hroot as (HR & HP & Hs & Hsb). intros [= <- <-].
  repeat split; cbn [bufs stores]; try done; by eapply lookup_updated.
Qed.

(** ** The round trip of [Write] and [Read] *)

(** C1: writing [s] to a freshly created root, seeking to the start and
    reading [len(s)] bytes yields exactly [s]; [Write] reports [len(s)]
    bytes and no error.  The byte sequences are Go slices, whose lengths are
    [int] values. *)
Theorem C1_write_read_roundtrip
    (st : state) (name : string) (slices : list (list byte))
    (s dst : list byte) :
  len s ≤ max_int64 → len (concat slices) ≤ max_int64 →
  List.length dst = List.length s →
  ∃ r st1 st2 st3 st4,
    NewBuffer name slices st = Ok (r, st1) ∧
    Write r s st1 = Ok ((len s, None), st2) ∧
    Seek r 0 SeekStart st2 = Ok ((0, None), st3) ∧
    Read r dst st3 = Ok ((s, len s, None), st4).
Proof.
  intros Hs Hinit Hdst.
  pose proof (len_nonneg s) as Hn.
  destruct (NewBuffer name slices st) as [[r st1]| |] eqn:Hnew;
    try (rewrite NewBuffer_spec in Hnew; discriminate).
  pose proof (NewBuffer_is_root _ _ _ _ _ Hnew) as Hroot1.
  set (R1 := mkBuffer _ _ _ _ _ _) in Hroot1.
  set (s0 := List.length (stores st)) in Hroot1.
  set (sb1 := crunch.NewBuffer slices) in Hroot1.
  assert (crunch.ByteCapacity sb1 = len (concat slices)) as Hcap1 by done.
  assert (crunch.ByteCapacity sb1 ≤ max_int64) as Hcap1' by by rewrite Hcap1.
  assert (offset R1 = 0) as Ho1 by done.
  pose proof (Write_root _ _ _ _ _ s Hroot1 eq_refl
                ltac:(rewrite Ho1; lia) ltac:(rewrite Ho1; lia) Hcap1') as Hw.
  pose proof (Write_root_is_root _ _ _ _ _ s _ _ Hroot1 eq_refl
                ltac:(rewrite Ho1; lia) ltac:(rewrite Ho1; lia) Hcap1' Hw)
    as Hroot2.
  rewrite Ho1, Z.add_0_l in Hw, Hroot2.
  set (st2 := mkState _ _) in Hw, Hroot2.
  set (R2 := with_offset _ _) in Hroot2.
  set (sb2 := written 0 s sb1) in Hroot2.
  assert (crunch.ByteCapacity sb2 = Z.max (crunch.ByteCapacity sb1) (len s))
    as Hcap2 by (unfold sb2; rewrite written_capacity; [f_equal; lia | lia]).
  destruct (Seek_attached st2 r r R2 s0 sb2 R2 0 SeekStart)
    as (st3 & B3 & R3 & sb3 & Hseek & HB3 & HB3eq & Hatt3 & Hopen3 & Hbuf3 & _);
    [by apply is_root_attached | done | by destruct Hroot2 |].
  pose proof (attached_is_root _ _ _ _ _ _ Hatt3) as Hroot3.
  assert (R3 = B3) as -> by (destruct Hroot3 as (HR3 & _); congruence).
  assert (offset B3 = 0) as Ho3 by (by rewrite HB3eq).
  assert (crunch.ByteCapacity sb3 = crunch.ByteCapacity sb2) as Hcap3
    by (unfold crunch.ByteCapacity; by rewrite Hbuf3).
  assert (len dst = len s) as Hlen by (unfold len; by rewrite Hdst).
  pose proof (Read_root st3 r B3 s0 sb3 dst Hroot3 Hopen3
                ltac:(lia) ltac:(lia) ltac:(unfold max_int64 in *; lia))
    as Hread.
  assert (take (List.length dst)
            (drop (Z.to_nat (offset B3)) (crunch.buf sb3)) = s) as Hbytes.
  { rewrite Ho3, Hbuf3, Hdst. unfold sb2, written. cbn [crunch.buf].
    change (Z.to_nat 0) with 0%nat. apply (splice_read 0).
    rewrite length_app, uncovered_length.
    unfold crunch.ByteCapacity, len in *. lia. }
  rewrite Hbytes, Hlen in Hread.
  eexists r, st1, st2, st3, _.
  split; [done|]. split; [exact Hw|]. split; [exact Hseek | exact Hread].
Qed.

(** A run of C1 on the text "AB", on a root seeded with one byte. *)
Lemma C1_write_read_roundtrip_witness :
  ∃ r st1 st2 st3 st4,
    NewBuffer "r" [[x07]] empty_state = Ok (r, st1) ∧
    Write r AB st1 = Ok ((len AB, None), st2) ∧
    Seek r 0 SeekStart st2 = Ok ((0, None), st3) ∧
    Read r [x00; x00] st3 = Ok ((AB, len AB, None), st4).
Proof.
  apply (C1_write_read_roundtrip empty_state "r" [[x07]] AB [x00; x00]);
    [vm_compute; discriminate | vm_compute; discriminate | reflexivity].
Defined.

(** ** Growth on [Write] *)

Lemma ByteCapacity_root st r R s sb :
  is_root st r R s sb →
  ByteCapacity r st =
  Ok (crunch.ByteCapacity sb,
      mkState (<[r := with_length (crunch.ByteCapacity sb) R]> (bufs st))
              (stores st)).
Proof.
  intros Hroot. pose proof Hroot as (HR & HP & Hs & Hsb).
  unfold ByteCapacity. run_with HR.
  run_with (Buffer_root _ _ _ _ _ Hroot).
  remember (mkState _ _) as st1 eqn:Est1.
  assert (bufs st1 !! r = Some (with_length (crunch.ByteCapacity sb) R)) as HR1
    by (subst st1; by eapply lookup_updated).
  by run_with HR1.
Qed.

Lemma in_range_inv o n sb :
  crunch.in_range o n sb = true →
  0 ≤ o ∧ 0 ≤ n ∧ o + n ≤ crunch.ByteCapacity sb.
Proof.
  unfold crunch.in_range. rewrite !andb_true_iff, !Z.leb_le. tauto.
Qed.

Lemma WriteBytes_capacity o data sb sb' :
  crunch.WriteBytes o data sb = Ok sb' →
  crunch.ByteCapacity sb' = crunch.ByteCapacity sb.
Proof.
  unfold crunch.WriteBytes. destruct (crunch.in_range _ _ _) eqn:Hin; [|done].
  apply in_range_inv in Hin as (Ho & _ & Hfit). intros [= <-].
  unfold crunch.ByteCapacity, len in *. cbn [crunch.buf].
  rewrite splice_length; lia.
Qed.

Lemma Grow_capacity n sb sb' :
  crunch.Grow n sb = Ok sb' →
  crunch.ByteCapacity sb ≤ crunch.ByteCapacity sb'.
Proof.
  unfold crunch.Grow. destruct (n <? 0); [done|]. intros [= <-].
  unfold crunch.ByteCapacity, len. cbn [crunch.buf]. rewrite length_app. lia.
Qed.

(** Whatever the offset, a [write_range] that returns left the store at
    least as long as it was, and the buffers attached as they were. *)
Lemma write_range_mono st b B s sb src o st' :
  bufs st !! b = Some B → stores st !! s = Some sb →
  write_range b (Some s) src o st = Ok ((), st') →
  ∃ l sb',
    bufs st' = <[b := with_length l B]> (bufs st) ∧
    stores st' !! s = Some sb' ∧
    crunch.ByteCapacity sb ≤ crunch.ByteCapacity sb'.
Proof.
  intros HB Hsb. unfold write_range. run_with HB.
  pose proof (lookup_lt_Some _ _ _ Hsb) as Hslt.
  destruct (0 <? _) eqn:Hgrow.
  - unfold bind at 1. unfold bind at 1. rewrite (modify_Ok _ _ _ _ HB).
    unfold bind at 1, store at 1. cbn [bufs stores]. rewrite Hsb.
    destruct (crunch.Grow _ sb) as [sb1| |] eqn:Hg; [|done..].
    unfold lift at 1. unfold bind at 1. rewrite set_store_Ok.
    unfold bind at 1, store. cbn [bufs stores].
    rewrite list_lookup_insert_eq by done.
    destruct (crunch.WriteBytes o src sb1) as [sb2| |] eqn:Hw; [|done..].
    unfold lift, bind. rewrite set_store_Ok. cbn [bufs stores].
    intros [= <-]. cbn [bufs stores]. eexists _, sb2.
    split; [reflexivity|]. split.
    + rewrite list_insert_insert_eq. by apply list_lookup_insert_eq.
    + apply WriteBytes_capacity in Hw. apply Grow_capacity in Hg. lia.
  - unfold ret at 1. unfold bind at 1. run_with Hsb.
    destruct (crunch.WriteBytes o src sb) as [sb2| |] eqn:Hw; [|done..].
    unfold lift, bind. rewrite set_store_Ok.
    intros [= <-]. cbn [bufs stores]. exists (length B), sb2.
    split; [|split].
    + rewrite list_insert_id; [done|]. rewrite HB. by destruct B.
    + by apply list_lookup_insert_eq.
    + apply WriteBytes_capacity in Hw. lia.
Qed.

(** A [Write] on a root that returns leaves it a root of the same store,
    which is at least as long as before. *)
Lemma Write_root_mono st r R s sb src res st' :
  is_root st r R s sb → Write r src st = Ok (res, st') →
  ∃ R' sb',
    is_root st' r R' s sb' ∧
    crunch.ByteCapacity sb ≤ crunch.ByteCapacity sb'.
Proof.
  intros Hroot. pose proof Hroot as (HR & HP & Hs & Hsb).
  unfold Write. run_with HR.
  run_with (Closed_root _ _ _ _ _ Hroot).
  destruct (closed R).
  { intros [= <- <-]. exists R, sb. split; [done | lia]. }
  rewrite HP. run_with (Buffer_root _ _ _ _ _ Hroot).
  remember (mkState _ _) as st1 eqn:Est1.
  set (R1 := with_length (crunch.ByteCapacity sb) R).
  assert (bufs st1 !! r = Some R1) as HR1
    by (subst st1; by eapply lookup_updated).
  assert (stores st1 !! s = Some sb) as Hsb1 by by subst st1.
  run_with HR1. unfold bind at 1.
  destruct (write_range r (Some s) src (offset R1) st1) as [[[] st2]| |] eqn:Hwr;
    [|done..].
  destruct (write_range_mono _ _ _ _ _ _ _ _ HR1 Hsb1 Hwr)
    as (l & sb' & Hbufs2 & Hsb2 & Hmono).
  assert (bufs st2 !! r = Some (with_length l R1)) as HR2.
  { rewrite Hbufs2. by eapply lookup_updated. }
  run_with HR2. unfold ret. intros [= <- <-].
  eexists _, sb'. split; [|done].
  repeat split; cbn [bufs stores]; [by eapply lookup_updated | done..].
Qed.

(** C2, as amended: on a root that is not closed, with the cursor [o] not
    negative and [o + n] an [int64], a write of [n > 0] bytes with
    [o + n > L] grows the store by [o + n - L] bytes, so that the logical
    length is exactly [o + n], puts the bytes at [o], where they end the
    store, leaves the bytes that were stored before [o] and moves the cursor
    to [o + n]; and no write on a root, closed or not and wherever its cursor
    is, that returns makes the logical length smaller.  [L] is the capacity
    of the root's store, the value that [Buffer()] gives to [length] before
    [Write] compares. *)
Theorem C2_write_grows
    (st : state) (r : addr) (R : Buffer) (s : addr) (sb : crunch.Buffer)
    (src : list byte) :
  is_root st r R s sb →
  (closed R = false →
   0 ≤ offset R → 0 < len src →
   crunch.ByteCapacity sb < offset R + len src →
   offset R + len src ≤ max_int64 →
   ∃ st' R' sb',
     Write r src st = Ok ((len src, None), st') ∧
     is_root st' r R' s sb' ∧
     length R' = offset R + len src ∧
     offset R' = offset R + len src ∧
     crunch.ByteCapacity sb'
     = crunch.ByteCapacity sb + (offset R + len src - crunch.ByteCapacity sb) ∧
     drop (Z.to_nat (offset R)) (crunch.buf sb') = src ∧
     (∀ i : nat,
        (i < List.length (crunch.buf sb))%nat → (i < Z.to_nat (offset R))%nat →
        crunch.buf sb' !! i = crunch.buf sb !! i) ∧
     ∃ st'', ByteCapacity r st' = Ok (offset R + len src, st'')) ∧
  (∀ src' res st1,
     Write r src' st = Ok (res, st1) →
     ∃ L1 st2,
       ByteCapacity r st1 = Ok (L1, st2) ∧ crunch.ByteCapacity sb ≤ L1).
Proof.
  intros Hroot.
  assert (0 ≤ crunch.ByteCapacity sb) as HL0 by apply len_nonneg.
  split.
  - intros Hopen Ho Hn Hgrow Hfit.
    assert (crunch.ByteCapacity sb ≤ max_int64) as Hcap by lia.
    pose proof (Write_root _ _ _ _ _ src Hroot Hopen Ho Hfit Hcap) as Hw.
    pose proof (Write_root_is_root _ _ _ _ _ src _ _ Hroot Hopen Ho Hfit Hcap Hw)
      as Hroot'.
    assert (crunch.ByteCapacity (written (offset R) src sb)
            = offset R + len src) as Hcap'
      by (rewrite written_capacity by done; lia).
    eexists _, _, _. split; [exact Hw|]. split; [exact Hroot'|].
    split; [cbn; lia|]. split; [done|]. split; [rewrite Hcap'; lia|].
    split; [|split].
    + unfold written. cbn [crunch.buf]. rewrite splice_at_end.
      2:{ rewrite length_app, uncovered_length.
          unfold crunch.ByteCapacity, len in *. lia. }
      apply drop_app_length'. rewrite length_take, length_app, uncovered_length.
      unfold crunch.ByteCapacity, len in *. lia.
    + intros i Hi Hbefore. apply written_kept; [done | done | by left].
    + eexists. rewrite (ByteCapacity_root _ _ _ _ _ Hroot').
      by rewrite Hcap'.
  - intros src' res st1 Hw.
    destruct (Write_root_mono _ _ _ _ _ _ _ _ Hroot Hw)
      as (R' & sb' & Hroot' & Hmono).
    eexists _, _. split; [exact (ByteCapacity_root _ _ _ _ _ Hroot') | done].
Qed.

(** A run of C2: two bytes written at offset 3 of a one-byte root, and an
    empty write on the same root. *)
Lemma C2_write_grows_witness :
  (∃ st' R' sb',
     Write 0%nat AB
       (mkState [mkBuffer (Some 0%nat) None 1 3 false "r"] [crunch.mk [x07] 0])
     = Ok ((2, None), st') ∧
     is_root st' 0%nat R' 0%nat sb' ∧ length R' = 5 ∧ offset R' = 5 ∧
     crunch.ByteCapacity sb' = 5 ∧
     drop 3 (crunch.buf sb') = AB ∧ crunch.buf sb' !! 0%nat = Some x07) ∧
  ∃ st1 L1 st2,
    Write 0%nat []
      (mkState [mkBuffer (Some 0%nat) None 1 3 false "r"] [crunch.mk [x07] 0])
    = Ok ((0, None), st1) ∧
    ByteCapacity 0%nat st1 = Ok (L1, st2) ∧ 1 ≤ L1.
Proof.
  destruct (C2_write_grows
              (mkState [mkBuffer (Some 0%nat) None 1 3 false "r"]
                 [crunch.mk [x07] 0])
              0%nat (mkBuffer (Some 0%nat) None 1 3 false "r") 0%nat
              (crunch.mk [x07] 0) AB)
    as [Hgrows Hmono];
    [unfold is_root; cbn; repeat split; reflexivity |].
  split.
  - destruct Hgrows
      as (st' & R' & sb' & Hw & Hroot & HL & Ho & Hcap & Hbuf & Hkept & _);
      [reflexivity | vm_compute; discriminate | reflexivity | reflexivity
      | vm_compute; discriminate |].
    exists st', R', sb'.
    split; [exact Hw|]. split; [exact Hroot|]. split; [exact HL|].
    split; [exact Ho|]. split; [exact Hcap|]. split; [exact Hbuf|].
    apply (Hkept 0%nat); cbn; lia.
  - destruct (Hmono [] (0, None)
                (mkState [mkBuffer (Some 0%nat) None 3 3 false "r"]
                   [crunch.mk [x07; x00; x00] 0]) eq_refl)
      as (L1 & st2 & HL1 & Hle).
    exists (mkState [mkBuffer (Some 0%nat) None 3 3 false "r"]
              [crunch.mk [x07; x00; x00] 0]), L1, st2.
    split; [reflexivity|]. split; [exact HL1 | exact Hle].
Defined.

(** C2 as stated fails on a closed root, where nothing is written and the
    length stays 0; with a negative cursor, where the store refuses the
    write after it was grown; and when [o + n] is no [int64]. *)
Lemma C2_counterexample :
  (∃ st,
     (do r <- NewBuffer "r" [];
      exec Close r;
      do w <- Write r [x01];
      do L <- ByteCapacity r;
      ret (w, L)) empty_state
     = Ok ((0, Some EOF, 0), st)) ∧
  (do r <- NewBuffer "r" [];
   exec Seek r (-1) SeekStart;
   Write r [x01; x02]) empty_state
  = Panic OutOfRange ∧
  (do r <- NewBuffer "r" [];
   exec Seek r max_int64 SeekStart;
   Write r [x01]) empty_state
  = Panic OutOfRange.
Proof.
  split; [eexists; vm_compute; reflexivity|].
  split; vm_compute; reflexivity.
Qed.

(** ** Aliasing through a reference *)

(** Rewinding a root and reading gives the head of its store. *)
Lemma Seek_start_Read_root st r R s sb dst :
  is_root st r R s sb → closed R = false →
  len dst ≤ crunch.ByteCapacity sb → crunch.ByteCapacity sb ≤ max_int64 →
  ∃ st1 st2,
    Seek r 0 SeekStart st = Ok ((0, None), st1) ∧
    Read r dst st1
    = Ok ((take (List.length dst) (crunch.buf sb), len dst, None), st2).
Proof.
  intros Hroot Hopen Hfit Hcap.
  pose proof (len_nonneg dst) as Hn.
  destruct (Seek_attached st r r R s sb R 0 SeekStart)
    as (st1 & B1 & R1 & sb1 & Hseek & HB1 & HB1eq & Hatt1 & Hopen1 & Hbuf1 & _);
    [by apply is_root_attached | done | by destruct Hroot |].
  pose proof (attached_is_root _ _ _ _ _ _ Hatt1) as Hroot1.
  assert (R1 = B1) as -> by (destruct Hroot1 as (HR1 & _); congruence).
  assert (offset B1 = 0) as Ho1 by (by rewrite HB1eq).
  assert (crunch.ByteCapacity sb1 = crunch.ByteCapacity sb) as Hcap1
    by (unfold crunch.ByteCapacity; by rewrite Hbuf1).
  pose proof (Read_root st1 r B1 s sb1 dst Hroot1 Hopen1
                ltac:(lia) ltac:(lia) ltac:(lia)) as Hread.
  rewrite Ho1, Hbuf1 in Hread. change (Z.to_nat 0) with 0%nat in Hread.
  rewrite drop_0 in Hread.
  eexists st1, _. split; [exact Hseek | exact Hread].
Qed.

(** C3, as amended: for a root [r] that is not closed and [c] made by
    [r.Reference()], a write through [c], at its offset 0, lands in the
    shared store, so that a read on [r] from offset 0 sees exactly the bytes
    written; the write moves the offset of [c] only, and leaves that of [r]
    as it was. *)
Theorem C3_reference_write_aliases
    (st : state) (r : addr) (R : Buffer) (s : addr) (sb : crunch.Buffer)
    (src dst : list byte) :
  is_root st r R s sb → closed R = false →
  len src ≤ max_int64 → crunch.ByteCapacity sb ≤ max_int64 →
  List.length dst = List.length src →
  ∃ c st1 st2 st3 st4 C0 C2 R2,
    Reference r st = Ok (c, st1) ∧
    bufs st1 !! c = Some C0 ∧ offset C0 = 0 ∧ parent C0 = Some r ∧
    Write c src st1 = Ok ((len src, None), st2) ∧
    bufs st2 !! c = Some C2 ∧ offset C2 = len src ∧
    bufs st2 !! r = Some R2 ∧ offset R2 = offset R ∧
    Seek r 0 SeekStart st2 = Ok ((0, None), st3) ∧
    Read r dst st3 = Ok ((src, len src, None), st4).
Proof.
  intros Hroot Hopen Hsrc Hcap Hdst.
  pose proof Hroot as (HR & HP & Hs & Hsb).
  pose proof (len_nonneg src) as Hn.
  pose proof (lookup_lt_Some _ _ _ HR) as Hrlt.
  pose proof (Reference_spec _ _ _ HR) as Href.
  set (c := List.length (bufs st)) in *.
  set (C0 := with_parent (Some r) zero_Buffer) in *.
  remember (mkState (bufs st ++ [C0]) (stores st)) as st1 eqn:Est1.
  assert (bufs st1 !! c = Some C0) as HC1
    by (subst st1; apply lookup_snoc).
  assert (is_root st1 r R s sb) as Hroot1.
  { subst st1. repeat split; cbn [bufs stores]; try done.
    by rewrite lookup_app_l. }
  assert (resolves st1 c r) as Hres1.
  { eapply resolves_ref; [exact HC1 | done | done |].
    eapply resolves_root; [by destruct Hroot1 | done]. }
  (* the write through [c] *)
  pose proof (WriteOffset_root _ _ _ _ _ src 0 Hroot1 Hopen
                ltac:(lia) ltac:(lia) Hcap) as Hwo.
  rewrite Z.add_0_l in Hwo.
  remember (mkState (<[r := _]> (bufs st1)) _) as st1' eqn:Est1'.
  assert (bufs st1' !! c = Some C0) as HC1'.
  { subst st1'. cbn [bufs]. rewrite list_lookup_insert_ne by lia. done. }
  assert (Write c src st1
          = Ok ((len src, None),
                mkState (<[c := with_offset (len src) C0]> (bufs st1'))
                        (stores st1'))) as Hw.
  { unfold Write. run_with HC1.
    destruct Hroot1 as (HR1 & _).
    run_with (Closed_resolves _ _ _ _ Hres1 HR1). rewrite Hopen.
    change (parent C0) with (Some r). change (offset C0) with 0.
    cbv iota. run_with Hwo. cbv iota beta. run_with HC1'. unfold ret.
    change (offset C0) with 0.
    by rewrite Z.add_0_l, wrap64_small by (unfold max_int64 in *; lia). }
  remember (mkState (<[c := _]> (bufs st1')) _) as st2 eqn:Est2.
  set (R2 := with_length (Z.max (crunch.ByteCapacity sb) (len src)) R) in *.
  set (sb2 := written 0 src sb) in *.
  assert (is_root st2 r R2 s sb2) as Hroot2.
  { destruct Hroot1 as (HR1 & _ & _ & Hsb1).
    subst st2 st1'. repeat split; cbn [bufs stores]; try done.
    - rewrite list_lookup_insert_ne by lia. by eapply lookup_updated.
    - by eapply lookup_updated. }
  assert (crunch.ByteCapacity sb2 = Z.max (crunch.ByteCapacity sb) (len src))
    as Hcap2 by (unfold sb2; rewrite written_capacity; [f_equal; lia | lia]).
  assert (len dst = len src) as Hlen by (unfold len; by rewrite Hdst).
  destruct (Seek_start_Read_root st2 r R2 s sb2 dst Hroot2 Hopen
              ltac:(lia) ltac:(lia)) as (st3 & st4 & Hseek & Hread).
  assert (take (List.length dst) (crunch.buf sb2) = src) as Hbytes.
  { rewrite Hdst. unfold sb2, written. cbn [crunch.buf].
    change (Z.to_nat 0) with 0%nat. apply (splice_read 0).
    rewrite length_app, uncovered_length.
    unfold crunch.ByteCapacity, len in *. lia. }
  rewrite Hbytes, Hlen in Hread.
  exists c, st1, st2, st3, st4, C0, (with_offset (len src) C0), R2.
  split; [by subst st1|]. split; [done|]. split; [done|]. split; [done|].
  split; [exact Hw|].
  split; [subst st2; cbn [bufs]; by eapply lookup_updated|].
  split; [done|]. split; [by destruct Hroot2|]. split; [done|].
  split; [exact Hseek | exact Hread].
Qed.

(** A run of C3 on a root seeded with one byte. *)
Lemma C3_reference_write_aliases_witness :
  ∃ c st1 st2 st3 st4 C0 C2 R2,
    Reference 0%nat
      (mkState [mkBuffer (Some 0%nat) None 1 1 false "r"] [crunch.mk [x07] 0])
    = Ok (c, st1) ∧
    bufs st1 !! c = Some C0 ∧ offset C0 = 0 ∧ parent C0 = Some 0%nat ∧
    Write c AB st1 = Ok ((2, None), st2) ∧
    bufs st2 !! c = Some C2 ∧ offset C2 = 2 ∧
    bufs st2 !! 0%nat = Some R2 ∧ offset R2 = 1 ∧
    Seek 0%nat 0 SeekStart st2 = Ok ((0, None), st3) ∧
    Read 0%nat [x00; x00] st3 = Ok ((AB, 2, None), st4).
Proof.
  apply (C3_reference_write_aliases
           (mkState [mkBuffer (Some 0%nat) None 1 1 false "r"]
              [crunch.mk [x07] 0])
           0%nat (mkBuffer (Some 0%nat) None 1 1 false "r") 0%nat
           (crunch.mk [x07] 0) AB [x00; x00]);
    [unfold is_root; cbn; repeat split; reflexivity | reflexivity
    | vm_compute; discriminate | vm_compute; discriminate | reflexivity].
Defined.

(** C3 as stated fails on a closed root: the write through the reference
    is refused and the store stays empty. *)
Lemma C3_counterexample :
  ∃ st,
    (do r <- NewBuffer "r" [];
     exec Close r;
     do c <- Reference r;
     do w <- Write c AB;
     do bytes <- Bytes r;
     ret (w, bytes)) empty_state
    = Ok ((0, Some EOF, []), st).
Proof. eexists. vm_compute. reflexivity. Qed.

(** ** Reading at the end *)

Lemma attached_parent st b r R s sb B p :
  attached st b r R s sb → bufs st !! b = Some B → parent B = Some p →
  attached st p r R s sb.
Proof.
  intros (Hres & Hrest) HB HP. split; [|done]. by eapply resolves_parent.
Qed.

Lemma refreshed_at st st' b B B' L :
  evolves refreshed st st' → bufs st !! b = Some B →
  bufs st' !! b = Some B' → length B' = L → B' = with_length L B.
Proof.
  intros Hev HB HB' HL.
  destruct (evolves_lookup _ _ _ _ _ Hev HB) as (B'' & HB'' & Href).
  assert (B'' = B') as -> by congruence. rewrite Href. by rewrite HL.
Qed.

(** With the cursor exactly at the logical end, [ReadOffset] and [Read]
    return zero bytes and a nil error, and leave [dst] alone. *)
Lemma ReadOffset_at_end st b r R s sb dst :
  attached st b r R s sb → closed R = false →
  ∃ st',
    ReadOffset b dst (crunch.ByteCapacity sb) st = Ok ((dst, 0, None), st') ∧
    stores st' = stores st ∧ evolves refreshed st st'.
Proof.
  intros Hatt Hopen. pose proof Hatt as (Hres & HR & _).
  destruct (resolves_valid _ _ _ Hres) as [B HB].
  destruct (Buffer_attached _ _ _ _ _ _ Hatt)
    as (st1 & B1 & Hrun & Hst1 & Hev1 & HB1 & HL1).
  unfold ReadOffset. run_with HB.
  run_with (Closed_resolves _ _ _ _ Hres HR). rewrite Hopen.
  run_with Hrun. run_with HB1. rewrite HL1, Z.sub_diag.
  change (wrap64 0) with 0.
  replace (len dst <? 0) with false
    by (symmetry; apply Z.ltb_ge; apply len_nonneg).
  change (0 =? 0) with true. cbv iota. by exists st1.
Qed.

Lemma Read_at_end st b r R s sb B dst :
  attached st b r R s sb → closed R = false →
  bufs st !! b = Some B → offset B = crunch.ByteCapacity sb →
  crunch.ByteCapacity sb ≤ max_int64 →
  ∃ st', Read b dst st = Ok ((dst, 0, None), st').
Proof.
  intros Hatt Hopen HB Ho Hcap. pose proof Hatt as (Hres & HR & _).
  assert (0 ≤ crunch.ByteCapacity sb) as HL0 by apply len_nonneg.
  unfold Read. run_with HB.
  run_with (Closed_resolves _ _ _ _ Hres HR). rewrite Hopen.
  destruct (parent B) as [p|] eqn:HP.
  - (* a reference reads through its parent *)
    pose proof (attached_parent _ _ _ _ _ _ _ _ Hatt HB HP) as Hattp.
    destruct (ReadOffset_at_end _ _ _ _ _ _ dst Hattp Hopen)
      as (st1 & Hro & _ & Hev1).
    rewrite Ho. run_with Hro. cbv iota beta.
    destruct (evolves_lookup _ _ _ _ _ Hev1 HB) as (B1 & HB1 & _).
    run_with HB1. unfold ret. by eexists.
  - (* a root clamps its cursor and finds nothing left *)
    destruct (Buffer_attached _ _ _ _ _ _ Hatt)
      as (st1 & B1 & Hrun & Hst1 & Hev1 & HB1 & HL1).
    pose proof (refreshed_at _ _ _ _ _ _ Hev1 HB HB1 HL1) as HB1eq.
    run_with Hrun. run_with HB1.
    remember (mkState _ _) as st2 eqn:Est2.
    assert (bufs st2 !! b = Some B1) as HB2.
    { subst st2. cbn [bufs]. erewrite lookup_updated by done. f_equal.
      replace (length B1 <=? offset B1) with true.
      - rewrite HL1, HB1eq. cbn. rewrite <- Ho. by destruct B.
      - symmetry. apply Z.leb_le. rewrite HL1, HB1eq. cbn. lia. }
    run_with HB2.
    replace (offset B1) with (crunch.ByteCapacity sb)
      by (rewrite HB1eq; cbn; lia).
    rewrite HL1, Z.sub_diag. change (wrap64 0) with 0.
    replace (len dst <? 0) with false
      by (symmetry; apply Z.ltb_ge; apply len_nonneg).
    change (0 =? 0) with true. cbv iota. by eexists.
Qed.

(** C4 (the code falls short of it): on a buffer that is not closed,
    [Seek(0, end)] moves the cursor to the logical end, and a [Read] there,
    whatever the destination, returns zero bytes with a nil error and leaves
    [dst] alone: a plain zero-byte success, where the claim asks for the
    end-of-data condition [io.EOF]. *)
Theorem C4_seek_end_read
    (st : state) (b r : addr) (R B : Buffer) (s : addr) (sb : crunch.Buffer)
    (dst : list byte) :
  attached st b r R s sb → closed R = false → bufs st !! b = Some B →
  crunch.ByteCapacity sb ≤ max_int64 →
  ∃ st1 st2,
    Seek b 0 SeekEnd st = Ok ((crunch.ByteCapacity sb, None), st1) ∧
    Read b dst st1 = Ok ((dst, 0, None), st2).
Proof.
  intros Hatt Hopen HB Hcap.
  assert (0 ≤ crunch.ByteCapacity sb) as HL0 by apply len_nonneg.
  destruct (Seek_attached st b r R s sb B 0 SeekEnd Hatt Hopen HB)
    as (st1 & B1 & R1 & sb1 & Hseek & HB1 & HB1eq & Hatt1 & Hopen1 & Hbuf1 & _).
  assert (seek_target (with_length (crunch.ByteCapacity sb) B) 0 SeekEnd
          = crunch.ByteCapacity sb) as Htgt.
  { unfold seek_target. cbn. rewrite Z.sub_0_r.
    apply wrap64_small. unfold max_int64 in *. lia. }
  rewrite Htgt in Hseek, HB1eq.
  assert (crunch.ByteCapacity sb1 = crunch.ByteCapacity sb) as Hcap1
    by (unfold crunch.ByteCapacity; by rewrite Hbuf1).
  destruct (Read_at_end st1 b r R1 s sb1 B1 dst Hatt1 Hopen1 HB1)
    as (st2 & Hread); [by rewrite HB1eq, Hcap1 | by rewrite Hcap1 |].
  by exists st1, st2.
Qed.

(** A run of C4 through a reference to a root of two bytes. *)
Lemma C4_seek_end_read_witness :
  ∃ st1 st2,
    Seek 1%nat 0 SeekEnd
      (mkState [mkBuffer (Some 0%nat) None 2 0 false "r";
                mkBuffer None (Some 0%nat) 0 0 false ""]
         [crunch.mk AB 0])
    = Ok ((2, None), st1) ∧
    Read 1%nat [x00] st1 = Ok (([x00], 0, None), st2).
Proof.
  apply (C4_seek_end_read
           (mkState [mkBuffer (Some 0%nat) None 2 0 false "r";
                     mkBuffer None (Some 0%nat) 0 0 false ""]
              [crunch.mk AB 0])
           1%nat 0%nat (mkBuffer (Some 0%nat) None 2 0 false "r")
           (mkBuffer None (Some 0%nat) 0 0 false "") 0%nat (crunch.mk AB 0)).
  - split; [|by repeat split].
    eapply resolves_ref; [reflexivity | reflexivity | lia |].
    by eapply resolves_root.
  - reflexivity.
  - reflexivity.
  - vm_compute; discriminate.
Defined.

(** The same from the constructors: after [Seek(0, end)] a [Read] into one
    byte, on a root and on a reference alike, returns 0 and a nil error. *)
Lemma Seek_end_Read_runs :
  (∃ st,
     (do r <- NewBuffer "r" [AB];
      exec Seek r 0 SeekEnd;
      Read r [x00]) empty_state
     = Ok (([x00], 0, None), st)) ∧
  (∃ st,
     (do r <- NewBuffer "r" [AB];
      do c <- Reference r;
      exec Seek c 0 SeekEnd;
      Read c [x00]) empty_state
     = Ok (([x00], 0, None), st)).
Proof. split; eexists; vm_compute; reflexivity. Qed.

(** ** Seeking *)

(** C5 (the code falls short of it): on a buffer that is not closed, a
    [whence] outside start, current and end meets no case of the [switch],
    which has no [default]: [Seek] returns the unchanged offset and a nil
    error, where the claim asks for an invalid-seek-mode error. *)
Theorem C5_seek_unknown_whence
    (st : state) (b r : addr) (R B : Buffer) (s : addr) (sb : crunch.Buffer)
    (to whence : Z) :
  attached st b r R s sb → closed R = false → bufs st !! b = Some B →
  whence ≠ SeekStart → whence ≠ SeekCurrent → whence ≠ SeekEnd →
  ∃ st' B',
    Seek b to whence st = Ok ((offset B, None), st') ∧
    bufs st' !! b = Some B' ∧ offset B' = offset B.
Proof.
  intros Hatt Hopen HB Hstart Hcurrent Hend.
  destruct (Seek_attached st b r R s sb B to whence Hatt Hopen HB)
    as (st' & B' & _ & _ & Hseek & HB' & HB'eq & _).
  assert (seek_target (with_length (crunch.ByteCapacity sb) B) to whence
          = offset B) as Htgt.
  { unfold seek_target.
    destruct (Z.eqb_spec whence SeekStart); [done|].
    destruct (Z.eqb_spec whence SeekCurrent); [done|].
    by destruct (Z.eqb_spec whence SeekEnd). }
  rewrite Htgt in Hseek, HB'eq.
  exists st', B'. split; [done|]. split; [done|]. by rewrite HB'eq.
Qed.

(** A run of C5: [Seek(5, 3)] on a root of two bytes with its cursor at 1. *)
Lemma C5_seek_unknown_whence_witness :
  ∃ st' B',
    Seek 0%nat 5 3
      (mkState [mkBuffer (Some 0%nat) None 2 1 false "r"] [crunch.mk AB 0])
    = Ok ((1, None), st') ∧
    bufs st' !! 0%nat = Some B' ∧ offset B' = 1.
Proof.
  apply (C5_seek_unknown_whence
           (mkState [mkBuffer (Some 0%nat) None 2 1 false "r"]
              [crunch.mk AB 0])
           0%nat 0%nat (mkBuffer (Some 0%nat) None 2 1 false "r")
           (mkBuffer (Some 0%nat) None 2 1 false "r") 0%nat (crunch.mk AB 0)
           5 3);
    [apply is_root_attached; unfold is_root; cbn; repeat split; reflexivity
    | reflexivity | reflexivity | discriminate..].
Defined.

(** C10: [Seek] checks no bound.  On a buffer that is not closed, for every
    [to], [Seek(to, start)] returns [to] and a nil error and the offset is
    [to]; [Seek(to, current)] does so with [offset + to] and [Seek(to, end)]
    with [length - to], both in [int64] arithmetic, wherever that lands. *)
Theorem C10_seek_no_bounds
    (st : state) (b r : addr) (R B : Buffer) (s : addr) (sb : crunch.Buffer)
    (to : Z) :
  attached st b r R s sb → closed R = false → bufs st !! b = Some B →
  (∃ st' B',
     Seek b to SeekStart st = Ok ((to, None), st') ∧
     bufs st' !! b = Some B' ∧ offset B' = to) ∧
  (∃ st' B',
     Seek b to SeekCurrent st = Ok ((wrap64 (offset B + to), None), st') ∧
     bufs st' !! b = Some B' ∧ offset B' = wrap64 (offset B + to)) ∧
  (∃ st' B',
     Seek b to SeekEnd st
     = Ok ((wrap64 (crunch.ByteCapacity sb - to), None), st') ∧
     bufs st' !! b = Some B' ∧
     offset B' = wrap64 (crunch.ByteCapacity sb - to)).
Proof.
  intros Hatt Hopen HB.
  split; [|split].
  - destruct (Seek_attached st b r R s sb B to SeekStart Hatt Hopen HB)
      as (st' & B' & _ & _ & Hseek & HB' & HB'eq & _).
    exists st', B'. split; [exact Hseek|]. split; [done|]. by rewrite HB'eq.
  - destruct (Seek_attached st b r R s sb B to SeekCurrent Hatt Hopen HB)
      as (st' & B' & _ & _ & Hseek & HB' & HB'eq & _).
    exists st', B'. split; [exact Hseek|]. split; [done|]. by rewrite HB'eq.
  - destruct (Seek_attached st b r R s sb B to SeekEnd Hatt Hopen HB)
      as (st' & B' & _ & _ & Hseek & HB' & HB'eq & _).
    exists st', B'. split; [exact Hseek|]. split; [done|]. by rewrite HB'eq.
Qed.

(** A run of C10: seeking to -7 and far past the end of a two-byte root. *)
Lemma C10_seek_no_bounds_witness :
  (∃ st' B',
     Seek 0%nat (-7) SeekStart
       (mkState [mkBuffer (Some 0%nat) None 2 1 false "r"] [crunch.mk AB 0])
     = Ok ((-7, None), st') ∧
     bufs st' !! 0%nat = Some B' ∧ offset B' = -7) ∧
  (∃ st' B',
     Seek 0%nat (-7) SeekCurrent
       (mkState [mkBuffer (Some 0%nat) None 2 1 false "r"] [crunch.mk AB 0])
     = Ok ((-6, None), st') ∧
     bufs st' !! 0%nat = Some B' ∧ offset B' = -6) ∧
  (∃ st' B',
     Seek 0%nat (-7) SeekEnd
       (mkState [mkBuffer (Some 0%nat) None 2 1 false "r"] [crunch.mk AB 0])
     = Ok ((9, None), st') ∧
     bufs st' !! 0%nat = Some B' ∧ offset B' = 9).
Proof.
  apply (C10_seek_no_bounds
           (mkState [mkBuffer (Some 0%nat) None 2 1 false "r"]
              [crunch.mk AB 0])
           0%nat 0%nat (mkBuffer (Some 0%nat) None 2 1 false "r")
           (mkBuffer (Some 0%nat) None 2 1 false "r") 0%nat (crunch.mk AB 0)
           (-7));
    [apply is_root_attached; unfold is_root; cbn; repeat split; reflexivity
    | reflexivity | reflexivity].
Defined.

(** ** Closing *)

Lemma Close_rec_S fuel b :
  Close_rec (S fuel) b =
  (do B <- deref "CLOSE" b;
   exec modify b (with_closed true);
   match parent B with
   | Some p => Close_rec fuel p
   | None => ret None
   end).
Proof. reflexivity. Qed.

Lemma evolves_trans rel st st1 st2 :
  (∀ A B C, rel A B → rel B C → rel A C) →
  evolves rel st st1 → evolves rel st1 st2 → evolves rel st st2.
Proof.
  intros Htrans H1 H2. unfold evolves in *.
  apply Forall2_same_length_lookup_2.
  - rewrite (Forall2_length _ _ _ H1). by apply (Forall2_length _ _ _ H2).
  - intros i A C HA HC.
    destruct (Forall2_lookup_l _ _ _ _ _ H1 HA) as (B & HB & HAB).
    destruct (Forall2_lookup_l _ _ _ _ _ H2 HB) as (C' & HC' & HBC).
    assert (C' = C) as -> by congruence. by eapply Htrans.
Qed.

Lemma closing_trans A B C : closing A B → closing B C → closing A C.
Proof.
  intros [-> | ->] [-> | ->]; unfold closing; auto.
Qed.

(** [Close] returns nil, sets [closed] on the way up and on the root, and
    touches nothing else. *)
Lemma Close_rec_resolves fuel :
  ∀ st b r,
    resolves st b r → (b < fuel)%nat →
    ∃ st' R',
      Close_rec fuel b st = Ok (None, st') ∧
      stores st' = stores st ∧ evolves closing st st' ∧
      bufs st' !! r = Some R' ∧ closed R' = true.
Proof.
  induction fuel as [|fuel IH]; intros st b r Hres Hfuel; [lia|].
  rewrite Close_rec_S.
  destruct Hres as [b B HB HP | b B p r HB HP Hlt Hres].
  - run_with HB. run_with HB. rewrite HP. unfold ret.
    eexists _, _. split; [reflexivity|]. split; [done|]. split; [|split].
    + eapply (evolves_update _ st st); [|done|].
      * apply evolves_refl. intros A. by left.
      * intros A HA. assert (A = B) as -> by congruence. by right.
    + cbn [bufs]. by eapply lookup_updated.
    + done.
  - run_with HB. run_with HB. rewrite HP.
    remember (mkState _ _) as st1 eqn:Est1.
    assert (evolves closing st st1) as Hev1.
    { subst st1. eapply (evolves_update _ st st); [|done|].
      - apply evolves_refl. intros A. by left.
      - intros A HA. assert (A = B) as -> by congruence. by right. }
    assert (resolves st1 p r) as Hres1
      by (eapply resolves_evolves; [apply closing_links | done..]).
    destruct (IH st1 p r Hres1) as (st' & R' & Hrun & Hst & Hev & HR' & Hcl);
      [lia|].
    exists st', R'. split; [done|]. split; [by subst st1|].
    split; [|done]. eapply evolves_trans; [apply closing_trans | done..].
Qed.

Lemma Close_resolves st b r :
  resolves st b r →
  ∃ st' R',
    Close b st = Ok (None, st') ∧
    stores st' = stores st ∧ evolves closing st st' ∧
    bufs st' !! r = Some R' ∧ closed R' = true.
Proof.
  intros Hres. unfold Close, depth, bind.
  apply Close_rec_resolves; [done|].
  destruct (resolves_valid _ _ _ Hres) as [B HB].
  apply lookup_lt_Some in HB. lia.
Qed.

(** On a closed buffer the five guarded calls return at once. *)
Lemma closed_calls st x X :
  bufs st !! x = Some X → Closed x st = Ok (true, st) →
  ∀ (dst src : list byte) (o to whence : Z),
    Read x dst st = Ok ((dst, 0, Some EOF), st) ∧
    ReadOffset x dst o st = Ok ((dst, 0, Some EOF), st) ∧
    Write x src st = Ok ((0, Some EOF), st) ∧
    WriteOffset x src o st = Ok ((0, Some EOF), st) ∧
    Seek x to whence st = Ok ((0, Some EOF), st).
Proof.
  intros HX Hclosed dst src o to whence.
  unfold Read, ReadOffset, Write, WriteOffset, Seek.
  repeat split; run_with HX; by run_with Hclosed.
Qed.

(** C6, as amended: after [Close] on any buffer of a chain, [Closed] is
    true for the root and for every buffer that resolves to it, and every
    later [Read], [ReadOffset], [Write], [WriteOffset] and [Seek] on any of
    them returns 0 with [io.EOF] and leaves the heap as it was. *)
Theorem C6_close_cascades (st : state) (b r x : addr) :
  resolves st b r → resolves st x r →
  ∃ st',
    Close b st = Ok (None, st') ∧
    Closed r st' = Ok (true, st') ∧
    Closed x st' = Ok (true, st') ∧
    ∀ (dst src : list byte) (o to whence : Z),
      Read x dst st' = Ok ((dst, 0, Some EOF), st') ∧
      ReadOffset x dst o st' = Ok ((dst, 0, Some EOF), st') ∧
      Write x src st' = Ok ((0, Some EOF), st') ∧
      WriteOffset x src o st' = Ok ((0, Some EOF), st') ∧
      Seek x to whence st' = Ok ((0, Some EOF), st').
Proof.
  intros Hb Hx.
  destruct (Close_resolves _ _ _ Hb) as (st' & R' & Hclose & _ & Hev & HR' & Hcl).
  assert (resolves st' x r) as Hx'
    by (eapply resolves_evolves; [apply closing_links | done..]).
  assert (resolves st' r r) as Hr'.
  { destruct (resolves_is_root _ _ _ Hx') as (R'' & HR'' & HP'').
    by eapply resolves_root. }
  assert (Closed x st' = Ok (true, st')) as Hclosed
    by (rewrite (Closed_resolves _ _ _ _ Hx' HR'); by rewrite Hcl).
  exists st'. split; [done|]. split; [|split; [done|]].
  - rewrite (Closed_resolves _ _ _ _ Hr' HR'). by rewrite Hcl.
  - destruct (resolves_valid _ _ _ Hx') as [X HX].
    by apply (closed_calls _ _ X).
Qed.

(** A run of C6: closing a reference of a reference closes the root and a
    sibling reference. *)
Lemma C6_close_cascades_witness :
  ∃ st',
    Close 2%nat
      (mkState [mkBuffer (Some 0%nat) None 2 0 false "r";
                mkBuffer None (Some 0%nat) 0 0 false "";
                mkBuffer None (Some 1%nat) 0 0 false "";
                mkBuffer None (Some 0%nat) 0 0 false ""]
         [crunch.mk AB 0])
    = Ok (None, st') ∧
    Closed 0%nat st' = Ok (true, st') ∧
    Closed 3%nat st' = Ok (true, st') ∧
    ∀ (dst src : list byte) (o to whence : Z),
      Read 3%nat dst st' = Ok ((dst, 0, Some EOF), st') ∧
      ReadOffset 3%nat dst o st' = Ok ((dst, 0, Some EOF), st') ∧
      Write 3%nat src st' = Ok ((0, Some EOF), st') ∧
      WriteOffset 3%nat src o st' = Ok ((0, Some EOF), st') ∧
      Seek 3%nat to whence st' = Ok ((0, Some EOF), st').
Proof.
  apply (C6_close_cascades
           (mkState [mkBuffer (Some 0%nat) None 2 0 false "r";
                     mkBuffer None (Some 0%nat) 0 0 false "";
                     mkBuffer None (Some 1%nat) 0 0 false "";
                     mkBuffer None (Some 0%nat) 0 0 false ""]
              [crunch.mk AB 0])
           2%nat 0%nat 3%nat).
  - eapply resolves_ref; [reflexivity | reflexivity | lia |].
    eapply resolves_ref; [reflexivity | reflexivity | lia |].
    by eapply resolves_root.
  - eapply resolves_ref; [reflexivity | reflexivity | lia |].
    by eapply resolves_root.
Defined.

(** C6 as stated fails: [Reset], [Bytes] and [Closed] take no notice of the
    flag.  On a closed root [Bytes] and [Closed] still answer, and [Reset]
    returns and empties the store. *)
Lemma C6_counterexample :
  ∃ st,
    (do r <- NewBuffer "r" [AB];
     exec Close r;
     do before <- Bytes r;
     exec Reset r;
     do after <- Bytes r;
     do c <- Closed r;
     ret (before, after, c)) empty_state
    = Ok ((AB, [], true), st).
Proof. eexists. vm_compute. reflexivity. Qed.

(** ** [Copy] *)

(** A buffer without a store of its own cannot be copied: [b.buffer.Bytes()]
    dereferences nil. *)
Lemma Copy_without_store st b B :
  bufs st !! b = Some B → buffer B = None → Copy b st = Panic NilDereference.
Proof.
  intros HB Hnil. unfold Copy. run_with HB.
  unfold alloc at 1. unfold bind at 1. unfold bind at 1.
  by rewrite Hnil.
Qed.

(** On a root [Copy] allocates a new root, with a new store that starts
    with the bytes of the receiver's store and the receiver's [length]. *)
Lemma Copy_root st r R s sb :
  is_root st r R s sb →
  Copy r st =
  Ok (List.length (bufs st),
      mkState
        (bufs st ++ [mkBuffer (Some (List.length (stores st))) None
                       (length R) 0 false ""])
        (stores st ++ [crunch.mk (crunch.buf sb) 0])).
Proof.
  intros (HR & HP & Hs & Hsb). unfold Copy. run_with HR.
  unfold alloc at 1. unfold bind at 1. rewrite Hs.
  assert (stores (mkState (bufs st ++ [zero_Buffer]) (stores st)) !! s
          = Some sb) as Hsb1 by done.
  run_with Hsb1.
  unfold alloc_store, bind, modify, ret. cbn [bufs stores].
  repeat (rewrite ?lookup_snoc, ?insert_snoc; cbn [bufs stores]).
  unfold crunch.NewBuffer, crunch.Bytes. cbn [concat].
  by rewrite app_nil_r.
Qed.

(** C7 (the code falls short of it): [Copy] reads the receiver's own
    [buffer] field, not the store that [Buffer()] resolves, so on every
    reference, whose [buffer] is nil, it panics where the claim asks for a
    new root holding a copy of the shared bytes. *)
Theorem C7_copy_of_reference (st : state) (b : addr) (B : Buffer) :
  bufs st !! b = Some B →
  ∃ c st1 C,
    Reference b st = Ok (c, st1) ∧
    bufs st1 !! c = Some C ∧ parent C = Some b ∧
    Copy c st1 = Panic NilDereference.
Proof.
  intros HB. rewrite (Reference_spec _ _ _ HB).
  eexists _, _, _. split; [reflexivity|]. cbn [bufs].
  split; [apply lookup_snoc|]. split; [done|].
  eapply Copy_without_store; [apply lookup_snoc | done].
Qed.

(** A run of C7 on a reference to a root that holds "AB". *)
Lemma C7_copy_of_reference_witness :
  ∃ c st1 C,
    Reference 0%nat
      (mkState [mkBuffer (Some 0%nat) None 2 0 false "r"] [crunch.mk AB 0])
    = Ok (c, st1) ∧
    bufs st1 !! c = Some C ∧ parent C = Some 0%nat ∧
    Copy c st1 = Panic NilDereference.
Proof.
  apply (C7_copy_of_reference
           (mkState [mkBuffer (Some 0%nat) None 2 0 false "r"]
              [crunch.mk AB 0])
           0%nat (mkBuffer (Some 0%nat) None 2 0 false "r")).
  reflexivity.
Defined.

(** ** The encoder *)

(** C8 (the code falls short of it): the case [[]byte, string] asserts
    [data.([]byte)], so [WriteAbstract] panics on every string, "AB"
    included, before anything is written.  With the same text as a byte
    slice the scenario gives the four bytes 41 42 01 00. *)
Theorem C8_write_abstract_string :
  (∀ st b v, WriteAbstract b (any_string v) st = Panic InterfaceConversion) ∧
  (do r <- NewBuffer "r" [];
   WriteAbstract r (any_string "AB")) empty_state
  = Panic InterfaceConversion ∧
  ∃ st,
    (do r <- NewBuffer "r" [];
     do w1 <- WriteAbstract r (any_byte_slice AB);
     do w2 <- WriteAbstract r (any_num uint16 1);
     do bytes <- Bytes r;
     ret (w1, w2, bytes)) empty_state
    = Ok ((2, None, (2, None), [x41; x42; x01; x00]), st).
Proof.
  split; [reflexivity|]. split; [reflexivity|].
  eexists. vm_compute. reflexivity.
Qed.

(** C9 (the code falls short of it): the case [byte, bool, int, uint]
    asserts [data.(byte)], so [WriteAbstract] panics on every [bool], [int]
    and [uint], whatever the buffer; only a [byte] is written as one byte. *)
Theorem C9_write_abstract_scalar :
  (∀ st b v, WriteAbstract b (any_bool v) st = Panic InterfaceConversion) ∧
  (∀ st b v, WriteAbstract b (any_int v) st = Panic InterfaceConversion) ∧
  (∀ st b v, WriteAbstract b (any_uint v) st = Panic InterfaceConversion) ∧
  ∃ st,
    (do r <- NewBuffer "r" [];
     do w <- WriteAbstract r (any_byte x41);
     do bytes <- Bytes r;
     ret (w, bytes)) empty_state
    = Ok ((1, None, [x41]), st).
Proof.
  split; [reflexivity|]. split; [reflexivity|]. split; [reflexivity|].
  eexists. vm_compute. reflexivity.
Qed.

(** ** Writing through any buffer of a chain *)

Lemma refreshed_offset A A' : refreshed A A' → offset A' = offset A.
Proof. by intros ->. Qed.

Lemma moved_trans A B C : moved A B → moved B C → moved A C.
Proof. intros -> ->. by destruct A. Qed.

(** [WriteOffset] on any buffer of a chain writes into the store of the
    root and moves no cursor. *)
Lemma WriteOffset_attached st b r R s sb src o :
  attached st b r R s sb → closed R = false →
  0 ≤ o → o + len src ≤ max_int64 →
  crunch.ByteCapacity sb ≤ max_int64 →
  ∃ st',
    WriteOffset b src o st = Ok ((len src, None), st') ∧
    stores st' = <[s := written o src sb]> (stores st) ∧
    evolves refreshed st st'.
Proof.
  intros Hatt Hopen Ho Hfit Hcap.
  pose proof Hatt as (Hres & HR & HPR & Hs & Hsb).
  destruct (resolves_valid _ _ _ Hres) as [B HB].
  destruct (Buffer_attached _ _ _ _ _ _ Hatt)
    as (st1 & B1 & Hrun & Hst1 & Hev1 & HB1 & HL1).
  assert (stores st1 !! s = Some sb) as Hsb1 by by rewrite Hst1.
  unfold WriteOffset. run_with HB.
  run_with (Closed_resolves _ _ _ _ Hres HR). rewrite Hopen.
  run_with Hrun.
  run_with (write_range_spec _ b B1 s sb src o HB1 Hsb1 HL1 Ho Hfit Hcap).
  unfold ret. eexists. split; [reflexivity|]. cbn [bufs stores].
  split; [by rewrite Hst1|].
  eapply (evolves_update _ st st1); [done | done |].
  intros A HA. assert (A = B) as -> by congruence.
  destruct (evolves_lookup _ _ _ _ _ Hev1 HB) as (B1' & HB1' & Href).
  assert (B1' = B1) as -> by congruence.
  rewrite Href. by destruct B.
Qed.

(** [Write] on any buffer of a chain writes into the store of the root, at
    the buffer's own offset, and moves that offset only. *)
Lemma Write_attached st b r R B s sb src :
  attached st b r R s sb → closed R = false → bufs st !! b = Some B →
  0 ≤ offset B → offset B + len src ≤ max_int64 →
  crunch.ByteCapacity sb ≤ max_int64 →
  ∃ st' B',
    Write b src st = Ok ((len src, None), st') ∧
    stores st' = <[s := written (offset B) src sb]> (stores st) ∧
    bufs st' !! b = Some B' ∧ offset B' = offset B + len src ∧
    evolves moved st st' ∧
    ∀ a A A', a ≠ b → bufs st !! a = Some A → bufs st' !! a = Some A' →
              offset A' = offset A.
Proof.
  intros Hatt Hopen HB Ho Hfit Hcap.
  pose proof Hatt as (Hres & HR & HPR & Hs & Hsb).
  pose proof (len_nonneg src) as Hn.
  destruct (parent B) as [p|] eqn:HP.
  - (* a reference delegates to its parent *)
    pose proof (attached_parent _ _ _ _ _ _ _ _ Hatt HB HP) as Hattp.
    destruct (WriteOffset_attached _ _ _ _ _ _ src (offset B)
                Hattp Hopen Ho Hfit Hcap) as (st1 & Hwo & Hst1 & Hev1).
    destruct (evolves_lookup _ _ _ _ _ Hev1 HB) as (B1 & HB1 & Href).
    unfold Write. run_with HB.
    run_with (Closed_resolves _ _ _ _ Hres HR). rewrite Hopen, HP.
    run_with Hwo. cbv iota beta. run_with HB1. unfold ret.
    rewrite (refreshed_offset _ _ Href).
    rewrite wrap64_small by (unfold max_int64 in *; lia).
    eexists _, _. split; [reflexivity|]. cbn [bufs stores].
    split; [done|]. split; [by eapply lookup_updated|]. split; [done|].
    split.
    + eapply (evolves_update _ st st1);
        [eapply evolves_weaken; [apply refreshed_moved | done] | done |].
      intros A HA. assert (A = B) as -> by congruence.
      rewrite Href. by destruct B.
    + intros a A A' Hne HA HA'.
      rewrite list_lookup_insert_ne in HA' by done.
      destruct (evolves_lookup _ _ _ _ _ Hev1 HA) as (A1 & HA1 & HrefA).
      assert (A1 = A') as -> by congruence.
      by apply refreshed_offset.
  - (* a root writes on its own store *)
    assert (r = b) as -> by by eapply resolves_root_inv.
    assert (B = R) as -> by congruence.
    pose proof (attached_is_root _ _ _ _ _ _ Hatt) as Hroot.
    rewrite (Write_root _ _ _ _ _ src Hroot Hopen Ho Hfit Hcap).
    eexists _, _. split; [reflexivity|]. cbn [bufs stores].
    split; [done|]. split; [by eapply lookup_updated|]. split; [done|].
    split.
    + eapply (evolves_update _ st st); [|done|].
      * apply evolves_refl. intros A. by destruct A.
      * intros A HA. assert (A = R) as -> by congruence. by destruct R.
    + intros a A A' Hne HA HA'.
      rewrite list_lookup_insert_ne in HA' by done. congruence.
Qed.


(** X1: [Write] through any buffer of a chain, root or reference at any
    depth, that is not closed, whose own offset [o] is not negative and with
    [o + len(src)] an [int64], the store being no longer than an [int64]
    counts: the call returns [len(src)] and nil; of the stores only the one
    of the root changes: it is as long as the larger of its old length and
    [o + len(src)], it holds [src] at [o], and every byte it had outside
    the range written is where it was; the buffer's own offset advances by
    [len(src)], and no other buffer's offset, flag or parent changes. *)
Theorem X1_write_through_chain
    (st : state) (b r : addr) (R B : Buffer) (s : addr) (sb : crunch.Buffer)
    (src : list byte) :
  attached st b r R s sb → closed R = false → bufs st !! b = Some B →
  0 ≤ offset B → offset B + len src ≤ max_int64 →
  crunch.ByteCapacity sb ≤ max_int64 →
  ∃ st' B' sb',
    Write b src st = Ok ((len src, None), st') ∧
    stores st' = <[s := sb']> (stores st) ∧
    crunch.ByteCapacity sb'
    = Z.max (crunch.ByteCapacity sb) (offset B + len src) ∧
    take (List.length src) (drop (Z.to_nat (offset B)) (crunch.buf sb')) = src ∧
    (∀ i : nat,
       (i < List.length (crunch.buf sb))%nat →
       (i < Z.to_nat (offset B) ∨ Z.to_nat (offset B + len src) ≤ i)%nat →
       crunch.buf sb' !! i = crunch.buf sb !! i) ∧
    bufs st' !! b = Some B' ∧ offset B' = offset B + len src ∧
    evolves moved st st' ∧
    ∀ a A A', a ≠ b → bufs st !! a = Some A → bufs st' !! a = Some A' →
              offset A' = offset A.
Proof.
  intros Hatt Hopen HB Ho Hfit Hcap.
  destruct (Write_attached _ _ _ _ _ _ _ src Hatt Hopen HB Ho Hfit Hcap)
    as (st' & B' & Hw & Hst & HB' & Ho' & Hev & Hothers).
  exists st', B', (written (offset B) src sb).
  split; [exact Hw|]. split; [exact Hst|].
  split; [by apply written_capacity|]. split; [by apply written_read|].
  split; [intros i Hi Hout; by apply written_kept|].
  split; [exact HB'|]. split; [exact Ho'|]. split; [exact Hev | exact Hothers].
Qed.

(** A run of X1 through a reference of a reference, two levels below the
    root. *)
Lemma X1_write_through_chain_witness :
  ∃ st' B' sb',
    Write 2%nat AB
      (mkState [mkBuffer (Some 0%nat) None 1 0 false "r";
                mkBuffer None (Some 0%nat) 0 0 false "";
                mkBuffer None (Some 1%nat) 0 1 false ""]
         [crunch.mk [x07] 0])
    = Ok ((2, None), st') ∧
    stores st' = [sb'] ∧ crunch.ByteCapacity sb' = 3 ∧
    take 2 (drop 1 (crunch.buf sb')) = AB ∧
    crunch.buf sb' !! 0%nat = Some x07 ∧
    bufs st' !! 2%nat = Some B' ∧ offset B' = 3.
Proof.
  destruct (X1_write_through_chain
              (mkState [mkBuffer (Some 0%nat) None 1 0 false "r";
                        mkBuffer None (Some 0%nat) 0 0 false "";
                        mkBuffer None (Some 1%nat) 0 1 false ""]
                 [crunch.mk [x07] 0])
              2%nat 0%nat (mkBuffer (Some 0%nat) None 1 0 false "r")
              (mkBuffer None (Some 1%nat) 0 1 false "") 0%nat
              (crunch.mk [x07] 0) AB)
    as (st' & B' & sb' & Hw & Hst & Hcap & Hread & Hkept & HB' & Ho & _).
  - split; [|by repeat split].
    eapply resolves_ref; [reflexivity | reflexivity | lia |].
    eapply resolves_ref; [reflexivity | reflexivity | lia |].
    by eapply resolves_root.
  - reflexivity.
  - reflexivity.
  - vm_compute; discriminate.
  - vm_compute; discriminate.
  - vm_compute; discriminate.
  - exists st', B', sb'. split; [exact Hw|]. split; [exact Hst|].
    split; [exact Hcap|]. split; [exact Hread|].
    split; [apply (Hkept 0%nat); cbn; lia|].
    split; [exact HB' | exact Ho].
Defined.

(** ** Reading through any buffer of a chain *)

Lemma copy_short (dst src : list byte) :
  (List.length src ≤ List.length dst)%nat →
  copy dst src = (src ++ drop (List.length src) dst, len src).
Proof.
  intros Hle. unfold copy, len.
  rewrite Nat.min_r by done. by rewrite firstn_all.
Qed.

Lemma min_by_test (a b : Z) : (if a <? b then a else b) = Z.min a b.
Proof. destruct (Z.ltb_spec a b); lia. Qed.

Lemma filled_nothing dst stored o : filled dst stored o 0 = dst.
Proof. unfold filled. change (Z.to_nat 0) with 0%nat. by rewrite take_0. Qed.

(** The bytes that [ReadBytes] hands over, once copied, fill [dst]. *)
Lemma copy_filled dst stored o n :
  0 ≤ o → 0 ≤ n → n ≤ len dst → o + n ≤ len stored →
  copy dst (take (Z.to_nat n) (drop (Z.to_nat o) stored))
  = (filled dst stored o n, n).
Proof.
  intros Ho Hn Hdst Hfit. unfold len in *.
  assert (List.length (take (Z.to_nat n) (drop (Z.to_nat o) stored))
          = Z.to_nat n) as Hlen
    by (rewrite length_take, length_drop; lia).
  rewrite copy_short by (rewrite Hlen; lia).
  unfold filled, len. rewrite Hlen. f_equal. lia.
Qed.

(** [ReadOffset] on any buffer of a chain, at an offset inside the store:
    it copies what is available and moves no cursor. *)
Lemma ReadOffset_attached st b r R s sb dst o :
  attached st b r R s sb → closed R = false →
  0 ≤ o → o ≤ crunch.ByteCapacity sb →
  crunch.ByteCapacity sb ≤ max_int64 →
  ∃ st',
    ReadOffset b dst o st
    = Ok ((filled dst (crunch.buf sb) o
             (available (crunch.ByteCapacity sb) o dst),
           available (crunch.ByteCapacity sb) o dst, None), st') ∧
    stores st' = stores st ∧ evolves refreshed st st'.
Proof.
  intros Hatt Hopen Ho HoL Hcap. pose proof Hatt as (Hres & HR & _ & _ & Hsb).
  pose proof (len_nonneg dst) as Hn.
  destruct (resolves_valid _ _ _ Hres) as [B HB].
  destruct (Buffer_attached _ _ _ _ _ _ Hatt)
    as (st1 & B1 & Hrun & Hst1 & Hev1 & HB1 & HL1).
  assert (stores st1 !! s = Some sb) as Hsb1 by by rewrite Hst1.
  unfold ReadOffset. run_with HB.
  run_with (Closed_resolves _ _ _ _ Hres HR). rewrite Hopen.
  run_with Hrun. run_with HB1. rewrite HL1.
  rewrite wrap64_small by (unfold max_int64 in *; lia).
  rewrite min_by_test. fold (available (crunch.ByteCapacity sb) o dst).
  set (n := available (crunch.ByteCapacity sb) o dst).
  assert (0 ≤ n ∧ n ≤ len dst ∧ o + n ≤ crunch.ByteCapacity sb) as (Hn0 & Hnd & Hfit)
    by (unfold n, available; lia).
  destruct (Z.eqb_spec n 0) as [Hzero | Hsome].
  - rewrite Hzero, filled_nothing. by exists st1.
  - run_with Hsb1. rewrite ReadBytes_Ok by done.
    unfold lift at 1. unfold bind at 1.
    rewrite copy_filled by done. by exists st1.
Qed.

(** [Read] on a root, wherever its cursor stands at or after 0: a cursor
    past the end is first set to the end. *)
Lemma Read_root_any st r R s sb dst :
  is_root st r R s sb → closed R = false → 0 ≤ offset R →
  crunch.ByteCapacity sb ≤ max_int64 →
  let L := crunch.ByteCapacity sb in
  let o := Z.min (offset R) L in
  Read r dst st =
  Ok ((filled dst (crunch.buf sb) o (available L o dst),
       available L o dst, None),
      mkState
        (<[r := with_offset (o + available L o dst) (with_length L R)]>
           (bufs st))
        (stores st)).
Proof.
  intros Hroot Hopen Ho Hcap L o.
  pose proof Hroot as (HR & HP & Hs & Hsb).
  pose proof (len_nonneg dst) as Hn.
  assert (0 ≤ L) as HL0 by apply len_nonneg.
  unfold Read. run_with HR.
  run_with (Closed_root _ _ _ _ _ Hroot). rewrite Hopen, HP.
  run_with (Buffer_root _ _ _ _ _ Hroot). fold L.
  remember (mkState _ _) as st1 eqn:Est1.
  assert (bufs st1 !! r = Some (with_length L R)) as HR1
    by (subst st1; by eapply lookup_updated).
  run_with HR1. cbn [length offset with_length].
  assert ((if L <=? offset R
           then with_offset L (with_length L R) else with_length L R)
          = with_offset o (with_length L R)) as ->.
  { unfold o. destruct (Z.leb_spec L (offset R)).
    - by rewrite Z.min_r by lia.
    - rewrite Z.min_l by lia. by destruct R. }
  remember (mkState (<[r := _]> (bufs st1)) _) as st2 eqn:Est2.
  assert (stores st2 !! s = Some sb) as Hsb2 by (by subst st2 st1).
  assert (bufs st2 !! r = Some (with_offset o (with_length L R))) as HR2
    by (subst st2; by eapply lookup_updated).
  run_with HR2. cbn [length offset with_length with_offset].
  assert (0 ≤ o ≤ L) as Ho' by (unfold o; lia).
  rewrite wrap64_small by (unfold max_int64 in *; lia).
  rewrite min_by_test. fold (available L o dst).
  set (n := available L o dst).
  assert (0 ≤ n ∧ n ≤ len dst ∧ o + n ≤ L) as (Hn0 & Hnd & Hfit)
    by (unfold n, available; lia).
  destruct (Z.eqb_spec n 0) as [Hzero | Hsome].
  - rewrite Hzero, filled_nothing, Z.add_0_r. unfold ret.
    subst st2 st1. cbn [bufs stores]. by rewrite list_insert_insert_eq.
  - run_with Hsb2. rewrite ReadBytes_Ok by (fold L; lia).
    unfold lift at 1. unfold bind at 1.
    rewrite copy_filled by (try change (len (crunch.buf sb)) with L; lia).
    run_with HR2. unfold ret. cbn [offset with_offset with_length].
    rewrite wrap64_small by (unfold max_int64 in *; lia).
    subst st2 st1. cbn [bufs stores]. by rewrite !list_insert_insert_eq.
Qed.

(** X2: [Read] through any buffer of a chain that is not closed, with its
    cursor [o] at or after 0 (and, for a reference, not past the end).  It
    returns [n = min(len(dst), L - o')] bytes and a nil error, where [o'] is
    [o] for a cursor inside the store and [L] for the cursor of a root past
    the end; the [n] bytes at [o'] fill the head of [dst], whose tail is
    kept; the buffer's own offset becomes [o' + n]; the store and the
    offsets of the other buffers are as before. *)
Theorem X2_read_through_chain
    (st : state) (b r : addr) (R B : Buffer) (s : addr) (sb : crunch.Buffer)
    (dst : list byte) :
  attached st b r R s sb → closed R = false → bufs st !! b = Some B →
  0 ≤ offset B →
  (parent B = None ∨ offset B ≤ crunch.ByteCapacity sb) →
  crunch.ByteCapacity sb ≤ max_int64 →
  let L := crunch.ByteCapacity sb in
  let o := Z.min (offset B) L in
  ∃ st' B',
    Read b dst st
    = Ok ((filled dst (crunch.buf sb) o (available L o dst),
           available L o dst, None), st') ∧
    stores st' = stores st ∧
    bufs st' !! b = Some B' ∧ offset B' = o + available L o dst ∧
    evolves moved st st' ∧
    ∀ a A A', a ≠ b → bufs st !! a = Some A → bufs st' !! a = Some A' →
              offset A' = offset A.
Proof.
  intros Hatt Hopen HB Ho Hin Hcap L o.
  pose proof Hatt as (Hres & HR & HPR & Hs & Hsb).
  pose proof (len_nonneg dst) as Hn.
  assert (0 ≤ L) as HL0 by apply len_nonneg.
  destruct (parent B) as [p|] eqn:HP.
  - (* a reference reads through its parent *)
    destruct Hin as [? | HoL]; [done|].
    assert (o = offset B) as Hoeq by (unfold o; fold L in HoL; lia).
    rewrite Hoeq.
    pose proof (attached_parent _ _ _ _ _ _ _ _ Hatt HB HP) as Hattp.
    destruct (ReadOffset_attached _ _ _ _ _ _ dst (offset B)
                Hattp Hopen Ho HoL Hcap) as (st1 & Hro & Hst1 & Hev1).
    fold L in Hro.
    destruct (evolves_lookup _ _ _ _ _ Hev1 HB) as (B1 & HB1 & Href).
    unfold Read. run_with HB.
    run_with (Closed_resolves _ _ _ _ Hres HR). rewrite Hopen, HP.
    run_with Hro. cbv iota beta. run_with HB1. unfold ret.
    rewrite (refreshed_offset _ _ Href).
    assert (0 ≤ available L (offset B) dst ≤ L - offset B) as Hav
      by (unfold available; lia).
    rewrite wrap64_small by (unfold max_int64 in *; lia).
    eexists _, _. split; [reflexivity|]. cbn [bufs stores].
    split; [done|]. split; [by eapply lookup_updated|]. split; [done|].
    split.
    + eapply (evolves_update _ st st1);
        [eapply evolves_weaken; [apply refreshed_moved | done] | done |].
      intros A HA. assert (A = B) as -> by congruence.
      rewrite Href. by destruct B.
    + intros a A A' Hne HA HA'.
      rewrite list_lookup_insert_ne in HA' by done.
      destruct (evolves_lookup _ _ _ _ _ Hev1 HA) as (A1 & HA1 & HrefA).
      assert (A1 = A') as -> by congruence.
      by apply refreshed_offset.
  - (* a root reads from its own store *)
    assert (r = b) as -> by by eapply resolves_root_inv.
    assert (B = R) as -> by congruence.
    pose proof (attached_is_root _ _ _ _ _ _ Hatt) as Hroot.
    rewrite (Read_root_any _ _ _ _ _ dst Hroot Hopen Ho Hcap).
    fold L. fold o.
    eexists _, _. split; [reflexivity|]. cbn [bufs stores].
    split; [done|]. split; [by eapply lookup_updated|]. split; [done|].
    split.
    + eapply (evolves_update _ st st); [|done|].
      * apply evolves_refl. intros A. by destruct A.
      * intros A HA. assert (A = R) as -> by congruence. by destruct R.
    + intros a A A' Hne HA HA'.
      rewrite list_lookup_insert_ne in HA' by done. congruence.
Qed.

(** A run of X2: a reference at offset 1 of a three-byte store reads into
    four cells; two bytes arrive and the last two cells are kept. *)
Lemma X2_read_through_chain_witness :
  ∃ st' B',
    Read 1%nat [x00; x00; x09; x09]
      (mkState [mkBuffer (Some 0%nat) None 3 0 false "r";
                mkBuffer None (Some 0%nat) 0 1 false ""]
         [crunch.mk [x07; x41; x42] 0])
    = Ok (([x41; x42; x09; x09], 2, None), st') ∧
    bufs st' !! 1%nat = Some B' ∧ offset B' = 3.
Proof.
  destruct (X2_read_through_chain
              (mkState [mkBuffer (Some 0%nat) None 3 0 false "r";
                        mkBuffer None (Some 0%nat) 0 1 false ""]
                 [crunch.mk [x07; x41; x42] 0])
              1%nat 0%nat (mkBuffer (Some 0%nat) None 3 0 false "r")
              (mkBuffer None (Some 0%nat) 0 1 false "") 0%nat
              (crunch.mk [x07; x41; x42] 0) [x00; x00; x09; x09])
    as (st' & B' & Hr & _ & HB' & Ho & _).
  - split; [|by repeat split].
    eapply resolves_ref; [reflexivity | reflexivity | lia |].
    by eapply resolves_root.
  - reflexivity.
  - reflexivity.
  - vm_compute; discriminate.
  - right. vm_compute; discriminate.
  - vm_compute; discriminate.
  - exists st', B'. split; [exact Hr|]. split; [exact HB' | exact Ho].
Defined.

(** X3: a reference of a chain that is not closed, whose cursor stands
    past the end of the store, cannot read: [ReadOffset] on its parent
    computes a negative count, which is neither clipped to [len(dst)] nor
    0, and asks the store for it, which panics, and so does [Read] on the
    reference.  (The cursor is an [int64].  A root in the same position has
    its cursor set back to the end, X2; on a closed chain both calls return
    [io.EOF], C6.) *)
Theorem X3_read_past_end_panics
    (st : state) (b p r : addr) (R B : Buffer) (s : addr)
    (sb : crunch.Buffer) (dst : list byte) :
  attached st b r R s sb → closed R = false → bufs st !! b = Some B →
  parent B = Some p →
  crunch.ByteCapacity sb < offset B → offset B ≤ max_int64 →
  ReadOffset p dst (offset B) st = Panic OutOfRange ∧
  Read b dst st = Panic OutOfRange.
Proof.
  intros Hatt Hopen HB HP Hpast Ho.
  pose proof Hatt as (Hres & HR & _).
  pose proof (len_nonneg dst) as Hn.
  assert (0 ≤ crunch.ByteCapacity sb) as HL0 by apply len_nonneg.
  pose proof (attached_parent _ _ _ _ _ _ _ _ Hatt HB HP) as Hattp.
  assert (ReadOffset p dst (offset B) st = Panic OutOfRange) as Hro.
  { pose proof Hattp as (Hresp & _ & _ & _ & Hsb).
    destruct (resolves_valid _ _ _ Hresp) as [P HPb].
    destruct (Buffer_attached _ _ _ _ _ _ Hattp)
      as (st1 & P1 & Hrun & Hst1 & Hev1 & HP1 & HL1).
    assert (stores st1 !! s = Some sb) as Hsb1 by by rewrite Hst1.
    unfold ReadOffset. run_with HPb.
    run_with (Closed_resolves _ _ _ _ Hresp HR). rewrite Hopen.
    run_with Hrun. run_with HP1. rewrite HL1.
    rewrite wrap64_small by (unfold max_int64 in *; lia).
    rewrite min_by_test, Z.min_r by lia.
    destruct (Z.eqb_spec (crunch.ByteCapacity sb - offset B) 0); [lia|].
    run_with Hsb1. unfold crunch.ReadBytes, crunch.in_range.
    replace (0 <=? crunch.ByteCapacity sb - offset B) with false
      by (symmetry; apply Z.leb_gt; lia).
    by rewrite andb_false_r. }
  split; [done|].
  unfold Read. run_with HB.
  run_with (Closed_resolves _ _ _ _ Hres HR). rewrite Hopen, HP.
  unfold bind. by rewrite Hro.
Qed.

(** A run of X3: a reference moved to offset 5 of a two-byte store. *)
Lemma X3_read_past_end_panics_witness :
  Read 1%nat [x00]
    (mkState [mkBuffer (Some 0%nat) None 2 0 false "r";
              mkBuffer None (Some 0%nat) 2 5 false ""]
       [crunch.mk AB 0])
  = Panic OutOfRange.
Proof.
  apply (X3_read_past_end_panics
           (mkState [mkBuffer (Some 0%nat) None 2 0 false "r";
                     mkBuffer None (Some 0%nat) 2 5 false ""]
              [crunch.mk AB 0])
           1%nat 0%nat 0%nat (mkBuffer (Some 0%nat) None 2 0 false "r")
           (mkBuffer None (Some 0%nat) 2 5 false "") 0%nat (crunch.mk AB 0)).
  - split; [|by repeat split].
    eapply resolves_ref; [reflexivity | reflexivity | lia |].
    by eapply resolves_root.
  - reflexivity.
  - reflexivity.
  - reflexivity.
  - reflexivity.
  - vm_compute; discriminate.
Defined.

(** ** What a write leaves in the store *)

(** [Bytes] and [ByteCapacity] through any buffer of a chain. *)
Lemma Bytes_attached st b r R s sb :
  attached st b r R s sb →
  ∃ st',
    Bytes b st = Ok (crunch.buf sb, st') ∧
    stores st' = stores st ∧ evolves refreshed st st'.
Proof.
  intros Hatt. pose proof Hatt as (Hres & _ & _ & _ & Hsb).
  destruct (resolves_valid _ _ _ Hres) as [B HB].
  destruct (Buffer_attached _ _ _ _ _ _ Hatt)
    as (st1 & B1 & Hrun & Hst1 & Hev1 & HB1 & HL1).
  assert (stores st1 !! s = Some sb) as Hsb1 by by rewrite Hst1.
  unfold Bytes. run_with HB. run_with Hrun. run_with Hsb1.
  by exists st1.
Qed.

Lemma ByteCapacity_attached st b r R s sb :
  attached st b r R s sb →
  ∃ st',
    ByteCapacity b st = Ok (crunch.ByteCapacity sb, st') ∧
    stores st' = stores st ∧ evolves refreshed st st'.
Proof.
  intros Hatt. pose proof Hatt as (Hres & _).
  destruct (resolves_valid _ _ _ Hres) as [B HB].
  destruct (Buffer_attached _ _ _ _ _ _ Hatt)
    as (st1 & B1 & Hrun & Hst1 & Hev1 & HB1 & HL1).
  unfold ByteCapacity. run_with HB. run_with Hrun. run_with HB1.
  unfold ret. rewrite HL1. by exists st1.
Qed.

(** X4: what [Write] leaves in the store of a root that is not closed,
    for a cursor [o] at or after 0 with [o + len(src)] an [int64], the
    store being no longer than an [int64] counts.  [Bytes()] is then as
    long as the larger of the old length and [o + len(src)], which
    [ByteCapacity()] reports; it holds [src] at [o], and every byte that was
    stored outside the range written is where it was.  Nothing is said of
    the bytes of a gap between the old end and [o].  So a write that fits
    overwrites in place, and even an empty write grows the store when the
    cursor is past the end. *)
Theorem X4_write_store_contents
    (st : state) (r : addr) (R : Buffer) (s : addr) (sb : crunch.Buffer)
    (src : list byte) :
  is_root st r R s sb → closed R = false →
  0 ≤ offset R → offset R + len src ≤ max_int64 →
  crunch.ByteCapacity sb ≤ max_int64 →
  ∃ st' bytes st1 st2,
    Write r src st = Ok ((len src, None), st') ∧
    Bytes r st' = Ok (bytes, st1) ∧
    len bytes = Z.max (crunch.ByteCapacity sb) (offset R + len src) ∧
    take (List.length src) (drop (Z.to_nat (offset R)) bytes) = src ∧
    (∀ i : nat,
       (i < List.length (crunch.buf sb))%nat →
       (i < Z.to_nat (offset R) ∨ Z.to_nat (offset R + len src) ≤ i)%nat →
       bytes !! i = crunch.buf sb !! i) ∧
    ByteCapacity r st'
    = Ok (Z.max (crunch.ByteCapacity sb) (offset R + len src), st2).
Proof.
  intros Hroot Hopen Ho Hfit Hcap.
  pose proof (Write_root _ _ _ _ _ src Hroot Hopen Ho Hfit Hcap) as Hw.
  pose proof (Write_root_is_root _ _ _ _ _ src _ _ Hroot Hopen Ho Hfit Hcap Hw)
    as Hroot'.
  apply is_root_attached in Hroot'.
  destruct (Bytes_attached _ _ _ _ _ _ Hroot') as (st1 & Hbytes & _).
  destruct (ByteCapacity_attached _ _ _ _ _ _ Hroot') as (st2 & Hsize & _).
  rewrite written_capacity in Hsize by done.
  eexists _, _, st1, st2. split; [exact Hw|]. split; [exact Hbytes|].
  split; [exact (written_capacity _ src sb Ho)|].
  split; [by apply written_read|].
  split; [intros i Hi Hout; by apply written_kept | exact Hsize].
Qed.

(** A run of X4: an empty write with the cursor at 3 of a one-byte root. *)
Lemma X4_write_store_contents_witness :
  ∃ st' bytes st1 st2,
    Write 0%nat []
      (mkState [mkBuffer (Some 0%nat) None 1 3 false "r"] [crunch.mk [x07] 0])
    = Ok ((0, None), st') ∧
    Bytes 0%nat st' = Ok (bytes, st1) ∧
    len bytes = 3 ∧ bytes !! 0%nat = Some x07 ∧
    ByteCapacity 0%nat st' = Ok (3, st2).
Proof.
  destruct (X4_write_store_contents
              (mkState [mkBuffer (Some 0%nat) None 1 3 false "r"]
                 [crunch.mk [x07] 0])
              0%nat (mkBuffer (Some 0%nat) None 1 3 false "r") 0%nat
              (crunch.mk [x07] 0) [])
    as (st' & bytes & st1 & st2 & Hw & Hbytes & Hlen & _ & Hkept & Hcap);
    [unfold is_root; cbn; repeat split; reflexivity | reflexivity
    | vm_compute; discriminate | vm_compute; discriminate
    | vm_compute; discriminate |].
  exists st', bytes, st1, st2. split; [exact Hw|]. split; [exact Hbytes|].
  split; [exact Hlen|]. split; [apply (Hkept 0%nat); cbn; lia | exact Hcap].
Defined.

(** X5: the round trip at any offset.  On a root that is not closed, with
    its cursor [o] at or after 0 and [o + len(src)] an [int64] (the store
    being no longer than an [int64] counts), a [Write] of [src], then
    [Seek(-len(src), current)], which reports [o], then a [Read] into
    [len(src)] cells gives [src] back, with the cursor after it again. *)
Theorem X5_write_seek_back_read
    (st : state) (r : addr) (R : Buffer) (s : addr) (sb : crunch.Buffer)
    (src dst : list byte) :
  is_root st r R s sb → closed R = false →
  0 ≤ offset R → offset R + len src ≤ max_int64 →
  crunch.ByteCapacity sb ≤ max_int64 →
  List.length dst = List.length src →
  ∃ st1 st2 st3 R3,
    Write r src st = Ok ((len src, None), st1) ∧
    Seek r (- len src) SeekCurrent st1 = Ok ((offset R, None), st2) ∧
    Read r dst st2 = Ok ((src, len src, None), st3) ∧
    bufs st3 !! r = Some R3 ∧ offset R3 = offset R + len src.
Proof.
  intros Hroot Hopen Ho Hfit Hcap Hdst.
  pose proof (len_nonneg src) as Hn.
  assert (0 ≤ crunch.ByteCapacity sb) as HL0 by apply len_nonneg.
  assert (len dst = len src) as Hlen by (unfold len; by rewrite Hdst).
  pose proof (Write_root _ _ _ _ _ src Hroot Hopen Ho Hfit Hcap) as Hw.
  pose proof (Write_root_is_root _ _ _ _ _ src _ _ Hroot Hopen Ho Hfit Hcap Hw)
    as Hroot1.
  set (st1 := mkState _ _) in Hw, Hroot1.
  set (R1 := with_offset _ _) in Hroot1.
  set (sb1 := written (offset R) src sb) in Hroot1.
  assert (crunch.ByteCapacity sb1
          = Z.max (crunch.ByteCapacity sb) (offset R + len src)) as Hcap1
    by (unfold sb1; by rewrite written_capacity).
  destruct (Seek_attached st1 r r R1 s sb1 R1 (- len src) SeekCurrent)
    as (st2 & B2 & R2 & sb2 & Hseek & HB2 & HB2eq & Hatt2 & Hopen2 & Hbuf2 & _);
    [by apply is_root_attached | done | by destruct Hroot1 |].
  assert (seek_target (with_length (crunch.ByteCapacity sb1) R1)
            (- len src) SeekCurrent = offset R) as Htgt.
  { unfold seek_target. cbn.
    replace (offset R + len src + - len src) with (offset R) by lia.
    apply wrap64_small. unfold max_int64 in *. lia. }
  rewrite Htgt in Hseek, HB2eq.
  pose proof (attached_is_root _ _ _ _ _ _ Hatt2) as Hroot2.
  assert (R2 = B2) as -> by (destruct Hroot2 as (HR2 & _); congruence).
  assert (offset B2 = offset R) as Ho2 by (by rewrite HB2eq).
  assert (crunch.ByteCapacity sb2 = crunch.ByteCapacity sb1) as Hcap2
    by (unfold crunch.ByteCapacity; by rewrite Hbuf2).
  pose proof (Read_root st2 r B2 s sb2 dst Hroot2 Hopen2
                ltac:(lia) ltac:(lia) ltac:(unfold max_int64 in *; lia))
    as Hread.
  assert (take (List.length dst)
            (drop (Z.to_nat (offset B2)) (crunch.buf sb2)) = src) as Hbytes.
  { rewrite Ho2, Hbuf2, Hdst. unfold sb1, written. cbn [crunch.buf].
    apply splice_read. rewrite length_app, uncovered_length.
    unfold crunch.ByteCapacity, len in *. lia. }
  rewrite Hbytes, Hlen, Ho2 in Hread.
  eexists st1, st2, _, _.
  split; [exact Hw|]. split; [exact Hseek|]. split; [exact Hread|].
  cbn [bufs]. split; [by eapply lookup_updated | done].
Qed.

(** A run of X5: "AB" written at offset 3 of a one-byte root. *)
Lemma X5_write_seek_back_read_witness :
  ∃ st1 st2 st3 R3,
    Write 0%nat AB
      (mkState [mkBuffer (Some 0%nat) None 1 3 false "r"] [crunch.mk [x07] 0])
    = Ok ((2, None), st1) ∧
    Seek 0%nat (-2) SeekCurrent st1 = Ok ((3, None), st2) ∧
    Read 0%nat [x00; x00] st2 = Ok ((AB, 2, None), st3) ∧
    bufs st3 !! 0%nat = Some R3 ∧ offset R3 = 5.
Proof.
  apply (X5_write_seek_back_read
           (mkState [mkBuffer (Some 0%nat) None 1 3 false "r"]
              [crunch.mk [x07] 0])
           0%nat (mkBuffer (Some 0%nat) None 1 3 false "r") 0%nat
           (crunch.mk [x07] 0) AB [x00; x00]);
    [unfold is_root; cbn; repeat split; reflexivity | reflexivity
    | vm_compute; discriminate | vm_compute; discriminate
    | vm_compute; discriminate | reflexivity].
Defined.

(** ** The accessors *)

(** X6: [Bytes], [String], [ByteCapacity] and [Size] through any buffer of
    a chain give the whole store of the root and its capacity, whatever the
    buffer's own offset, its stale [length] and the closed flag; they change
    nothing but [length] fields, which they refresh. *)
Theorem X6_accessors_see_whole_store
    (st : state) (b r : addr) (R : Buffer) (s : addr) (sb : crunch.Buffer) :
  attached st b r R s sb →
  ∃ st' B',
    Bytes b st = Ok (crunch.buf sb, st') ∧
    String b st = Ok (String.string_of_list_byte (crunch.buf sb), st') ∧
    ByteCapacity b st = Ok (crunch.ByteCapacity sb, st') ∧
    Size b st = Ok (crunch.ByteCapacity sb, st') ∧
    stores st' = stores st ∧ evolves refreshed st st' ∧
    bufs st' !! b = Some B' ∧ length B' = crunch.ByteCapacity sb.
Proof.
  intros Hatt. pose proof Hatt as (Hres & _ & _ & _ & Hsb).
  destruct (resolves_valid _ _ _ Hres) as [B HB].
  destruct (Buffer_attached _ _ _ _ _ _ Hatt)
    as (st1 & B1 & Hrun & Hst1 & Hev1 & HB1 & HL1).
  assert (stores st1 !! s = Some sb) as Hsb1 by by rewrite Hst1.
  assert (Bytes b st = Ok (crunch.buf sb, st1)) as Hbytes.
  { unfold Bytes. run_with HB. run_with Hrun. by run_with Hsb1. }
  assert (ByteCapacity b st = Ok (crunch.ByteCapacity sb, st1)) as Hsize.
  { unfold ByteCapacity. run_with HB. run_with Hrun. run_with HB1.
    unfold ret. by rewrite HL1. }
  exists st1, B1. split; [done|]. split; [|split; [done|split]].
  - unfold String. run_with HB. by run_with Hbytes.
  - unfold Size. by run_with HB.
  - done.
Qed.

(** A run of X6 through a closed reference with a stale length and its
    cursor past the end. *)
Lemma X6_accessors_see_whole_store_witness :
  ∃ st' B',
    Bytes 1%nat
      (mkState [mkBuffer (Some 0%nat) None 2 0 true "r";
                mkBuffer None (Some 0%nat) 0 9 true ""]
         [crunch.mk AB 0])
    = Ok (AB, st') ∧
    String 1%nat
      (mkState [mkBuffer (Some 0%nat) None 2 0 true "r";
                mkBuffer None (Some 0%nat) 0 9 true ""]
         [crunch.mk AB 0])
    = Ok ("AB"%string, st') ∧
    ByteCapacity 1%nat
      (mkState [mkBuffer (Some 0%nat) None 2 0 true "r";
                mkBuffer None (Some 0%nat) 0 9 true ""]
         [crunch.mk AB 0])
    = Ok (2, st') ∧
    Size 1%nat
      (mkState [mkBuffer (Some 0%nat) None 2 0 true "r";
                mkBuffer None (Some 0%nat) 0 9 true ""]
         [crunch.mk AB 0])
    = Ok (2, st') ∧
    bufs st' !! 1%nat = Some B' ∧ length B' = 2.
Proof.
  destruct (X6_accessors_see_whole_store
              (mkState [mkBuffer (Some 0%nat) None 2 0 true "r";
                        mkBuffer None (Some 0%nat) 0 9 true ""]
                 [crunch.mk AB 0])
              1%nat 0%nat (mkBuffer (Some 0%nat) None 2 0 true "r") 0%nat
              (crunch.mk AB 0))
    as (st' & B' & Hb & Hs & Hc & Hz & _ & _ & HB' & HL).
  - split; [|by repeat split].
    eapply resolves_ref; [reflexivity | reflexivity | lia |].
    by eapply resolves_root.
  - exists st', B'. split; [exact Hb|]. split; [exact Hs|].
    split; [exact Hc|]. split; [exact Hz|]. split; [exact HB' | exact HL].
Defined.

(** ** [Reset] *)

Lemma Reset_rec_S fuel b :
  Reset_rec (S fuel) b =
  (do B <- deref "RESET" b;
   exec modify b (with_length 0);
   exec modify b (with_offset 0);
   match parent B with
   | Some p => Reset_rec fuel p
   | None =>
       do sb <- store (buffer B);
       set_store (buffer B) (crunch.Reset sb)
   end).
Proof. reflexivity. Qed.

Lemma zeroed_links A A' : zeroed A A' → same_links A A'.
Proof. intros [-> | ->]; by split. Qed.

Lemma zeroed_trans A B C : zeroed A B → zeroed B C → zeroed A C.
Proof. intros [-> | ->] [-> | ->]; unfold zeroed; auto. Qed.

Lemma zeroed_closed A A' : zeroed A A' → closed A' = closed A.
Proof. by intros [-> | ->]. Qed.

(** [Reset] empties the store of the root and zeroes the cursor and the
    length of the buffers from the receiver up to the root. *)
Lemma Reset_rec_attached fuel :
  ∀ st b r R s sb,
    attached st b r R s sb → (b < fuel)%nat →
    ∃ st' B',
      Reset_rec fuel b st = Ok ((), st') ∧
      stores st' = <[s := crunch.Reset sb]> (stores st) ∧
      evolves zeroed st st' ∧
      bufs st' !! b = Some B' ∧ offset B' = 0 ∧ length B' = 0.
Proof.
  induction fuel as [|fuel IH]; intros st b r R s sb Hatt Hfuel; [lia|].
  pose proof Hatt as (Hres & HR & HPR & Hs & Hsb).
  destruct (resolves_valid _ _ _ Hres) as [B HB].
  rewrite Reset_rec_S. run_with HB. run_with HB.
  remember (mkState _ _) as st0 eqn:Est0.
  assert (bufs st0 !! b = Some (with_length 0 B)) as HB0
    by (subst st0; by eapply lookup_updated).
  run_with HB0.
  remember (mkState (<[b := _]> (bufs st0)) _) as st1 eqn:Est1.
  assert (bufs st1 !! b = Some (with_offset 0 (with_length 0 B))) as HB1
    by (subst st1; by eapply lookup_updated).
  assert (stores st1 = stores st) as Hst1 by (by subst st1 st0).
  assert (evolves zeroed st st1) as Hev1.
  { subst st1 st0. cbn [bufs stores]. rewrite list_insert_insert_eq.
    eapply (evolves_update _ st st); [|done|].
    - apply evolves_refl. intros A. by left.
    - intros A HA. assert (A = B) as -> by congruence. by right. }
  assert (stores st1 !! s = Some sb) as Hsb1 by by rewrite Hst1.
  destruct (parent B) as [p|] eqn:HP.
  - pose proof (attached_parent _ _ _ _ _ _ _ _ Hatt HB HP) as Hattp.
    destruct (attached_evolves _ _ _ _ _ _ _ _ _ zeroed_links Hev1 Hsb1 Hattp)
      as (R1 & Hattp1 & _).
    assert (p < b)%nat as Hlt.
    { destruct Hres as [b B' HB' HP' | b B' p' r HB' HP' Hlt _]; [congruence|].
      assert (p' = p) as <- by congruence. done. }
    destruct (IH st1 p r R1 s sb Hattp1)
      as (st' & P' & Hrun & Hst' & Hev' & _); [lia|].
    destruct (evolves_lookup _ _ _ _ _ Hev' HB1) as (B' & HB' & Hz).
    exists st', B'. split; [done|]. split; [by rewrite Hst', Hst1|].
    split; [eapply evolves_trans; [apply zeroed_trans | done..]|].
    split; [done|]. by destruct Hz as [-> | ->].
  - assert (r = b) as -> by by eapply resolves_root_inv.
    assert (B = R) as -> by congruence.
    rewrite Hs. run_with Hsb1. rewrite set_store_Ok.
    eexists _, _. split; [reflexivity|]. cbn [bufs stores].
    split; [by rewrite Hst1|]. split; [done|]. by split.
Qed.

(** X7: [Reset] through any buffer of a chain, closed or not, returns and
    leaves the store of the root empty: afterwards [Bytes] is empty and
    [ByteCapacity] is 0 through every buffer of that root, the receiver's
    cursor is 0, and the closed flag is as it was. *)
Theorem X7_reset_empties
    (st : state) (b r x : addr) (R : Buffer) (s : addr) (sb : crunch.Buffer) :
  attached st b r R s sb → resolves st x r →
  ∃ st' B' st1 st2,
    Reset b st = Ok ((), st') ∧
    bufs st' !! b = Some B' ∧ offset B' = 0 ∧
    Bytes x st' = Ok ([], st1) ∧
    ByteCapacity x st' = Ok (0, st2) ∧
    Closed x st' = Ok (closed R, st').
Proof.
  intros Hatt Hx. pose proof Hatt as (Hres & HR & HPR & Hs & Hsb).
  destruct (resolves_valid _ _ _ Hres) as [B HB].
  destruct (Reset_rec_attached (S (List.length (bufs st))) st b r R s sb Hatt)
    as (st' & B' & Hrun & Hst' & Hev & HB' & Ho' & _);
    [apply lookup_lt_Some in HB; lia|].
  assert (attached st x r R s sb) as Hattx by (by repeat split).
  assert (stores st' !! s = Some (crunch.Reset sb)) as Hsb'
    by (rewrite Hst'; by eapply lookup_updated).
  destruct (attached_evolves _ _ _ _ _ _ _ _ _ zeroed_links Hev Hsb' Hattx)
    as (R' & Hattx' & HRR').
  destruct (Bytes_attached _ _ _ _ _ _ Hattx') as (st1 & Hbytes & _).
  destruct (ByteCapacity_attached _ _ _ _ _ _ Hattx') as (st2 & Hsize & _).
  exists st', B', st1, st2.
  split; [done|]. split; [done|]. split; [done|]. split; [done|].
  split; [done|].
  destruct Hattx' as (Hx' & HR' & _).
  rewrite (Closed_resolves _ _ _ _ Hx' HR'). by rewrite (zeroed_closed _ _ HRR').
Qed.

(** A run of X7: [Reset] through a reference of a closed root. *)
Lemma X7_reset_empties_witness :
  ∃ st' B' st1 st2,
    Reset 1%nat
      (mkState [mkBuffer (Some 0%nat) None 2 1 true "r";
                mkBuffer None (Some 0%nat) 2 2 false ""]
         [crunch.mk AB 0])
    = Ok ((), st') ∧
    bufs st' !! 1%nat = Some B' ∧ offset B' = 0 ∧
    Bytes 0%nat st' = Ok ([], st1) ∧
    ByteCapacity 0%nat st' = Ok (0, st2) ∧
    Closed 0%nat st' = Ok (true, st').
Proof.
  apply (X7_reset_empties
           (mkState [mkBuffer (Some 0%nat) None 2 1 true "r";
                     mkBuffer None (Some 0%nat) 2 2 false ""]
              [crunch.mk AB 0])
           1%nat 0%nat 0%nat (mkBuffer (Some 0%nat) None 2 1 true "r") 0%nat
           (crunch.mk AB 0)).
  - split; [|by repeat split].
    eapply resolves_ref; [reflexivity | reflexivity | lia |].
    by eapply resolves_root.
  - by eapply resolves_root.
Defined.

(** ** The constructors *)

Lemma resolves_app st st' b r bs :
  bufs st' = bufs st ++ bs → resolves st b r → resolves st' b r.
Proof.
  intros Happ. induction 1 as [b B HB HP | b B p r HB HP Hlt _ IH].
  - eapply resolves_root; [|done]. rewrite Happ. by apply lookup_app_l_Some.
  - eapply resolves_ref; [|done..]. rewrite Happ. by apply lookup_app_l_Some.
Qed.

(** X8: [Copy] of a root, whatever its offset, flag and name, gives a new
    root at a fresh address that starts at offset 0, is not closed, has no
    name and takes over the receiver's [length]; [Bytes] through it gives
    the receiver's bytes; every buffer and store that existed is still
    there, unchanged. *)
Theorem X8_copy_of_root
    (st : state) (r : addr) (R : Buffer) (s : addr) (sb : crunch.Buffer) :
  is_root st r R s sb →
  ∃ nb st' N st1,
    Copy r st = Ok (nb, st') ∧ nb ≠ r ∧
    bufs st' !! nb = Some N ∧ parent N = None ∧ offset N = 0 ∧
    closed N = false ∧ name N = ""%string ∧ length N = length R ∧
    Closed nb st' = Ok (false, st') ∧
    Bytes nb st' = Ok (crunch.buf sb, st1) ∧
    (∀ a A, bufs st !! a = Some A → bufs st' !! a = Some A) ∧
    (∀ a x, stores st !! a = Some x → stores st' !! a = Some x).
Proof.
  intros Hroot. pose proof Hroot as (HR & HP & Hs & Hsb).
  pose proof (Copy_root _ _ _ _ _ Hroot) as Hcopy.
  set (nb := List.length (bufs st)) in *.
  set (N := mkBuffer _ _ _ _ _ _) in Hcopy.
  set (st' := mkState _ _) in Hcopy.
  assert (is_root st' nb N (List.length (stores st))
            (crunch.mk (crunch.buf sb) 0)) as Hroot'.
  { repeat split; cbn [bufs stores]; try done; apply lookup_snoc. }
  destruct (Bytes_attached _ _ _ _ _ _ (is_root_attached _ _ _ _ _ Hroot'))
    as (st1 & Hbytes & _).
  exists nb, st', N, st1.
  split; [done|]. split; [apply lookup_lt_Some in HR; unfold nb; lia|].
  split; [by destruct Hroot'|]. do 5 (split; [done|]).
  split; [by rewrite (Closed_root _ _ _ _ _ Hroot')|].
  split; [done|]. split.
  - intros a A HA. cbn [bufs st']. by apply lookup_app_l_Some.
  - intros a x Hx. cbn [stores st']. by apply lookup_app_l_Some.
Qed.

(** A run of X8: the copy of a closed, named root with its cursor at 1. *)
Lemma X8_copy_of_root_witness :
  ∃ nb st' N st1,
    Copy 0%nat
      (mkState [mkBuffer (Some 0%nat) None 2 1 true "r"] [crunch.mk AB 0])
    = Ok (nb, st') ∧ nb ≠ 0%nat ∧
    bufs st' !! nb = Some N ∧ parent N = None ∧ offset N = 0 ∧
    closed N = false ∧ name N = ""%string ∧ length N = 2 ∧
    Closed nb st' = Ok (false, st') ∧
    Bytes nb st' = Ok (AB, st1).
Proof.
  destruct (X8_copy_of_root
              (mkState [mkBuffer (Some 0%nat) None 2 1 true "r"]
                 [crunch.mk AB 0])
              0%nat (mkBuffer (Some 0%nat) None 2 1 true "r") 0%nat
              (crunch.mk AB 0))
    as (nb & st' & N & st1 & H1 & H2 & H3 & H4 & H5 & H6 & H7 & H8 & H9 & H10 & _);
    [unfold is_root; cbn; repeat split; reflexivity|].
  exists nb, st', N, st1. repeat (split; [assumption|]). assumption.
Defined.

(** X9: [Reference] of any buffer of a chain, closed or not, gives a new
    buffer at offset 0 whose parent is the receiver: it resolves to the
    same root, so [Closed] and [Bytes] through it answer as through the
    receiver; no store is allocated and no existing buffer changes. *)
Theorem X9_reference_shares
    (st : state) (b r : addr) (R : Buffer) (s : addr) (sb : crunch.Buffer) :
  attached st b r R s sb →
  ∃ c st' C st1,
    Reference b st = Ok (c, st') ∧
    bufs st' !! c = Some C ∧ parent C = Some b ∧ offset C = 0 ∧
    attached st' c r R s sb ∧
    Closed c st' = Ok (closed R, st') ∧
    Bytes c st' = Ok (crunch.buf sb, st1) ∧
    stores st' = stores st ∧
    (∀ a A, bufs st !! a = Some A → bufs st' !! a = Some A).
Proof.
  intros Hatt. pose proof Hatt as (Hres & HR & HPR & Hs & Hsb).
  destruct (resolves_valid _ _ _ Hres) as [B HB].
  pose proof (Reference_spec _ _ _ HB) as Href.
  set (c := List.length (bufs st)) in *.
  set (C := with_parent (Some b) zero_Buffer) in *.
  set (st' := mkState _ _) in Href.
  assert (bufs st' !! c = Some C) as HC by apply lookup_snoc.
  assert (resolves st' b r) as Hres'
    by (by eapply (resolves_app st st' b r [C])).
  assert (attached st' c r R s sb) as Hatt'.
  { split; [|split; [|done]].
    - eapply resolves_ref; [exact HC | done | | done].
      apply lookup_lt_Some in HB. unfold c. lia.
    - cbn [bufs st']. by apply lookup_app_l_Some. }
  destruct (Bytes_attached _ _ _ _ _ _ Hatt') as (st1 & Hbytes & _).
  exists c, st', C, st1. do 5 (split; [done|]).
  split.
  { destruct Hatt' as (Hc & HR' & _). by rewrite (Closed_resolves _ _ _ _ Hc HR'). }
  split; [done|]. split; [done|].
  intros a A HA. cbn [bufs st']. by apply lookup_app_l_Some.
Qed.

(** A run of X9: a reference of a reference of a closed root. *)
Lemma X9_reference_shares_witness :
  ∃ c st' C st1,
    Reference 1%nat
      (mkState [mkBuffer (Some 0%nat) None 2 1 true "r";
                mkBuffer None (Some 0%nat) 0 2 false ""]
         [crunch.mk AB 0])
    = Ok (c, st') ∧
    bufs st' !! c = Some C ∧ parent C = Some 1%nat ∧ offset C = 0 ∧
    Closed c st' = Ok (true, st') ∧
    Bytes c st' = Ok (AB, st1).
Proof.
  destruct (X9_reference_shares
              (mkState [mkBuffer (Some 0%nat) None 2 1 true "r";
                        mkBuffer None (Some 0%nat) 0 2 false ""]
                 [crunch.mk AB 0])
              1%nat 0%nat (mkBuffer (Some 0%nat) None 2 1 true "r") 0%nat
              (crunch.mk AB 0))
    as (c & st' & C & st1 & H1 & H2 & H3 & H4 & _ & H6 & H7 & _).
  - split; [|by repeat split].
    eapply resolves_ref; [reflexivity | reflexivity | lia |].
    by eapply resolves_root.
  - exists c, st', C, st1. repeat (split; [assumption|]). assumption.
Defined.

(** ** What every method keeps *)

Lemma same_links_refl A : same_links A A.
Proof. by split. Qed.

Lemma same_links_trans A B C : same_links A B → same_links B C → same_links A C.
Proof. intros [? ?] [? ?]. split; congruence. Qed.

Lemma frame_refl st : frame st st.
Proof. split; [|done]. apply evolves_refl, same_links_refl. Qed.

Lemma frame_trans st st1 st2 : frame st st1 → frame st1 st2 → frame st st2.
Proof.
  intros [Hev1 Hn1] [Hev2 Hn2]. split; [|congruence].
  eapply evolves_trans; [apply same_links_trans | done..].
Qed.

Lemma wf_frame st st' : wf st → frame st st' → wf st'.
Proof.
  intros [Hparent Hroot] [Hev Hn]. split.
  - intros b B' p HB' HP'.
    destruct (Forall2_lookup_r _ _ _ _ _ Hev HB') as (B & HB & [HP _]).
    eapply Hparent; [done | congruence].
  - intros b B' HB' HP'.
    destruct (Forall2_lookup_r _ _ _ _ _ Hev HB') as (B & HB & [HP Hs]).
    destruct (Hroot b B HB) as (s & sb & Hs' & Hsb); [congruence|].
    apply lookup_lt_Some in Hsb.
    destruct (lookup_lt_is_Some_2 (stores st') s) as [sb' Hsb']; [lia|].
    exists s, sb'. split; [congruence | done].
Qed.

Lemma ensures_ret {A} (a : A) (P : A → Prop) : P a → ensures (ret a) P.
Proof. intros HP st a' st' [= <- <-]. split; [apply frame_refl | done]. Qed.

Lemma ensures_bind {A B} (m : M A) (k : A → M B) P Q :
  ensures m P → (∀ a, P a → ensures (k a) Q) → ensures (bind m k) Q.
Proof.
  intros Hm Hk st b st'. unfold bind.
  destruct (m st) as [[a st1]| |] eqn:Hrun; [|done..]. intros Hrun'.
  destruct (Hm _ _ _ Hrun) as [Hf1 HP].
  destruct (Hk a HP _ _ _ Hrun') as [Hf2 HQ].
  split; [by eapply frame_trans | done].
Qed.

Lemma ensures_weaken {A} (m : M A) (P Q : A → Prop) :
  ensures m P → (∀ a, P a → Q a) → ensures m Q.
Proof. intros Hm HPQ st a st' Hrun. destruct (Hm _ _ _ Hrun). auto. Qed.

Lemma ensures_deref method b : ensures (deref method b) (λ _, True).
Proof.
  intros st a st'. unfold deref. destruct (bufs st !! b); [|done].
  intros [= <- <-]. split; [apply frame_refl | done].
Qed.

Lemma ensures_modify b f :
  (∀ B, same_links B (f B)) → ensures (modify b f) (λ _, True).
Proof.
  intros Hf st a st'. unfold modify.
  destruct (bufs st !! b) as [B|] eqn:HB; [|done].
  intros [= <- <-]. split; [|done]. split; [|done].
  eapply (evolves_update _ st st); [apply evolves_refl, same_links_refl | done |].
  intros A HA. assert (A = B) as -> by congruence. apply Hf.
Qed.

Lemma ensures_store s : ensures (store s) (λ _, s ≠ None).
Proof.
  intros st a st'. unfold store. destruct s as [a'|]; [|done].
  destruct (stores st !! a'); [|done].
  intros [= <- <-]. split; [apply frame_refl | done].
Qed.

Lemma ensures_set_store s sb : ensures (set_store s sb) (λ _, True).
Proof.
  intros st a st'. unfold set_store. destruct s as [a'|]; [|done].
  intros [= <- <-]. split; [|done]. split; cbn [bufs stores].
  - exact (evolves_refl _ st same_links_refl).
  - apply length_insert.
Qed.

Lemma ensures_lift {A} (r : res A) : ensures (lift r) (λ _, True).
Proof.
  intros st a st'. unfold lift. destruct r; [|done..].
  intros [= <- <-]. split; [apply frame_refl | done].
Qed.

Lemma ensures_depth : ensures depth (λ _, True).
Proof. intros st a st' [= <- <-]. split; [apply frame_refl | done]. Qed.

Lemma ensures_Closed b : ensures (Closed b) (λ _, True).
Proof.
  intros st a st'. unfold Closed.
  destruct (Closed_rec _ b st); [|done..].
  intros [= <- <-]. split; [apply frame_refl | done].
Qed.

(** One step of a proof that a call keeps the frame. *)
Ltac keeps_links := intros []; split; reflexivity.

Ltac ensures_step :=
  lazymatch goal with
  | |- ensures (ret _) _ => apply ensures_ret
  | |- ensures (bind _ _) _ =>
      eapply ensures_bind;
      [ first [ apply ensures_deref | apply ensures_store
              | apply ensures_set_store | apply ensures_lift
              | apply ensures_depth | apply ensures_Closed
              | apply ensures_modify; keeps_links ]
      | intros ? ? ]
  | |- ensures (modify _ _) _ =>
      eapply ensures_weaken; [apply ensures_modify; keeps_links | done]
  | |- ensures (set_store _ _) _ =>
      eapply ensures_weaken; [apply ensures_set_store | done]
  end.

(** [Buffer()] never returns nil: it panics on a nil store before. *)
Lemma ensures_Buffer_rec fuel :
  ∀ b, ensures (Buffer_rec fuel b) (λ buffer, buffer ≠ None).
Proof.
  induction fuel as [|fuel IH]; intros b; [by intros st a st'|].
  rewrite Buffer_rec_S. ensures_step.
  eapply (ensures_bind _ _ (λ _, True)).
  { destruct (parent a) as [p|].
    - eapply ensures_weaken; [apply IH | done].
    - by apply ensures_ret. }
  intros buffer _. ensures_step. ensures_step. by ensures_step.
Qed.

Lemma ensures_Buffer b : ensures (Buffer_ b) (λ buffer, buffer ≠ None).
Proof.
  unfold Buffer_. ensures_step. apply ensures_Buffer_rec.
Qed.

Lemma ensures_write_range b buffer src o :
  ensures (write_range b buffer src o) (λ _, True).
Proof.
  unfold write_range. ensures_step.
  eapply (ensures_bind _ _ (λ _, True)).
  { destruct (0 <? _).
    - ensures_step. ensures_step. ensures_step. by ensures_step.
    - by apply ensures_ret. }
  intros _ _. ensures_step. ensures_step. by ensures_step.
Qed.

Lemma ensures_ReadOffset b dst o :
  ensures (ReadOffset b dst o) (λ '(_, _, err), nil_or_EOF err).
Proof.
  unfold ReadOffset. ensures_step. ensures_step.
  destruct a0; [ensures_step; by right|].
  eapply ensures_bind; [apply ensures_Buffer|]. intros [s|] Hs; [|done].
  ensures_step. destruct (_ =? 0); [ensures_step; by left|].
  ensures_step. ensures_step. destruct (copy _ _).
  ensures_step. by left.
Qed.

Lemma ensures_WriteOffset b src o :
  ensures (WriteOffset b src o) (λ '(_, err), nil_or_EOF err).
Proof.
  unfold WriteOffset. ensures_step. ensures_step.
  destruct a0; [ensures_step; by right|].
  eapply ensures_bind; [apply ensures_Buffer|]. intros [s|] Hs; [|done].
  eapply ensures_bind; [apply ensures_write_range|]. intros _ _.
  ensures_step. by left.
Qed.

Lemma ensures_Read b dst :
  ensures (Read b dst) (λ '(_, _, err), nil_or_EOF err).
Proof.
  unfold Read. ensures_step. ensures_step.
  destruct a0; [ensures_step; by right|].
  destruct (parent a) as [p|].
  - eapply ensures_bind; [apply ensures_ReadOffset|].
    intros [[dst' read] err] Herr. ensures_step. by ensures_step.
  - eapply ensures_bind; [apply ensures_Buffer|]. intros [s|] Hs; [|done].
    eapply ensures_bind.
    { apply ensures_modify. intros B. destruct (_ <=? _); by split. }
    intros _ _. ensures_step.
    destruct (_ =? 0); [ensures_step; by left|].
    ensures_step. ensures_step. destruct (copy _ _).
    ensures_step. ensures_step. by left.
Qed.

Lemma ensures_Write b src :
  ensures (Write b src) (λ '(_, err), nil_or_EOF err).
Proof.
  unfold Write. ensures_step. ensures_step.
  destruct a0; [ensures_step; by right|].
  destruct (parent a) as [p|].
  - eapply ensures_bind; [apply ensures_WriteOffset|].
    intros [wrote err] Herr. ensures_step. by ensures_step.
  - eapply ensures_bind; [apply ensures_Buffer|]. intros [s|] Hs; [|done].
    ensures_step.
    eapply ensures_bind; [apply ensures_write_range|]. intros _ _.
    ensures_step. ensures_step. by left.
Qed.

Lemma ensures_Seek b to whence :
  ensures (Seek b to whence) (λ '(_, err), nil_or_EOF err).
Proof.
  unfold Seek. ensures_step. ensures_step.
  destruct a0; [ensures_step; by right|].
  eapply ensures_bind; [apply ensures_Buffer|]. intros [s|] Hs; [|done].
  ensures_step. ensures_step.
  eapply (ensures_bind _ _ (λ _, True)).
  { match goal with |- context [parent ?B] => destruct (parent B) end.
    - by apply ensures_ret.
    - ensures_step. by ensures_step. }
  intros _ _. ensures_step. by left.
Qed.

Lemma ensures_Close_rec fuel :
  ∀ b, ensures (Close_rec fuel b) (λ err, err = None).
Proof.
  induction fuel as [|fuel IH]; intros b; [by intros st a st'|].
  rewrite Close_rec_S. ensures_step. ensures_step.
  destruct (parent a); [apply IH | by ensures_step].
Qed.

Lemma ensures_Reset_rec fuel :
  ∀ b, ensures (Reset_rec fuel b) (λ _, True).
Proof.
  induction fuel as [|fuel IH]; intros b; [by intros st a st'|].
  rewrite Reset_rec_S. ensures_step. ensures_step. ensures_step.
  destruct (parent a); [apply IH|]. ensures_step. by ensures_step.
Qed.

Lemma ensures_Bytes b : ensures (Bytes b) (λ _, True).
Proof.
  unfold Bytes. ensures_step.
  eapply ensures_bind; [apply ensures_Buffer|]. intros buffer _.
  ensures_step. by ensures_step.
Qed.

Lemma ensures_ByteCapacity b : ensures (ByteCapacity b) (λ _, True).
Proof.
  unfold ByteCapacity. ensures_step.
  eapply ensures_bind; [apply ensures_Buffer|]. intros [s|] _.
  - ensures_step. by ensures_step.
  - by ensures_step.
Qed.

Lemma ensures_WriteAbstract b data :
  ensures (WriteAbstract b data) (λ _, True).
Proof.
  unfold WriteAbstract. ensures_step. destruct a as [buffer | err].
  - eapply ensures_weaken; [apply ensures_Write | done].
  - by ensures_step.
Qed.

Lemma ensures_Close b : ensures (Close b) (λ err, err = None).
Proof. unfold Close. ensures_step. apply ensures_Close_rec. Qed.

Lemma ensures_Reset b : ensures (Reset b) (λ _, True).
Proof. unfold Reset. ensures_step. apply ensures_Reset_rec. Qed.

Lemma ensures_SetName b name : ensures (SetName b name) (λ _, True).
Proof. unfold SetName. ensures_step. by ensures_step. Qed.

Lemma wf_Copy st b c st' : wf st → Copy b st = Ok (c, st') → wf st'.
Proof.
  intros [Hparent Hroot]. unfold Copy.
  destruct (bufs st !! b) as [B|] eqn:HB.
  2:{ unfold bind, deref. by rewrite HB. }
  run_with HB. unfold alloc at 1. unfold bind at 1.
  destruct (buffer B) as [s|] eqn:Hs; [|done].
  destruct (stores st !! s) as [sb|] eqn:Hsb.
  2:{ unfold bind, store. cbn [bufs stores]. by rewrite Hsb. }
  assert (stores (mkState (bufs st ++ [zero_Buffer]) (stores st)) !! s
          = Some sb) as Hsb1 by done.
  run_with Hsb1.
  unfold alloc_store, bind, modify, ret. cbn [bufs stores].
  repeat (rewrite ?lookup_snoc, ?insert_snoc; cbn [bufs stores]).
  intros [= <- <-]. split; cbn [bufs stores].
  - intros a A p HA HP. apply lookup_app_Some in HA as [HA | [_ HA]].
    + by eapply Hparent.
    + apply list_lookup_singleton_Some in HA as [_ <-]. done.
  - intros a A HA HP. apply lookup_app_Some in HA as [HA | [_ HA]].
    + destruct (Hroot a A HA HP) as (s' & sb' & Hs' & Hsb').
      exists s', sb'. split; [done|]. by apply lookup_app_l_Some.
    + apply list_lookup_singleton_Some in HA as [_ <-].
      eexists _, _. split; [reflexivity | apply lookup_snoc].
Qed.

(** X10: well-formedness is an invariant.  On a heap where parents are
    older than their references and every root owns a store, each
    constructor and each method that returns leaves such a heap; and on such
    a heap every buffer is attached to a root that owns a store. *)
Theorem X10_wf_invariant (st : state) :
  wf st →
  (∀ name slices r st', NewBuffer name slices st = Ok (r, st') → wf st') ∧
  (∀ b c st', Reference b st = Ok (c, st') → wf st') ∧
  (∀ b c st', Copy b st = Ok (c, st') → wf st') ∧
  (∀ b dst res st', Read b dst st = Ok (res, st') → wf st') ∧
  (∀ b dst o res st', ReadOffset b dst o st = Ok (res, st') → wf st') ∧
  (∀ b src res st', Write b src st = Ok (res, st') → wf st') ∧
  (∀ b src o res st', WriteOffset b src o st = Ok (res, st') → wf st') ∧
  (∀ b data res st', WriteAbstract b data st = Ok (res, st') → wf st') ∧
  (∀ b to whence res st', Seek b to whence st = Ok (res, st') → wf st') ∧
  (∀ b res st', Close b st = Ok (res, st') → wf st') ∧
  (∀ b res st', Reset b st = Ok (res, st') → wf st') ∧
  (∀ b res st', Bytes b st = Ok (res, st') → wf st') ∧
  (∀ b res st', ByteCapacity b st = Ok (res, st') → wf st') ∧
  (∀ b name res st', SetName b name st = Ok (res, st') → wf st') ∧
  (∀ b, is_Some (bufs st !! b) → ∃ r R s sb, attached st b r R s sb).
Proof.
  intros Hwf.
  assert (∀ A (m : M A) P a st',
            ensures m P → m st = Ok (a, st') → wf st') as Hkeep.
  { intros A m P a st' Hm Hrun. destruct (Hm _ _ _ Hrun) as [Hframe _].
    by eapply wf_frame. }
  split; [intros; by eapply wf_NewBuffer|].
  split; [intros; by eapply wf_Reference|].
  split; [intros; by eapply wf_Copy|].
  split; [intros b dst; intros; by eapply (Hkeep _ _ _ _ _ (ensures_Read b dst))|].
  split; [intros b dst o; intros;
          by eapply (Hkeep _ _ _ _ _ (ensures_ReadOffset b dst o))|].
  split; [intros b src; intros; by eapply (Hkeep _ _ _ _ _ (ensures_Write b src))|].
  split; [intros b src o; intros;
          by eapply (Hkeep _ _ _ _ _ (ensures_WriteOffset b src o))|].
  split; [intros b data; intros;
          by eapply (Hkeep _ _ _ _ _ (ensures_WriteAbstract b data))|].
  split; [intros b to whence; intros;
          by eapply (Hkeep _ _ _ _ _ (ensures_Seek b to whence))|].
  split; [intros b; intros; by eapply (Hkeep _ _ _ _ _ (ensures_Close b))|].
  split; [intros b; intros; by eapply (Hkeep _ _ _ _ _ (ensures_Reset b))|].
  split; [intros b; intros; by eapply (Hkeep _ _ _ _ _ (ensures_Bytes b))|].
  split; [intros b; intros;
          by eapply (Hkeep _ _ _ _ _ (ensures_ByteCapacity b))|].
  split; [intros b name; intros;
          by eapply (Hkeep _ _ _ _ _ (ensures_SetName b name))|].
  intros b. by apply wf_attached.
Qed.

(** A run of X10: from the empty heap, a root and then a reference of it;
    the reference is attached. *)
Lemma X10_wf_invariant_witness :
  ∃ r R s sb,
    attached
      (mkState [mkBuffer (Some 0%nat) None 2 0 false "r";
                mkBuffer None (Some 0%nat) 0 0 false ""]
         [crunch.mk AB 0])
      1%nat r R s sb.
Proof.
  pose proof (X10_wf_invariant empty_state wf_empty) as (Hnew & _).
  pose proof (Hnew "r"%string [AB] 0%nat
                (mkState [mkBuffer (Some 0%nat) None 2 0 false "r"]
                   [crunch.mk AB 0])
                eq_refl) as Hwf1.
  pose proof (X10_wf_invariant _ Hwf1) as (_ & Href & _).
  pose proof (Href 0%nat 1%nat
                (mkState [mkBuffer (Some 0%nat) None 2 0 false "r";
                          mkBuffer None (Some 0%nat) 0 0 false ""]
                   [crunch.mk AB 0])
                eq_refl) as Hwf2.
  pose proof (X10_wf_invariant _ Hwf2)
    as (_ & _ & _ & _ & _ & _ & _ & _ & _ & _ & _ & _ & _ & _ & Hatt).
  apply Hatt. by eexists.
Defined.

(** X11: the stream calls return no error but [io.EOF].  Whatever the
    heap, when [Read], [ReadOffset], [Write], [WriteOffset] or [Seek]
    returns, its error is nil or [io.EOF], and [Close] returns nil: the
    branches that answer "crunch buffer vanished" are never taken, since
    [Buffer()] calls a method of the store before it returns it. *)
Theorem X11_no_vanished_error :
  (∀ st b dst dst' n err st',
     Read b dst st = Ok ((dst', n, err), st') → nil_or_EOF err) ∧
  (∀ st b dst o dst' n err st',
     ReadOffset b dst o st = Ok ((dst', n, err), st') → nil_or_EOF err) ∧
  (∀ st b src n err st',
     Write b src st = Ok ((n, err), st') → nil_or_EOF err) ∧
  (∀ st b src o n err st',
     WriteOffset b src o st = Ok ((n, err), st') → nil_or_EOF err) ∧
  (∀ st b to whence n err st',
     Seek b to whence st = Ok ((n, err), st') → nil_or_EOF err) ∧
  (∀ st b err st', Close b st = Ok (err, st') → err = None) ∧
  (∀ st b buffer st', Buffer_ b st = Ok (buffer, st') → buffer ≠ None).
Proof.
  split; [intros st b dst dst' n err st' Hrun;
          by destruct (ensures_Read b dst _ _ _ Hrun)|].
  split; [intros st b dst o dst' n err st' Hrun;
          by destruct (ensures_ReadOffset b dst o _ _ _ Hrun)|].
  split; [intros st b src n err st' Hrun;
          by destruct (ensures_Write b src _ _ _ Hrun)|].
  split; [intros st b src o n err st' Hrun;
          by destruct (ensures_WriteOffset b src o _ _ _ Hrun)|].
  split; [intros st b to whence n err st' Hrun;
          by destruct (ensures_Seek b to whence _ _ _ Hrun)|].
  split; [intros st b err st' Hrun;
          by destruct (ensures_Close b _ _ _ Hrun)|].
  intros st b buffer st' Hrun. by destruct (ensures_Buffer b _ _ _ Hrun).
Qed.

(** A run of X11: a [Read] on a closed root. *)
Lemma X11_no_vanished_error_witness : nil_or_EOF (Some EOF).
Proof.
  destruct X11_no_vanished_error as (Hread & _).
  apply (Hread
           (mkState [mkBuffer (Some 0%nat) None 2 0 true "r"] [crunch.mk AB 0])
           0%nat [x00] [x00] 0 (Some EOF)
           (mkState [mkBuffer (Some 0%nat) None 2 0 true "r"] [crunch.mk AB 0])).
  reflexivity.
Defined.

(** ** Writers that share a store *)

Lemma refreshed_links A A' : refreshed A A' → same_links A A'.
Proof. intros ->. by split. Qed.

Lemma refreshed_closed A A' : refreshed A A' → closed A' = closed A.
Proof. by intros ->. Qed.

(** A range of [l] read after another range was overwritten, or appended
    behind padding: the read sees [l]. *)
Lemma read_beside_write (l pad src : list byte) (o n o' : nat) :
  (o' ≤ List.length (l ++ pad))%nat → (o + n ≤ List.length l)%nat →
  (o + n ≤ o' ∨ o' + List.length src ≤ o)%nat →
  take n (drop o (take o' (l ++ pad) ++ src ++ drop (o' + List.length src) l))
  = take n (drop o l).
Proof.
  intros Hpad Hfit [Hbefore | Hafter].
  - rewrite drop_app_le by (rewrite length_take; lia).
    rewrite take_app_le by (rewrite length_drop, length_take; lia).
    rewrite !take_drop_commute, take_take.
    replace (Nat.min (o + n) o') with (o + n)%nat by lia.
    by rewrite take_app_le by lia.
  - rewrite drop_app_ge by (rewrite length_take; lia).
    rewrite length_take.
    replace (Nat.min o' (List.length (l ++ pad))) with o' by lia.
    rewrite drop_app_ge by lia.
    rewrite drop_drop. f_equal. f_equal. lia.
Qed.

(** The bytes written at [o] are still there after a write to a range that
    does not meet theirs. *)
Lemma written_beside o src o' src' sb :
  0 ≤ o → 0 ≤ o' →
  o + len src ≤ o' ∨ o' + len src' ≤ o →
  take (List.length src)
    (drop (Z.to_nat o) (crunch.buf (written o' src' (written o src sb))))
  = src.
Proof.
  intros Ho Ho' Hapart.
  assert (take (List.length src)
            (drop (Z.to_nat o) (crunch.buf (written o src sb))) = src) as Hfirst.
  { unfold written. cbn [crunch.buf]. apply splice_read.
    rewrite length_app, uncovered_length.
    unfold crunch.ByteCapacity, len. lia. }
  pose proof (written_capacity o src sb Ho) as Hcap.
  rewrite (written_buf o' src') by done.
  replace (Z.to_nat (o' + len src'))
    with (Z.to_nat o' + List.length src')%nat by (unfold len; lia).
  rewrite read_beside_write; [done | | |].
  - rewrite length_app, uncovered_length.
    unfold crunch.ByteCapacity, len in *. lia.
  - unfold crunch.ByteCapacity, len in *. lia.
  - unfold len in *. lia.
Qed.

(** X12: two writers on one store.  With three buffers of one root that is
    not closed, writing [src1] at [o1] through the first and [src2] at [o2]
    through the second, with [o1] and [o2] at or after 0, [o1 + len(src1)]
    and [o2 + len(src2)] [int64]s (the store being no longer than an [int64]
    counts) and the two ranges not meeting, a read at [o1] through the third
    gives [src1] and a read at [o2] gives [src2]: neither write disturbs the
    bytes of the other, in whichever order the ranges lie and whether or not
    the store has to grow. *)
Theorem X12_disjoint_writes
    (st : state) (b1 b2 b3 r : addr) (R : Buffer) (s : addr)
    (sb : crunch.Buffer) (src1 src2 dst1 dst2 : list byte) (o1 o2 : Z) :
  attached st b1 r R s sb → resolves st b2 r → resolves st b3 r →
  closed R = false →
  0 ≤ o1 → 0 ≤ o2 →
  o1 + len src1 ≤ max_int64 → o2 + len src2 ≤ max_int64 →
  crunch.ByteCapacity sb ≤ max_int64 →
  o1 + len src1 ≤ o2 ∨ o2 + len src2 ≤ o1 →
  List.length dst1 = List.length src1 → List.length dst2 = List.length src2 →
  ∃ st1 st2 st3 st4,
    WriteOffset b1 src1 o1 st = Ok ((len src1, None), st1) ∧
    WriteOffset b2 src2 o2 st1 = Ok ((len src2, None), st2) ∧
    ReadOffset b3 dst1 o1 st2 = Ok ((src1, len src1, None), st3) ∧
    ReadOffset b3 dst2 o2 st2 = Ok ((src2, len src2, None), st4).
Proof.
  intros Hatt1 Hb2 Hb3 Hopen Ho1 Ho2 Hfit1 Hfit2 Hcap Hapart Hdst1 Hdst2.
  pose proof Hatt1 as (_ & HR & HPR & Hs & Hsb).
  pose proof (len_nonneg src1) as Hn1. pose proof (len_nonneg src2) as Hn2.
  assert (0 ≤ crunch.ByteCapacity sb) as HL0 by apply len_nonneg.
  assert (attached st b2 r R s sb) as Hatt2 by (by repeat split).
  assert (attached st b3 r R s sb) as Hatt3 by (by repeat split).
  (* the first write *)
  destruct (WriteOffset_attached _ _ _ _ _ _ src1 o1 Hatt1 Hopen Ho1 Hfit1 Hcap)
    as (st1 & Hw1 & Hst1 & Hev1).
  set (sb1 := written o1 src1 sb) in *.
  assert (stores st1 !! s = Some sb1) as Hsb1
    by (rewrite Hst1; by eapply lookup_updated).
  assert (crunch.ByteCapacity sb1
          = Z.max (crunch.ByteCapacity sb) (o1 + len src1)) as Hcap1
    by (unfold sb1; by rewrite written_capacity).
  destruct (attached_evolves _ _ _ _ _ _ _ _ _ refreshed_links Hev1 Hsb1 Hatt2)
    as (R1 & Hatt2' & HRR1).
  destruct (attached_evolves _ _ _ _ _ _ _ _ _ refreshed_links Hev1 Hsb1 Hatt3)
    as (R1' & Hatt3' & _).
  assert (closed R1 = false) as Hopen1
    by (by rewrite (refreshed_closed _ _ HRR1)).
  (* the second write *)
  destruct (WriteOffset_attached _ _ _ _ _ _ src2 o2 Hatt2' Hopen1 Ho2 Hfit2)
    as (st2 & Hw2 & Hst2 & Hev2); [lia|].
  set (sb2 := written o2 src2 sb1) in *.
  assert (stores st2 !! s = Some sb2) as Hsb2.
  { rewrite Hst2. apply list_lookup_insert_eq. by eapply lookup_lt_Some. }
  assert (crunch.ByteCapacity sb2
          = Z.max (crunch.ByteCapacity sb1) (o2 + len src2)) as Hcap2
    by (unfold sb2; by rewrite written_capacity).
  destruct (attached_evolves _ _ _ _ _ _ _ _ _ refreshed_links Hev2 Hsb2 Hatt3')
    as (R2 & Hatt3'' & HRR2).
  assert (closed R2 = false) as Hopen2.
  { destruct Hatt2' as (_ & HR1 & _). destruct Hatt3' as (_ & HR1' & _).
    assert (R1' = R1) as -> by congruence.
    by rewrite (refreshed_closed _ _ HRR2). }
  (* the two reads *)
  destruct (ReadOffset_attached _ _ _ _ _ _ dst1 o1 Hatt3'' Hopen2)
    as (st3 & Hr1 & _); [lia..|].
  destruct (ReadOffset_attached _ _ _ _ _ _ dst2 o2 Hatt3'' Hopen2)
    as (st4 & Hr2 & _); [lia..|].
  assert (len dst1 = len src1) as Hlen1 by (unfold len; by rewrite Hdst1).
  assert (len dst2 = len src2) as Hlen2 by (unfold len; by rewrite Hdst2).
  assert (available (crunch.ByteCapacity sb2) o1 dst1 = len src1) as Hav1
    by (unfold available; lia).
  assert (available (crunch.ByteCapacity sb2) o2 dst2 = len src2) as Hav2
    by (unfold available; lia).
  rewrite Hav1 in Hr1. rewrite Hav2 in Hr2.
  assert (filled dst1 (crunch.buf sb2) o1 (len src1) = src1) as Hf1.
  { unfold filled, len. rewrite Nat2Z.id, <- Hdst1, drop_all, app_nil_r, Hdst1.
    by apply written_beside. }
  assert (filled dst2 (crunch.buf sb2) o2 (len src2) = src2) as Hf2.
  { unfold filled, len. rewrite Nat2Z.id, <- Hdst2, drop_all, app_nil_r, Hdst2.
    unfold sb2, written. cbn [crunch.buf]. apply splice_read.
    rewrite length_app, uncovered_length.
    unfold crunch.ByteCapacity, len in *. lia. }
  rewrite Hf1 in Hr1. rewrite Hf2 in Hr2.
  by exists st1, st2, st3, st4.
Qed.

(** A run of X12: two references of an empty root; the second writes in
    front of what the first wrote. *)
Lemma X12_disjoint_writes_witness :
  ∃ st1 st2 st3 st4,
    WriteOffset 1%nat AB 3
      (mkState [mkBuffer (Some 0%nat) None 0 0 false "r";
                mkBuffer None (Some 0%nat) 0 0 false "";
                mkBuffer None (Some 0%nat) 0 0 false ""]
         [crunch.mk [] 0])
    = Ok ((2, None), st1) ∧
    WriteOffset 2%nat [x07] 1 st1 = Ok ((1, None), st2) ∧
    ReadOffset 0%nat [x00; x00] 3 st2 = Ok ((AB, 2, None), st3) ∧
    ReadOffset 0%nat [x00] 1 st2 = Ok (([x07], 1, None), st4).
Proof.
  apply (X12_disjoint_writes
           (mkState [mkBuffer (Some 0%nat) None 0 0 false "r";
                     mkBuffer None (Some 0%nat) 0 0 false "";
                     mkBuffer None (Some 0%nat) 0 0 false ""]
              [crunch.mk [] 0])
           1%nat 2%nat 0%nat 0%nat
           (mkBuffer (Some 0%nat) None 0 0 false "r") 0%nat (crunch.mk [] 0)
           AB [x07] [x00; x00] [x00] 3 1).
  - split; [|by repeat split].
    eapply resolves_ref; [reflexivity | reflexivity | lia |].
    by eapply resolves_root.
  - eapply resolves_ref; [reflexivity | reflexivity | lia |].
    by eapply resolves_root.
  - by eapply resolves_root.
  - reflexivity.
  - vm_compute; discriminate.
  - vm_compute; discriminate.
  - vm_compute; discriminate.
  - vm_compute; discriminate.
  - vm_compute; discriminate.
  - right. vm_compute; discriminate.
  - reflexivity.
  - reflexivity.
Defined.

(** ** The encoder, shape by shape *)

(** Growing an empty scratch store by [len bytes] and writing [bytes] at 0
    leaves exactly [bytes]. *)
Lemma Grow_scratch (n : Z) :
  0 ≤ n →
  crunch.Grow n (crunch.NewBuffer [])
  = Ok (crunch.mk (repeat x00 (Z.to_nat n)) 0).
Proof.
  intros Hn. rewrite Grow_Ok by done.
  change (crunch.NewBuffer []) with (crunch.mk [] 0).
  by rewrite uncovered_fresh, left_behind_fresh.
Qed.

Lemma Write_scratch (n : Z) (bytes : list byte) :
  n = len bytes →
  crunch.WriteBytes 0 bytes (crunch.mk (repeat x00 (Z.to_nat n)) 0)
  = Ok (crunch.mk bytes 0).
Proof.
  intros ->. rewrite WriteBytes_Ok; [|done|].
  2:{ unfold crunch.ByteCapacity, len. cbn. rewrite repeat_length. lia. }
  unfold crunch.mk. cbn [crunch.buf crunch.off crunch.behind].
  f_equal. f_equal. unfold crunch.splice, len. cbn [Z.to_nat take app].
  rewrite Nat2Z.id, drop_ge by (rewrite repeat_length; lia).
  by rewrite app_nil_r.
Qed.

Lemma scratch_bytes_spec (bytes : list byte) :
  scratch_bytes bytes (crunch.NewBuffer []) = Ok (crunch.mk bytes 0).
Proof.
  unfold scratch_bytes. rewrite Grow_scratch by apply len_nonneg.
  cbn [res_bind]. by apply Write_scratch.
Qed.

Lemma le_bytes_length w v : List.length (crunch.le_bytes w v) = w.
Proof. revert v. induction w as [|w IH]; intros v; [done|]. cbn. by rewrite IH. Qed.

Lemma concat_le_bytes_len w (numbers : list Z) :
  len (concat (map (crunch.le_bytes w) numbers)) = Z.of_nat w * len numbers.
Proof.
  unfold len. induction numbers as [|v numbers IH]; [cbn; lia|].
  cbn [map concat]. rewrite length_app, le_bytes_length. cbn [List.length].
  lia.
Qed.

(** The loop of the [[]string] case appends string after string at the
    cursor of the scratch store, which follows. *)
Lemma scratch_strings_spec strings :
  ∀ acc,
    len (acc ++ concat (map String.list_byte_of_string strings)) ≤ max_int64 →
    scratch_strings strings (crunch.mk acc (len acc))
    = Ok (crunch.mk
            (acc ++ concat (map String.list_byte_of_string strings))
            (len (acc ++ concat (map String.list_byte_of_string strings)))).
Proof.
  induction strings as [|str strings IH]; intros acc Hfit.
  { cbn. by rewrite app_nil_r. }
  cbn [scratch_strings map concat] in *.
  set (data := String.list_byte_of_string str) in *.
  rewrite app_assoc in Hfit.
  pose proof (len_nonneg acc) as Hacc. pose proof (len_nonneg data) as Hdata.
  assert (len (acc ++ data) = len acc + len data) as Hlen
    by (unfold len; rewrite length_app; lia).
  assert (len (acc ++ data) ≤ max_int64) as Hfit'.
  { unfold len in *. rewrite !length_app in Hfit. rewrite length_app. lia. }
  rewrite Grow_Ok by done.
  rewrite uncovered_fresh, left_behind_fresh.
  unfold crunch.mk. cbn [res_bind crunch.buf crunch.off crunch.behind].
  unfold crunch.WriteBytesNext. cbn [crunch.buf crunch.off crunch.behind].
  rewrite WriteBytes_Ok; [|done|].
  2:{ unfold crunch.ByteCapacity, len. cbn [crunch.buf].
      rewrite length_app, repeat_length. lia. }
  cbn [res_bind crunch.buf crunch.off crunch.behind].
  rewrite wrap64_small by (unfold max_int64 in *; lia).
  assert (crunch.splice (Z.to_nat (len acc)) data
            (acc ++ repeat x00 (Z.to_nat (len data))) = acc ++ data) as ->.
  { unfold crunch.splice, len. rewrite !Nat2Z.id.
    rewrite take_app_length, drop_ge
      by (rewrite length_app, repeat_length; lia).
    by rewrite app_nil_r. }
  rewrite <- Hlen. fold (crunch.mk (acc ++ data) (len (acc ++ data))).
  rewrite IH by done. by rewrite <- app_assoc.
Qed.

(** The [switch] of [WriteAbstract] leaves the payload of the value in the
    scratch store. *)
Lemma encode_payload data bytes :
  payload data = Some bytes → len bytes ≤ max_int64 →
  ∃ buffer,
    encode data (crunch.NewBuffer []) = Ok (inl buffer) ∧
    crunch.Bytes buffer = bytes.
Proof.
  intros Hpay Hfit.
  destruct data as [all [err|] | bs | v | v | v | v | v | v | strings
                   | t v | t numbers | ]; try discriminate;
    injection Hpay as <-; cbn [encode].
  - rewrite scratch_bytes_spec. by eexists.
  - rewrite scratch_bytes_spec. by eexists.
  - rewrite Grow_scratch by done. cbn [res_bind assert_byte].
    unfold crunch.WriteByte. rewrite (Write_scratch 1) by done. by eexists.
  - cbn [assert_byte_slice res_bind]. rewrite scratch_bytes_spec. by eexists.
  - change (crunch.NewBuffer []) with (crunch.mk [] (len (@nil byte))).
    rewrite scratch_strings_spec by done. by eexists.
  - rewrite Grow_scratch by lia. cbn [res_bind].
    unfold crunch.WriteLE. cbn [map concat]. rewrite app_nil_r.
    rewrite Write_scratch by (unfold len; by rewrite le_bytes_length).
    by eexists.
  - rewrite concat_le_bytes_len in Hfit.
    pose proof (len_nonneg numbers) as Hn.
    rewrite wrap64_small by (unfold max_int64 in *; nia).
    rewrite Grow_scratch by nia. cbn [res_bind].
    unfold crunch.WriteLE.
    rewrite Write_scratch by (by rewrite concat_le_bytes_len).
    by eexists.
Qed.

(** X13: [WriteAbstract] of a value that has a payload no longer than an
    [int64] counts (a reader outside the heap of buffers, one that is no
    buffer of this package and reads from none, that [io.ReadAll] reads to
    its end without error; a bytes-producing value outside the heap; a byte,
    a byte slice, a slice of strings, a fixed-width number or a slice of
    them) is exactly one [Write] of that payload, with its results and its
    effect on the heap; so on a buffer that is closed it writes nothing and
    returns 0 and [io.EOF]. *)
Theorem X13_write_abstract_is_one_write
    (st : state) (b : addr) (data : any) (bytes : list byte) :
  payload data = Some bytes → len bytes ≤ max_int64 →
  WriteAbstract b data st = Write b bytes st ∧
  (∀ B, bufs st !! b = Some B → Closed b st = Ok (true, st) →
        WriteAbstract b data st = Ok ((0, Some EOF), st)).
Proof.
  intros Hpay Hfit.
  destruct (encode_payload _ _ Hpay Hfit) as (buffer & Henc & Hbytes).
  assert (WriteAbstract b data st = Write b bytes st) as Hone.
  { unfold WriteAbstract, bind, lift. rewrite Henc. by rewrite Hbytes. }
  split; [done|]. intros B HB Hclosed. rewrite Hone.
  by destruct (closed_calls _ _ _ HB Hclosed [] bytes 0 0 0) as (_ & _ & Hw & _).
Qed.

(** A run of X13: a slice of two strings written through a closed root and
    as one [Write]. *)
Lemma X13_write_abstract_is_one_write_witness :
  WriteAbstract 0%nat (any_string_slice ["A"%string; "B"%string])
    (mkState [mkBuffer (Some 0%nat) None 0 0 true "r"] [crunch.mk [] 0])
  = Write 0%nat AB
      (mkState [mkBuffer (Some 0%nat) None 0 0 true "r"] [crunch.mk [] 0]) ∧
  WriteAbstract 0%nat (any_string_slice ["A"%string; "B"%string])
    (mkState [mkBuffer (Some 0%nat) None 0 0 true "r"] [crunch.mk [] 0])
  = Ok ((0, Some EOF),
        mkState [mkBuffer (Some 0%nat) None 0 0 true "r"] [crunch.mk [] 0]).
Proof.
  destruct (X13_write_abstract_is_one_write
              (mkState [mkBuffer (Some 0%nat) None 0 0 true "r"]
                 [crunch.mk [] 0])
              0%nat (any_string_slice ["A"%string; "B"%string]) AB)
    as [Hone Hclosed]; [reflexivity | vm_compute; discriminate |].
  split; [exact Hone|].
  apply (Hclosed (mkBuffer (Some 0%nat) None 0 0 true "r")); reflexivity.
Defined.

(** ** Numbers in the store *)

Lemma byte_of_Z_value v : Z.of_N (Byte.to_N (byte_of_Z v)) = v mod 256.
Proof.
  unfold byte_of_Z.
  assert (Z.land v 255 = v mod 256) as Hland
    by (change 255 with (Z.ones 8); by rewrite Z.land_ones).
  pose proof (Z.mod_pos_bound v 256 ltac:(lia)) as Hbound.
  destruct (Byte.of_N (Z.to_N (Z.land v 255))) as [b|] eqn:Hb.
  - apply Stdlib.Strings.Byte.to_of_N in Hb.
    change (default x00 (Some b)) with b. rewrite Hb. lia.
  - apply Stdlib.Strings.Byte.of_N_None_iff in Hb. lia.
Qed.

Lemma le_value_le_bytes w v :
  le_value (crunch.le_bytes w v) = v mod 2 ^ (8 * Z.of_nat w).
Proof.
  revert v. induction w as [|w IH]; intros v.
  { cbn. by rewrite Z.mod_1_r. }
  cbn [crunch.le_bytes le_value]. rewrite byte_of_Z_value, IH.
  rewrite Z.shiftr_div_pow2 by lia. change (2 ^ 8) with 256.
  replace (8 * Z.of_nat (S w)) with (8 + 8 * Z.of_nat w) by lia.
  rewrite Z.pow_add_r by lia. change (2 ^ 8) with 256.
  rewrite Z.rem_mul_r by lia. reflexivity.
Qed.

(** X14: [WriteAbstract] of a fixed-width number on a root that is not
    closed, with its cursor [o] at or after 0 and [o] plus the width an
    [int64] (the store being no longer than an [int64] counts), writes at
    the cursor as many bytes as the type is wide, and the cursor moves on by
    the width.  With the little-endian encoding that the spec gives to the
    store's [Write...LE] calls, the bytes spell the number least significant
    byte first: their little-endian value is the number modulo 2 to the
    width in bits (the two's complement of a negative one). *)
Theorem X14_write_abstract_number
    (st : state) (r : addr) (R : Buffer) (s : addr) (sb : crunch.Buffer)
    (t : numeric) (v : Z) :
  is_root st r R s sb → closed R = false →
  0 ≤ offset R → offset R + Z.of_nat (width t) ≤ max_int64 →
  crunch.ByteCapacity sb ≤ max_int64 →
  ∃ st' enc R' sb',
    WriteAbstract r (any_num t v) st = Ok ((Z.of_nat (width t), None), st') ∧
    List.length enc = width t ∧
    le_value enc = v mod 2 ^ (8 * Z.of_nat (width t)) ∧
    is_root st' r R' s sb' ∧
    offset R' = offset R + Z.of_nat (width t) ∧
    take (width t) (drop (Z.to_nat (offset R)) (crunch.buf sb')) = enc.
Proof.
  intros Hroot Hopen Ho Hfit Hcap.
  set (enc := crunch.le_bytes (width t) v).
  assert (len enc = Z.of_nat (width t)) as Hlen
    by (unfold len, enc; by rewrite le_bytes_length).
  assert (width t ≤ 8)%nat as Hw by (destruct t; cbn; lia).
  destruct (encode_payload (any_num t v) enc eq_refl) as (buffer & Henc & Hbytes).
  { rewrite Hlen. unfold max_int64. lia. }
  rewrite <- Hlen in Hfit.
  pose proof (Write_root _ _ _ _ _ enc Hroot Hopen Ho Hfit Hcap) as Hw'.
  pose proof (Write_root_is_root _ _ _ _ _ enc _ _ Hroot Hopen Ho Hfit Hcap Hw')
    as Hroot'.
  eexists _, enc, _, _.
  split.
  { rewrite <- Hlen. unfold WriteAbstract, bind, lift.
    rewrite Henc, Hbytes. exact Hw'. }
  split; [apply le_bytes_length|]. split; [apply le_value_le_bytes|].
  split; [exact Hroot'|]. split; [cbn; lia|].
  unfold written. cbn [crunch.buf].
  rewrite <- (le_bytes_length (width t) v) at 1. apply splice_read.
  rewrite length_app, uncovered_length.
  unfold crunch.ByteCapacity, len in *. fold enc. lia.
Qed.

(** A run of X14: the [int16] -2 appended to "AB". *)
Lemma X14_write_abstract_number_witness :
  ∃ st' enc R' sb',
    WriteAbstract 0%nat (any_num int16 (-2))
      (mkState [mkBuffer (Some 0%nat) None 2 2 false "r"] [crunch.mk AB 0])
    = Ok ((2, None), st') ∧
    List.length enc = 2%nat ∧ le_value enc = 65534 ∧
    is_root st' 0%nat R' 0%nat sb' ∧ offset R' = 4 ∧
    take 2 (drop 2 (crunch.buf sb')) = enc.
Proof.
  apply (X14_write_abstract_number
           (mkState [mkBuffer (Some 0%nat) None 2 2 false "r"] [crunch.mk AB 0])
           0%nat (mkBuffer (Some 0%nat) None 2 2 false "r") 0%nat
           (crunch.mk AB 0) int16 (-2));
    [unfold is_root; cbn; repeat split; reflexivity | reflexivity
    | vm_compute; discriminate | vm_compute; discriminate
    | vm_compute; discriminate].
Defined.

(** ** What [Close] leaves alone *)

Lemma closing_fields A A' :
  closing A A' →
  offset A' = offset A ∧ length A' = length A ∧ name A' = name A ∧
  parent A' = parent A ∧ buffer A' = buffer A ∧
  (closed A = true → closed A' = true).
Proof. by intros [-> | ->]. Qed.

(** X15: [Close] on any buffer of a chain, closed already or not, returns
    nil and only sets flags.  No store changes and every buffer keeps its
    offset, length, name, parent and store, and stays closed if it was; the
    bytes stay readable through [Bytes]; a second [Close] returns nil
    again and the root stays closed. *)
Theorem X15_close_keeps_data
    (st : state) (b r x : addr) (R : Buffer) (s : addr) (sb : crunch.Buffer) :
  attached st b r R s sb → resolves st x r →
  ∃ st' st1 st2,
    Close b st = Ok (None, st') ∧
    stores st' = stores st ∧
    (∀ a A, bufs st !! a = Some A →
       ∃ A', bufs st' !! a = Some A' ∧
             offset A' = offset A ∧ length A' = length A ∧
             name A' = name A ∧ parent A' = parent A ∧
             buffer A' = buffer A ∧ (closed A = true → closed A' = true)) ∧
    Bytes x st' = Ok (crunch.buf sb, st1) ∧
    Close b st' = Ok (None, st2) ∧
    Closed x st2 = Ok (true, st2).
Proof.
  intros Hatt Hx. pose proof Hatt as (Hb & HR & HPR & Hs & Hsb).
  destruct (Close_resolves _ _ _ Hb)
    as (st' & R' & Hclose & Hst' & Hev & HR' & Hcl).
  assert (attached st x r R s sb) as Hattx by (by repeat split).
  assert (stores st' !! s = Some sb) as Hsb' by (by rewrite Hst').
  destruct (attached_evolves _ _ _ _ _ _ _ _ _ closing_links Hev Hsb' Hattx)
    as (R'' & Hattx' & _).
  destruct (Bytes_attached _ _ _ _ _ _ Hattx') as (st1 & Hbytes & _).
  assert (resolves st' b r) as Hb'
    by (eapply resolves_evolves; [apply closing_links | done..]).
  destruct (Close_resolves _ _ _ Hb')
    as (st2 & R2 & Hclose2 & Hst2 & Hev2 & HR2 & Hcl2).
  assert (resolves st2 x r) as Hx2.
  { eapply resolves_evolves; [apply closing_links | exact Hev2 |].
    by destruct Hattx'. }
  exists st', st1, st2. split; [done|]. split; [done|]. split.
  { intros a A HA. destruct (evolves_lookup _ _ _ _ _ Hev HA) as (A' & HA' & Hc).
    exists A'. split; [done|]. by apply closing_fields. }
  split; [done|]. split; [done|].
  rewrite (Closed_resolves _ _ _ _ Hx2 HR2). by rewrite Hcl2.
Qed.

(** A run of X15: closing a reference of a root that holds "AB". *)
Lemma X15_close_keeps_data_witness :
  ∃ st' st1 st2,
    Close 1%nat
      (mkState [mkBuffer (Some 0%nat) None 2 1 false "r";
                mkBuffer None (Some 0%nat) 0 2 false ""]
         [crunch.mk AB 0])
    = Ok (None, st') ∧
    stores st' = [crunch.mk AB 0] ∧
    Bytes 0%nat st' = Ok (AB, st1) ∧
    Close 1%nat st' = Ok (None, st2) ∧
    Closed 0%nat st2 = Ok (true, st2).
Proof.
  destruct (X15_close_keeps_data
              (mkState [mkBuffer (Some 0%nat) None 2 1 false "r";
                        mkBuffer None (Some 0%nat) 0 2 false ""]
                 [crunch.mk AB 0])
              1%nat 0%nat 0%nat (mkBuffer (Some 0%nat) None 2 1 false "r")
              0%nat (crunch.mk AB 0))
    as (st' & st1 & st2 & H1 & H2 & _ & H4 & H5 & H6).
  - split; [|by repeat split].
    eapply resolves_ref; [reflexivity | reflexivity | lia |].
    by eapply resolves_root.
  - by eapply resolves_root.
  - exists st', st1, st2. repeat (split; [assumption|]). assumption.
Defined.

(** ** A root fresh from [NewBuffer] *)

(** X16: a root fresh from [NewBuffer(name, slices...)] carries the name,
    is not closed, holds the slices one after the other, has their total
    length as its size, and a first [Read] into that many cells gives the
    whole content and leaves the cursor at the end. *)
Theorem X16_new_buffer_seeded
    (st : state) (name : string) (slices : list (list byte))
    (dst : list byte) :
  len (concat slices) ≤ max_int64 →
  List.length dst = List.length (concat slices) →
  ∃ r st' st1 st2 st3 R3,
    NewBuffer name slices st = Ok (r, st') ∧
    GetName r st' = Ok (name, st') ∧
    Closed r st' = Ok (false, st') ∧
    Bytes r st' = Ok (concat slices, st1) ∧
    Size r st' = Ok (len (concat slices), st2) ∧
    Read r dst st' = Ok ((concat slices, len (concat slices), None), st3) ∧
    bufs st3 !! r = Some R3 ∧ offset R3 = len (concat slices).
Proof.
  intros Hfit Hdst.
  destruct (NewBuffer name slices st) as [[r st']| |] eqn:Hnew;
    try (rewrite NewBuffer_spec in Hnew; discriminate).
  pose proof (NewBuffer_is_root _ _ _ _ _ Hnew) as Hroot.
  set (R0 := mkBuffer _ _ _ _ _ _) in Hroot.
  set (sb0 := crunch.NewBuffer slices) in Hroot.
  pose proof Hroot as (HR & _).
  pose proof (len_nonneg (concat slices)) as Hn.
  assert (len dst = len (concat slices)) as Hlen by (unfold len; by rewrite Hdst).
  destruct (Bytes_attached _ _ _ _ _ _ (is_root_attached _ _ _ _ _ Hroot))
    as (st1 & Hbytes & _).
  destruct (ByteCapacity_attached _ _ _ _ _ _ (is_root_attached _ _ _ _ _ Hroot))
    as (st2 & Hsize & _).
  pose proof (Read_root st' r R0 _ sb0 dst Hroot eq_refl) as Hread.
  change (offset R0) with 0 in Hread.
  change (crunch.ByteCapacity sb0) with (len (concat slices)) in Hread.
  change (crunch.buf sb0) with (concat slices) in Hread.
  specialize (Hread ltac:(lia) ltac:(lia) Hfit).
  change (Z.to_nat 0) with 0%nat in Hread.
  rewrite drop_0, Hdst, firstn_all, Hlen, Z.add_0_l in Hread.
  eexists r, st', st1, st2, _, _.
  split; [done|]. split; [unfold GetName; by run_with HR|].
  split; [by rewrite (Closed_root _ _ _ _ _ Hroot)|].
  split; [exact Hbytes|].
  split; [unfold Size; run_with HR; exact Hsize|].
  split; [exact Hread|]. cbn [bufs].
  split; [by eapply lookup_updated | done].
Qed.

(** A run of X16: a root seeded with two slices. *)
Lemma X16_new_buffer_seeded_witness :
  ∃ r st' st1 st2 st3 R3,
    NewBuffer "r" [[x07]; AB] empty_state = Ok (r, st') ∧
    GetName r st' = Ok ("r"%string, st') ∧
    Closed r st' = Ok (false, st') ∧
    Bytes r st' = Ok ([x07; x41; x42], st1) ∧
    Size r st' = Ok (3, st2) ∧
    Read r [x00; x00; x00] st' = Ok (([x07; x41; x42], 3, None), st3) ∧
    bufs st3 !! r = Some R3 ∧ offset R3 = 3.
Proof.
  apply (X16_new_buffer_seeded empty_state "r" [[x07]; AB] [x00; x00; x00]);
    [vm_compute; discriminate | reflexivity].
Defined.

(** ** What [Seek] leaves alone *)

(** X17: [Seek] on a buffer that is not closed moves the cursor of that
    buffer and of no other; the bytes of every store stay as they are.  On
    a reference no store is touched at all; on a root the cursor of its
    store is set to the new offset. *)
Theorem X17_seek_moves_one_cursor
    (st : state) (b r : addr) (R B : Buffer) (s : addr) (sb : crunch.Buffer)
    (to whence : Z) :
  attached st b r R s sb → closed R = false → bufs st !! b = Some B →
  let target := seek_target (with_length (crunch.ByteCapacity sb) B) to whence in
  ∃ st',
    Seek b to whence st = Ok ((target, None), st') ∧
    (∀ a A A', a ≠ b → bufs st !! a = Some A → bufs st' !! a = Some A' →
               offset A' = offset A) ∧
    (∀ a x, stores st !! a = Some x →
            ∃ x', stores st' !! a = Some x' ∧ crunch.buf x' = crunch.buf x) ∧
    (is_Some (parent B) → stores st' = stores st) ∧
    (parent B = None →
     stores st' !! s
     = Some (crunch.make (crunch.buf sb) target (crunch.behind sb))).
Proof.
  intros Hatt Hopen HB target.
  pose proof Hatt as (Hres & HR & HPR & Hs & Hsb).
  destruct (Buffer_attached _ _ _ _ _ _ Hatt)
    as (st1 & B1 & Hrun & Hst1 & Hev1 & HB1 & HL1).
  pose proof (refreshed_at _ _ _ _ _ _ Hev1 HB HB1 HL1) as HB1eq.
  unfold Seek. run_with HB.
  run_with (Closed_resolves _ _ _ _ Hres HR). rewrite Hopen.
  run_with Hrun. run_with HB1. rewrite HB1eq. fold target.
  remember (mkState _ _) as st2 eqn:Est2.
  set (B2 := with_offset target (with_length (crunch.ByteCapacity sb) B)) in *.
  assert (bufs st2 !! b = Some B2) as HB2
    by (subst st2; by eapply lookup_updated).
  assert (stores st2 = stores st) as Hst2 by (by subst st2).
  assert (∀ a A A', a ≠ b → bufs st !! a = Some A → bufs st2 !! a = Some A' →
                    offset A' = offset A) as Hothers.
  { intros a A A' Hne HA HA'. subst st2. cbn [bufs] in HA'.
    rewrite list_lookup_insert_ne in HA' by done.
    destruct (evolves_lookup _ _ _ _ _ Hev1 HA) as (A1 & HA1 & Href).
    assert (A1 = A') as -> by congruence. by apply refreshed_offset. }
  run_with HB2. change (parent B2) with (parent B). change (offset B2) with target.
  destruct (parent B) as [p|] eqn:HP.
  - unfold ret at 1. unfold bind at 1. unfold ret.
    exists st2. split; [done|]. split; [done|]. split; [|split; [done|done]].
    intros a x Hx. exists x. by rewrite Hst2.
  - assert (stores st2 !! s = Some sb) as Hsb2 by by rewrite Hst2.
    unfold bind at 1. run_with Hsb2. rewrite set_store_Ok. unfold ret.
    eexists. split; [reflexivity|]. cbn [bufs stores].
    split; [done|]. split; [|split].
    + intros a x Hx. rewrite Hst2.
      destruct (decide (a = s)) as [-> | Hne].
      * assert (x = sb) as -> by congruence.
        eexists. split; [by eapply lookup_updated | done].
      * exists x. by rewrite list_lookup_insert_ne.
    + by intros [? ?].
    + intros _. rewrite Hst2. by eapply lookup_updated.
Qed.

(** A run of X17: a reference seeks to the end of a two-byte store. *)
Lemma X17_seek_moves_one_cursor_witness :
  ∃ st',
    Seek 1%nat 0 SeekEnd
      (mkState [mkBuffer (Some 0%nat) None 2 1 false "r";
                mkBuffer None (Some 0%nat) 0 0 false ""]
         [crunch.mk AB 0])
    = Ok ((2, None), st') ∧
    stores st' = [crunch.mk AB 0].
Proof.
  destruct (X17_seek_moves_one_cursor
              (mkState [mkBuffer (Some 0%nat) None 2 1 false "r";
                        mkBuffer None (Some 0%nat) 0 0 false ""]
                 [crunch.mk AB 0])
              1%nat 0%nat (mkBuffer (Some 0%nat) None 2 1 false "r")
              (mkBuffer None (Some 0%nat) 0 0 false "") 0%nat
              (crunch.mk AB 0) 0 SeekEnd)
    as (st' & Hseek & _ & _ & Hsame & _).
  - split; [|by repeat split].
    eapply resolves_ref; [reflexivity | reflexivity | lia |].
    by eapply resolves_root.
  - reflexivity.
  - reflexivity.
  - exists st'. split; [exact Hseek|]. apply Hsame. by eexists.
Defined.
